(** * Query plans visualiser: the selectivity-space pipeline, modelled and verified

    A shallow embedding of [qep_processor.py], [query_plan_visualizer.py],
    [get_predicates_conditions.py] and the parts of [db_connection_manager.py]
    they call.  Python values are an
    inductive type, exceptions are an explicit result type, calls to the
    database are logged in a trace, and dictionaries keep their insertion
    order.  Floating point numbers are modelled by the rationals they stand
    for; no property below depends on binary rounding. *)

From Stdlib Require Import QArith Qround Qabs Lqa Ascii DecimalString DecimalNat.
From stdpp Require Import base gmap strings list.

Local Open Scope string_scope.
Local Open Scope list_scope.

(** ** Python values *)

Module Py.

(** The exceptions the modelled code can raise.  [SystemExit] is what [quit()]
    raises; nothing in the program catches it, so it ends the process. *)
Inductive exn : Set :=
| TypeError | AttributeError | IndexError | KeyError | ValueError | SystemExit.

Inductive outcome (A : Type) : Type :=
| Ret (a : A)
| Raise (e : exn).
Arguments Ret {A} a.
Arguments Raise {A} e.

Definition obind {A B} (m : outcome A) (k : A -> outcome B) : outcome B :=
  match m with
  | Ret a => k a
  | Raise e => Raise e
  end.

(** The symbols jsondiff uses as dictionary keys in a diff. *)
Inductive sym : Set := insert_ | delete_ | update_.

(** Dictionary keys: strings (JSON), list positions and symbols (diffs). *)
Inductive pykey : Set :=
| KStr (s : string)
| KInt (n : Z)
| KSym (y : sym).

#[local] Unset Elimination Schemes.
Inductive pyval : Type :=
| PNone
| PBool (b : bool)
| PNum (q : Q)
| PStr (s : string)
| PSym (y : sym)
| PList (l : list pyval)
| PTuple (l : list pyval)
| PDict (d : list (pykey * pyval)).
#[local] Set Elimination Schemes.

Definition sym_eqb (a b : sym) : bool :=
  match a, b with
  | insert_, insert_ | delete_, delete_ | update_, update_ => true
  | _, _ => false
  end.

Definition key_eqb (a b : pykey) : bool :=
  match a, b with
  | KStr s, KStr t => String.eqb s t
  | KInt n, KInt m => Z.eqb n m
  | KSym y, KSym z => sym_eqb y z
  | _, _ => false
  end.

(** [d.get(k)] on a dictionary kept as an association list (insertion order,
    no key twice). *)
Fixpoint dict_get (d : list (pykey * pyval)) (k : pykey) : option pyval :=
  match d with
  | [] => None
  | (k', v) :: d' => if key_eqb k' k then Some v else dict_get d' k
  end.

Definition dict_mem (d : list (pykey * pyval)) (k : pykey) : bool :=
  match dict_get d k with Some _ => true | None => false end.

Definition is_None (v : pyval) : bool :=
  match v with PNone => true | _ => false end.

(** [==] on scalars ([bool] is a subtype of [int] in Python). *)
Definition scalar_eqb (a b : pyval) : bool :=
  match a, b with
  | PNone, PNone => true
  | PBool x, PBool y => Bool.eqb x y
  | PBool x, PNum q | PNum q, PBool x => Qeq_bool q (if x then 1 else 0)
  | PNum p, PNum q => Qeq_bool p q
  | PStr s, PStr t => String.eqb s t
  | PSym y, PSym z => sym_eqb y z
  | _, _ => false
  end.

(** A dictionary key as a value, as in [list(d.keys())]. *)
Definition key_val (k : pykey) : pyval :=
  match k with
  | KStr s => PStr s
  | KInt n => PNum (inject_Z n)
  | KSym y => PSym y
  end.

(** [v[i]] for a non-negative constant [i]. *)
Definition getitem (v : pyval) (i : nat) : outcome pyval :=
  match v with
  | PList l | PTuple l =>
      match l !! i with
      | Some x => Ret x
      | None => Raise IndexError
      end
  | PStr s =>
      match String.get i s with
      | Some c => Ret (PStr (String c EmptyString))
      | None => Raise IndexError
      end
  | PDict d =>
      match dict_get d (KInt (Z.of_nat i)) with
      | Some x => Ret x
      | None => Raise KeyError
      end
  | _ => Raise TypeError
  end.

End Py.
Export Py.

(** ** Python string operations used by the processor *)

Module PyStr.

Fixpoint is_prefix (p s : string) : bool :=
  match p, s with
  | EmptyString, _ => true
  | String a p', String b s' => Ascii.eqb a b && is_prefix p' s'
  | String _ _, EmptyString => false
  end.

(** [sub in s] for strings. *)
Fixpoint contains (sub s : string) : bool :=
  is_prefix sub s ||
  match s with
  | EmptyString => false
  | String _ s' => contains sub s'
  end.

(** [s.replace(old, new)] for a non-empty [old]: left to right, without
    overlap.  [skip] counts the characters of a match still to be dropped. *)
Fixpoint replace_go (old new s : string) (skip : nat) : string :=
  match s with
  | EmptyString => EmptyString
  | String c s' =>
      match skip with
      | S k => replace_go old new s' k
      | O =>
          if is_prefix old s
          then new ++ replace_go old new s' (String.length old - 1)
          else String c (replace_go old new s' 0)
      end
  end.

(** With an empty [old] Python puts [new] before every character and at the
    end. *)
Fixpoint interleave (new s : string) : string :=
  match s with
  | EmptyString => new
  | String c s' => new ++ String c (interleave new s')
  end.

Definition replace (s old new : string) : string :=
  match old with
  | EmptyString => interleave new s
  | _ => replace_go old new s 0
  end.

Fixpoint drop_chars (n : nat) (s : string) : string :=
  match n, s with
  | S k, String _ s' => drop_chars k s'
  | _, _ => s
  end.

(** [s.replace(old, new, 1)]: only the first occurrence. *)
Fixpoint replace1_go (old new s : string) : string :=
  match s with
  | EmptyString => EmptyString
  | String c s' =>
      if is_prefix old s
      then new ++ drop_chars (String.length old) s
      else String c (replace1_go old new s')
  end.

Definition replace1 (s old new : string) : string :=
  match old with
  | EmptyString => new ++ s
  | _ => replace1_go old new s
  end.

(** [s.split(sep)] for a non-empty separator. *)
Fixpoint split_go (sep s : string) (skip : nat) (cur : string) : list string :=
  match s with
  | EmptyString => [String.rev cur]
  | String c s' =>
      match skip with
      | S k => split_go sep s' k cur
      | O =>
          if is_prefix sep s
          then String.rev cur :: split_go sep s' (String.length sep - 1) EmptyString
          else split_go sep s' 0 (String c cur)
      end
  end.

Definition split (s sep : string) : list string := split_go sep s 0 EmptyString.

(** [re.split("<|<=|>|>=|!=", s)].  The alternatives are tried in order at
    each position, so a match is ["<"], [">"] or ["!="]; ["<="] and [">="]
    never win against their one-character prefixes. *)
Fixpoint re_split_comparison_go (s : string) (skip : nat) (cur : string) : list string :=
  match s with
  | EmptyString => [String.rev cur]
  | String c s' =>
      match skip with
      | S k => re_split_comparison_go s' k cur
      | O =>
          if is_prefix "<" s || is_prefix ">" s
          then String.rev cur :: re_split_comparison_go s' 0 EmptyString
          else if is_prefix "!=" s
          then String.rev cur :: re_split_comparison_go s' 1 EmptyString
          else re_split_comparison_go s' 0 (String c cur)
      end
  end.

Definition re_split_comparison (s : string) : list string :=
  re_split_comparison_go s 0 EmptyString.

Definition in_range (lo hi : string) (c : ascii) : bool :=
  match lo, hi with
  | String a _, String b _ =>
      (nat_of_ascii a <=? nat_of_ascii c)%nat && (nat_of_ascii c <=? nat_of_ascii b)%nat
  | _, _ => false
  end.

(** The character class [[A-Za-z0-9.-]]. *)
Definition is_word_char (c : ascii) : bool :=
  in_range "A" "Z" c || in_range "a" "z" c || in_range "0" "9" c
  || Ascii.eqb c "."%char || Ascii.eqb c "-"%char.

Fixpoint filter_chars (f : ascii -> bool) (s : string) : string :=
  match s with
  | EmptyString => EmptyString
  | String c s' => if f c then String c (filter_chars f s') else filter_chars f s'
  end.

(** [re.sub('[^A-Za-z0-9.-]+', '', s)]. *)
Definition re_sub_non_word (s : string) : string := filter_chars is_word_char s.

(** Python's whitespace for [str.strip()] on ASCII text. *)
Definition is_space (c : ascii) : bool :=
  let n := nat_of_ascii c in
  (n =? 32)%nat || ((9 <=? n)%nat && (n <=? 13)%nat) || ((28 <=? n)%nat && (n <=? 31)%nat).

Fixpoint lstrip (s : string) : string :=
  match s with
  | String c s' => if is_space c then lstrip s' else s
  | EmptyString => EmptyString
  end.

Definition strip (s : string) : string :=
  String.rev (lstrip (String.rev (lstrip s))).

(** [s[1:-1]]. *)
Definition slice_1_m1 (s : string) : string :=
  String.substring 1 (String.length s - 2) s.

(** Decimal rendering of a non-negative integer, as [str.format] prints it. *)
Definition str_nat (n : nat) : string := NilEmpty.string_of_uint (Nat.to_uint n).

End PyStr.

(** ** Python floats

    A float is the rational it stands for, or one of the non-finite values
    ([inf], [-inf], [nan]), which the arithmetic used here never turns back
    into a finite one. *)

Module PyFloat.
Import PyStr.

Inductive pyfloat : Set :=
| Finite (q : Q)
| NonFinite.

Definition fsub (a b : pyfloat) : pyfloat :=
  match a, b with
  | Finite x, Finite y => Finite (x - y)
  | _, _ => NonFinite
  end.

Definition fadd (a b : pyfloat) : pyfloat :=
  match a, b with
  | Finite x, Finite y => Finite (x + y)
  | _, _ => NonFinite
  end.

(** Multiplication by a non-zero finite constant. *)
Definition fmul (a b : pyfloat) : pyfloat :=
  match a, b with
  | Finite x, Finite y => Finite (x * y)
  | _, _ => NonFinite
  end.

Definition digit_of (c : ascii) : option N :=
  let n := nat_of_ascii c in
  if (48 <=? n)%nat && (n <=? 57)%nat then Some (N.of_nat (n - 48)) else None.

(** The rest of a digit part, one digit being read already: digits, each
    possibly preceded by a single underscore. *)
Fixpoint digitpart_go (s : string) (acc : N) (cnt : nat) : N * nat * string :=
  match s with
  | EmptyString => (acc, cnt, s)
  | String c s' =>
      match digit_of c with
      | Some d => digitpart_go s' (10 * acc + d)%N (S cnt)
      | None =>
          if Ascii.eqb c "_"%char then
            match s' with
            | String c2 s'' =>
                match digit_of c2 with
                | Some d => digitpart_go s'' (10 * acc + d)%N (S cnt)
                | None => (acc, cnt, s)
                end
            | EmptyString => (acc, cnt, s)
            end
          else (acc, cnt, s)
      end
  end.

Definition digitpart (s : string) : option (N * nat * string) :=
  match s with
  | String c s' =>
      match digit_of c with
      | Some d => Some (digitpart_go s' d 1)
      | None => None
      end
  | EmptyString => None
  end.

Definition QofN (n : N) : Q := inject_Z (Z.of_N n).

Definition fraction (f : N) (cnt : nat) : Q := (QofN f / inject_Z (10 ^ Z.of_nat cnt))%Q.

Definition mantissa (s : string) : option (Q * string) :=
  match digitpart s with
  | Some (i, _, rest) =>
      match rest with
      | String c rest' =>
          if Ascii.eqb c "."%char then
            match digitpart rest' with
            | Some (f, cnt, rest'') => Some ((QofN i + fraction f cnt)%Q, rest'')
            | None => Some (QofN i, rest')
            end
          else Some (QofN i, rest)
      | EmptyString => Some (QofN i, rest)
      end
  | None =>
      match s with
      | String c rest' =>
          if Ascii.eqb c "."%char then
            match digitpart rest' with
            | Some (f, cnt, rest'') => Some (fraction f cnt, rest'')
            | None => None
            end
          else None
      | EmptyString => None
      end
  end.

Definition split_sign (s : string) : bool * string :=
  match s with
  | String c s' =>
      if Ascii.eqb c "-"%char then (true, s')
      else if Ascii.eqb c "+"%char then (false, s')
      else (false, s)
  | EmptyString => (false, s)
  end.

Definition exponent (s : string) : option Z :=
  match s with
  | String c s' =>
      if Ascii.eqb c "e"%char || Ascii.eqb c "E"%char then
        let '(neg, s'') := split_sign s' in
        match digitpart s'' with
        | Some (n, _, EmptyString) => Some (if neg then (- Z.of_N n)%Z else Z.of_N n)
        | _ => None
        end
      else None
  | EmptyString => None
  end.

Definition lower (c : ascii) : ascii :=
  if in_range "A" "Z" c then ascii_of_nat (nat_of_ascii c + 32) else c.

Fixpoint lower_str (s : string) : string :=
  match s with
  | EmptyString => EmptyString
  | String c s' => String (lower c) (lower_str s')
  end.

Definition is_nonfinite_word (s : string) : bool :=
  let w := lower_str s in
  String.eqb w "inf" || String.eqb w "infinity" || String.eqb w "nan".

(** [float(s)] for a string: [None] is [ValueError]. *)
Definition float_of_str (s : string) : option pyfloat :=
  let '(neg, body) := split_sign (strip s) in
  if is_nonfinite_word body then Some NonFinite
  else
    match mantissa body with
    | Some (m, rest) =>
        let signed := if neg then (- m)%Q else m in
        match rest with
        | EmptyString => Some (Finite signed)
        | _ =>
            match exponent rest with
            | Some e => Some (Finite (signed * 10 ^ e)%Q)
            | None => None
            end
        end
    | None => None
    end.

End PyFloat.
Export PyFloat.

(** ** The tree diff

    [_compareQEPs] calls [diff(qep1, qep2, syntax="explicit")] of the jsondiff
    package, which is not part of the repository.  The model below follows the
    package's differ: a similarity score in [0, 1] for every pair of values, a
    longest-common-subsequence alignment of lists weighted by that score, and
    the explicit syntax for the result (symbol keys [insert], [update],
    [delete]; inserted list elements as (position, value) pairs; deleted
    dictionary keys and list positions as bare lists).  The package computes
    similarities in binary floating point; here they are the exact
    rationals. *)

Module JsonDiff.

Definition qmax (a b : Q) : Q := if Qle_bool a b then b else a.
Definition qlt_bool (a b : Q) : bool := negb (Qle_bool b a).

Definition emit_value_diff (b : pyval) (s : Q) : pyval :=
  if Qeq_bool s 1 then PDict [] else b.

Definition section (k : sym) (v : pyval) (nonempty : bool) : list (pykey * pyval) :=
  if nonempty then [(KSym k, v)] else [].

Definition nonempty {A} (l : list A) : bool :=
  match l with [] => false | _ => true end.

Definition emit_dict_diff (b : pyval) (s : Q)
    (added changed removed : list (pykey * pyval)) : pyval :=
  if Qeq_bool s 0 then b
  else if Qeq_bool s 1 then PDict []
  else PDict (section insert_ (PDict added) (nonempty added)
              ++ section update_ (PDict changed) (nonempty changed)
              ++ section delete_ (PList (map (fun kv => key_val (fst kv)) removed))
                   (nonempty removed)).

Definition pos_val (n : nat) : pyval := PNum (inject_Z (Z.of_nat n)).

Definition emit_list_diff (b : pyval) (s : Q)
    (inserted : list (nat * pyval)) (changed : list (pykey * pyval))
    (deleted : list (nat * pyval)) : pyval :=
  if Qeq_bool s 0 then b
  else if Qeq_bool s 1 then PDict []
  else PDict (changed
              ++ section insert_
                   (PList (map (fun pv => PTuple [pos_val (fst pv); snd pv]) inserted))
                   (nonempty inserted)
              ++ section delete_ (PList (map (fun pv => pos_val (fst pv)) deleted))
                   (nonempty deleted)).

(** *** Dictionaries *)

(** What the first loop of [_dict_diff] learns about one key of [a]: its
    value, and the diff and score against [b]'s value when [b] has the key. *)
Definition key_report : Type := pykey * pyval * option (pyval * Q).

Definition removed_of (r : list key_report) : list (pykey * pyval) :=
  omap (fun x : key_report =>
          match x with (k, v, None) => Some (k, v) | _ => None end) r.

Definition changed_of (r : list key_report) : list (pykey * pyval) :=
  omap (fun x : key_report =>
          match x with
          | (k, _, Some (d, s)) => if qlt_bool s 1 then Some (k, d) else None
          | _ => None
          end) r.

Definition smatched_of (r : list key_report) : Q :=
  fold_left (fun acc (x : key_report) =>
               match x with
               | (_, _, Some (_, s)) => (acc + (0.5 + 0.5 * s))%Q
               | _ => acc
               end) r 0%Q.

Definition nmatched_of (r : list key_report) : nat :=
  length (filter (fun x : key_report => is_Some (snd x)) r).

Definition added_of (a b : list (pykey * pyval)) : list (pykey * pyval) :=
  List.filter (fun kv => negb (dict_mem a (fst kv))) b.

Definition dict_diff_finish (a b : list (pykey * pyval)) (r : list key_report)
    : pyval * Q :=
  let removed := removed_of r in
  let added := added_of a b in
  let changed := changed_of r in
  let n_tot := (length removed + nmatched_of r + length added)%nat in
  let s := match n_tot with
           | O => 1%Q
           | _ => (smatched_of r / inject_Z (Z.of_nat n_tot))%Q
           end in
  (emit_dict_diff (PDict b) s added changed removed, s).

(** *** Lists *)

Definition cell (C : list (list Q)) (i j : nat) : Q := nth j (nth i C []) 0%Q.

(** One row of the matrix [C] of [_list_diff]: [left] is [C[i][j-1]], [prev]
    is row [i-1] from column [j-1] on, [srow] the scores of [X[i-1]] against
    [Y[j-1]], [Y[j]], ... *)
Fixpoint row_go (left : Q) (prev : list Q) (srow : list Q) : list Q :=
  match prev, srow with
  | diag :: ((up :: _) as prev'), s :: srow' =>
      let c := qmax (qmax left up) (diag + s)%Q in
      c :: row_go c prev' srow'
  | _, _ => []
  end.

Definition next_row (prev : list Q) (srow : list Q) : list Q :=
  0%Q :: row_go 0%Q prev srow.

Fixpoint rows_from (prev : list Q) (S : list (list Q)) : list (list Q) :=
  match S with
  | [] => []
  | srow :: S' => let r := next_row prev srow in r :: rows_from r S'
  end.

Definition lcs_matrix (n : nat) (S : list (list Q)) : list (list Q) :=
  let row0 := repeat 0%Q (n + 1) in
  row0 :: rows_from row0 S.

Inductive edit : Type :=
| Same (d : pyval) (pos : nat) (s : Q)
| Ins (v : pyval) (pos : nat)
| Del (v : pyval) (pos : nat).

(** [_list_diff_0]: the walk back through [C], in the order of [r.append];
    [T] holds the diff and score of every pair.  Each step lowers [i + j], so
    [i + j] steps are enough. *)
Fixpoint list_diff_0 (fuel : nat) (C : list (list Q)) (T : list (list (pyval * Q)))
    (X Y : list pyval) (i j : nat) : list edit :=
  match fuel with
  | O => []
  | S fuel' =>
      let '(d, s) := nth (j - 1) (nth (i - 1) T []) (PNone, 0%Q) in
      if (0 <? i)%nat && (0 <? j)%nat && qlt_bool 0 s
         && Qeq_bool (cell C i j) (cell C (i - 1) (j - 1) + s)%Q
      then Same d (j - 1) s :: list_diff_0 fuel' C T X Y (i - 1) (j - 1)
      else if (0 <? j)%nat
              && ((i =? 0)%nat || Qle_bool (cell C (i - 1) j) (cell C i (j - 1)))
      then Ins (nth (j - 1) Y PNone) (j - 1) :: list_diff_0 fuel' C T X Y i (j - 1)
      else if (0 <? i)%nat
              && ((j =? 0)%nat || qlt_bool (cell C i (j - 1)) (cell C (i - 1) j))
      then Del (nth (i - 1) X PNone) (i - 1) :: list_diff_0 fuel' C T X Y (i - 1) j
      else []
  end.

Record list_acc : Type := {
  inserted : list (nat * pyval);
  deleted : list (nat * pyval);
  changed : list (pykey * pyval);
  tot_s : Q
}.

Definition list_step (acc : list_acc) (e : edit) : list_acc :=
  match e with
  | Ins v pos =>
      {| inserted := inserted acc ++ [(pos, v)]; deleted := deleted acc;
         changed := changed acc; tot_s := (tot_s acc + 0)%Q |}
  | Del v pos =>
      {| inserted := inserted acc; deleted := (pos, v) :: deleted acc;
         changed := changed acc; tot_s := (tot_s acc + 0)%Q |}
  | Same d pos s =>
      {| inserted := inserted acc; deleted := deleted acc;
         changed := if qlt_bool s 1
                    then changed acc ++ [(KInt (Z.of_nat pos), d)]
                    else changed acc;
         tot_s := (tot_s acc + s)%Q |}
  end.

Definition list_diff_finish (X Y : list pyval) (b : pyval)
    (T : list (list (pyval * Q))) : pyval * Q :=
  let m := length X in
  let n := length Y in
  let C := lcs_matrix n (map (map snd) T) in
  let r := list_diff_0 (m + n) C T X Y m n in
  let acc := fold_left list_step (rev r)
               {| inserted := []; deleted := []; changed := []; tot_s := 0%Q |} in
  let tot_n := (m + length (inserted acc))%nat in
  let s := match tot_n with
           | O => 1%Q
           | _ => (tot_s acc / inject_Z (Z.of_nat tot_n))%Q
           end in
  (emit_list_diff b s (inserted acc) (changed acc) (deleted acc), s).

Definition value_diff (a b : pyval) : pyval * Q :=
  if scalar_eqb a b then (emit_value_diff b 1, 1%Q) else (emit_value_diff b 0, 0%Q).

(** [_obj_diff]: the diff of [a] against [b] and their similarity. *)
Fixpoint obj_diff (a b : pyval) {struct a} : pyval * Q :=
  match a, b with
  | PDict da, PDict db =>
      dict_diff_finish da db
        ((fix report (items : list (pykey * pyval)) : list key_report :=
            match items with
            | [] => []
            | (k, v) :: items' =>
                (k, v, match dict_get db k with
                       | Some w => Some (obj_diff v w)
                       | None => None
                       end) :: report items'
            end) da)
  | PList xa, PList xb =>
      list_diff_finish xa xb b
        ((fix table (xs : list pyval) : list (list (pyval * Q)) :=
            match xs with
            | [] => []
            | x :: xs' => map (obj_diff x) xb :: table xs'
            end) xa)
  | PTuple xa, PTuple xb =>
      list_diff_finish xa xb b
        ((fix table (xs : list pyval) : list (list (pyval * Q)) :=
            match xs with
            | [] => []
            | x :: xs' => map (obj_diff x) xb :: table xs'
            end) xa)
  | _, _ => value_diff a b
  end.

Definition diff (a b : pyval) : pyval := fst (obj_diff a b).

End JsonDiff.

(** ** db_connection_manager.py

    The psycopg2 cursor is an oracle: what [execute] followed by [fetchall]
    answers for each of the four statements the class sends, or the exception
    it raises.  Every statement sent is logged, so that a run shows which
    round trips it made and in which order. *)

Module DbConnectionManager.

Record Cursor : Type := {
  explain : string -> outcome pyval;      (* EXPLAIN (FORMAT JSON, ...) query *)
  pg_stats : pyval -> string -> outcome pyval;  (* histogram_bounds, most_common_vals, ... *)
  pg_class_reltuples : pyval -> outcome pyval;
  pg_attribute_relname : string -> outcome pyval
}.

(** [self.conn] and [self.cur] are set together by [connect]; [None] is the
    state before a successful [connect]. *)
Record Postgres_Connect : Type := { cur : option Cursor }.

Inductive event : Type :=
| EvGetQEP (query : string)
| EvGetHistogram (tableName : pyval) (attrName : string)
| EvGetCardinality (tableName : pyval)
| EvFindRelation (attrName : string).

(** A computation: its result or exception, and the statements it sent. *)
Definition M (A : Type) : Type := outcome A * list event.

Definition mret {A} (a : A) : M A := (Ret a, []).
Definition lift {A} (o : outcome A) : M A := (o, []).
Definition mbind {A B} (m : M A) (k : A -> M B) : M B :=
  match m with
  | (Ret a, t) => let '(o, t') := k a in (o, t ++ t')
  | (Raise e, t) => (Raise e, t)
  end.

(** [try: ... except (Exception, psycopg2.DatabaseError) as error: print(error)]:
    the method then returns [None]. [SystemExit] is not an [Exception]. *)
Definition swallow (o : outcome pyval) : outcome pyval :=
  match o with
  | Ret r => Ret r
  | Raise SystemExit => Raise SystemExit
  | Raise _ => Ret PNone
  end.

Definition getQEP (self : Postgres_Connect) (query : string) : M pyval :=
  match cur self with
  | Some c => (swallow (explain c query), [EvGetQEP query])
  | None => mret PNone
  end.

Definition getHistogram (self : Postgres_Connect) (tableName : pyval) (attrName : string)
    : M pyval :=
  match cur self with
  | Some c => (swallow (pg_stats c tableName attrName), [EvGetHistogram tableName attrName])
  | None => mret PNone
  end.

Definition getCardinality (self : Postgres_Connect) (tableName : pyval) : M pyval :=
  match cur self with
  | Some c =>
      mbind (pg_class_reltuples c tableName, [EvGetCardinality tableName]) (fun result =>
      lift (obind (getitem result 0) (fun row => getitem row 0)))
  | None => lift (Raise AttributeError)
  end.

Definition findRelation (self : Postgres_Connect) (attrName : string) : M pyval :=
  match cur self with
  | Some c =>
      mbind (pg_attribute_relname c attrName, [EvFindRelation attrName]) (fun result =>
      lift (obind (getitem result 0) (fun row => getitem row 0)))
  | None => lift (Raise AttributeError)
  end.

End DbConnectionManager.
Export DbConnectionManager.

Notation "x <- m ;; k" := (mbind m (fun x => k))
  (at level 100, m at next level, right associativity).

(** ** qep_processor.py *)

Module QepProcessor.
Import PyStr.

(** Return status for public APIs *)
Definition RET_DEFAULT_ERR : nat := 0.
Definition RET_ALL_QEPS : nat := 1.
Definition RET_ONLY_ACTUAL_QEP : nat := 2.
Definition RET_CONVERT_QUERY_ERR : nat := 3.
Definition RET_CONVERT_QUERY_OK : nat := 4.
Definition RET_QEP_FOUND : nat := 5.
Definition RET_QEP_NOT_FOUND : nat := 6.

(** Constants *)
Definition RESOLUTION : nat := 10.
Definition PREDICATE_TOKEN : string := " :varies".

(** *** Utility functions *)

(** [key in obj] followed by [obj[key]] or [obj.items()] on something that is
    not a dictionary. *)
Definition not_a_dict (obj : pyval) (key : string) : exn :=
  match obj with
  | PList l | PTuple l =>
      if existsb (scalar_eqb (PStr key)) l then TypeError else AttributeError
  | PStr s => if contains key s then TypeError else AttributeError
  | _ => TypeError
  end.

Fixpoint _findValueInNestedDict (obj : pyval) (key : string) {struct obj} : outcome pyval :=
  match obj with
  | PDict d =>
      match dict_get d (KStr key) with
      | Some v => Ret v
      | None =>
          (fix items (kvs : list (pykey * pyval)) : outcome pyval :=
             match kvs with
             | [] => Ret PNone
             | (_, v) :: kvs' =>
                 match v with
                 | PDict _ =>
                     match _findValueInNestedDict v key with
                     | Ret item => if is_None item then items kvs' else Ret item
                     | Raise e => Raise e
                     end
                 | _ => items kvs'
                 end
             end) d
      end
  | _ => Raise (not_a_dict obj key)
  end.

Definition _compareQEPs (qep1 qep2 : pyval) : pyval := JsonDiff.diff qep1 qep2.

(** [[lstOrigList[i : i + n] for i in range(0, len(lstOrigList), n)]].  The
    fuel is the length of the list: every chunk takes at least one element
    when [n] is positive. *)
Fixpoint chunks {A} (fuel n : nat) (l : list A) : list (list A) :=
  match fuel, l with
  | S fuel', _ :: _ => take n l :: chunks fuel' n (drop n l)
  | _, _ => []
  end.

Definition _convert2DArray {A} (lstOrigList : list A) (nElementsInList : nat)
    : list (list A) :=
  chunks (length lstOrigList) nElementsInList lstOrigList.

Definition cell3 : Type := nat * nat * nat.

(** [result[key].append(item)], creating the entry at the end when the key is
    new. *)
Fixpoint group_append (result : list (nat * list cell3)) (key : nat) (item : cell3)
    : list (nat * list cell3) :=
  match result with
  | [] => [(key, [item])]
  | (k, items) :: rest =>
      if (k =? key)%nat then (k, items ++ [item]) :: rest
      else (k, items) :: group_append rest key item
  end.

Definition _splitListOfTuplesByKey (items : list cell3) : list (nat * list cell3) :=
  fold_left (fun result item => group_append result (fst (fst item)) item) items [].

(** *** Selectivity ranges *)

(** [<] and [min]/[max] on tuples of three integers. *)
Definition cell3_ltb (a b : cell3) : bool :=
  let '(a0, a1, a2) := a in
  let '(b0, b1, b2) := b in
  (a0 <? b0)%nat
  || ((a0 =? b0)%nat && ((a1 <? b1)%nat || ((a1 =? b1)%nat && (a2 <? b2)%nat))).

Definition py_min (lst : list cell3) : cell3 :=
  match lst with
  | [] => (0, 0, 0)%nat
  | x :: rest => fold_left (fun m y => if cell3_ltb y m then y else m) rest x
  end.

Definition py_max (lst : list cell3) : cell3 :=
  match lst with
  | [] => (0, 0, 0)%nat
  | x :: rest => fold_left (fun m y => if cell3_ltb m y then y else m) rest x
  end.

(** [list.sort(key=lambda x: x[0])]: a stable sort on the plan number. *)
Fixpoint insert_by_plan (x : cell3) (l : list cell3) : list cell3 :=
  match l with
  | [] => [x]
  | y :: l' =>
      if (fst (fst x) <=? fst (fst y))%nat then x :: l
      else y :: insert_by_plan x l'
  end.

Definition sort_by_plan (l : list cell3) : list cell3 :=
  foldr insert_by_plan [] l.

Definition range2 : Type := (nat * nat) * (nat * nat).

Definition _retrieveSelectivityRanges (planIndexes : list nat) : list (nat * range2) :=
  let planIndexes := _convert2DArray planIndexes RESOLUTION in
  let lstSelectivityTuples :=
    concat (imap (fun rowIndex row =>
                    imap (fun colIndex col => (col, rowIndex, colIndex)) row)
                 planIndexes) in
  let lstSelectivityTuples := sort_by_plan lstSelectivityTuples in
  let temp := _splitListOfTuplesByKey lstSelectivityTuples in
  let temp := map snd temp in
  imap (fun index lst =>
          let tupleMinMaxDim1 := (snd (fst (py_min lst)), snd (fst (py_max lst))) in
          let tupleMinMaxDim2 := (snd (py_min lst), snd (py_max lst)) in
          (index + 1, (tupleMinMaxDim1, tupleMinMaxDim2))%nat) temp.

Definition generateFoundExplanation (lstPredicateAttributes : list string)
    (selectivityMap : list nat) : list string :=
  let dictSelectvityRanges := _retrieveSelectivityRanges selectivityMap in
  omap (fun kv : nat * range2 =>
          let '(key, value) := kv in
          match lstPredicateAttributes with
          | [a0] =>
              Some ("For Plan " +:+ str_nat key +:+ ", the selectivity range for " +:+ a0
                    +:+ " ranges from " +:+ str_nat (fst (snd value) * 10)
                    +:+ " % to " +:+ str_nat ((snd (snd value) + 1) * 10) +:+ " %"
                    +:+ String "010"%char EmptyString)
          | [a0; a1] =>
              Some ("For Plan " +:+ str_nat key +:+ ", the selectivity range for " +:+ a0
                    +:+ " ranges from " +:+ str_nat (fst (fst value) * 10)
                    +:+ " % to " +:+ str_nat ((snd (fst value) + 1) * 10) +:+ " %, and " +:+ a1
                    +:+ " ranges from " +:+ str_nat (fst (snd value) * 10)
                    +:+ " % to " +:+ str_nat ((snd (snd value) + 1) * 10) +:+ " %"
                    +:+ String "010"%char EmptyString)
          | _ => None
          end) dictSelectvityRanges.

(** *** Selectivity values from the histogram *)

(** [v[1:-1]] on a value. *)
Definition slice_val (v : pyval) : outcome pyval :=
  match v with
  | PStr s => Ret (PStr (slice_1_m1 s))
  | PList l => Ret (PList (take (length l - 2) (drop 1 l)))
  | PTuple l => Ret (PTuple (take (length l - 2) (drop 1 l)))
  | _ => Raise TypeError
  end.

(** [v.split(",")]. *)
Definition split_val (v : pyval) : outcome (list string) :=
  match v with
  | PStr s => Ret (split s ",")
  | _ => Raise AttributeError
  end.

(** [l[::step]] for a positive step. *)
Fixpoint every_nth_go {A} (step : nat) (l : list A) (skip : nat) : list A :=
  match l with
  | [] => []
  | x :: l' =>
      match skip with
      | O => x :: every_nth_go step l' (step - 1)
      | S k => every_nth_go step l' k
      end
  end.

Definition every_nth {A} (step : nat) (l : list A) : list A := every_nth_go step l 0.

(** [[float(item) for item in items]]. *)
Fixpoint floats (items : list string) : outcome (list pyfloat) :=
  match items with
  | [] => Ret []
  | item :: items' =>
      match float_of_str item with
      | Some x => obind (floats items') (fun xs => Ret (x :: xs))
      | None => Raise ValueError
      end
  end.

(** The loop that fills [predicateValues]. *)
Fixpoint predicate_values (n : nat) (sel step : Q) : list Q :=
  match n with
  | O => []
  | S n' => sel :: predicate_values n' (sel + step)%Q step
  end.

Definition _readHistogram (histogram : pyval) : outcome (list pyfloat * list Q) :=
  obind (getitem histogram 0) (fun row =>
  obind (getitem row 0) (fun bounds =>
  obind (slice_val bounds) (fun szHistogramValues =>
  obind (split_val szHistogramValues) (fun lstHistogramValues =>
  obind (getitem row 1) (fun mcv =>
  obind (slice_val mcv) (fun szMostCommonValues =>
  obind (split_val szMostCommonValues) (fun lstMCV =>
  obind (getitem row 2) (fun freqs =>
  obind (slice_val freqs) (fun lstFreqValues =>
  let step := (100 / RESOLUTION + 1)%nat in
  obind (floats (every_nth step lstHistogramValues)) (fun histogramValues =>
  obind (floats (every_nth step lstHistogramValues)) (fun histogramNextValues =>
  let startpoint := 0%Q in
  let endpoint := 1%Q in
  let sel := (startpoint
              + (endpoint - startpoint) / (2 * inject_Z (Z.of_nat RESOLUTION)))%Q in
  let predicateValues :=
    predicate_values RESOLUTION sel
      ((endpoint - startpoint) / inject_Z (Z.of_nat RESOLUTION))%Q in
  let selValues :=
    imap (fun index element =>
            let lowerBound := element in
            let upperBound := nth index histogramNextValues NonFinite in
            fadd (fmul (fsub upperBound lowerBound) (Finite 0.5)) lowerBound)
         histogramValues in
  Ret (selValues, predicateValues)))))))))))).

Fixpoint predicate_values_loop (objCommunicator : Postgres_Connect) (index : nat)
    (attributes : list string) (lstSelValsDimension01 lstSelValsDimension02 : list pyfloat)
    : M (list pyfloat * list pyfloat) :=
  match attributes with
  | [] => mret (lstSelValsDimension01, lstSelValsDimension02)
  | attribute :: attributes' =>
      schema <- findRelation objCommunicator attribute ;;
      histogram <- getHistogram objCommunicator schema attribute ;;
      cardinality <- getCardinality objCommunicator schema ;;
      r <- lift (_readHistogram histogram) ;;
      let selVals := fst r in
      match index with
      | 0%nat =>
          predicate_values_loop objCommunicator (S index) attributes'
            (lstSelValsDimension01 ++ selVals) lstSelValsDimension02
      | 1%nat =>
          predicate_values_loop objCommunicator (S index) attributes'
            lstSelValsDimension01 (lstSelValsDimension02 ++ selVals)
      | _ => lift (Raise SystemExit)   (* print(...); quit() *)
      end
  end.

Definition _generatePredicateValues (objCommunicator : Postgres_Connect)
    (lstPredicateAttributes : list string) : M (list pyfloat * option (list pyfloat)) :=
  r <- predicate_values_loop objCommunicator 0 lstPredicateAttributes [] [] ;;
  let '(lstSelValsDimension01, lstSelValsDimension02) := r in
  mret (lstSelValsDimension01,
        match lstSelValsDimension02 with
        | [] => None
        | _ => Some lstSelValsDimension02
        end).

(** *** Plan enumeration *)

(** The equivalence test, written inline at each of its three uses in the
    source: no ["Node Type"] found in the diff. *)
Definition similar (existingQEP qep : pyval) : outcome bool :=
  let dict_qep_difference := _compareQEPs existingQEP qep in
  obind (_findValueInNestedDict dict_qep_difference "Node Type") (fun bIsDifferentPlan =>
  Ret (is_None bIsDifferentPlan)).

(** [for i, existingQEP in enumerate(lstAllQEPs): ... break]: the plan number
    of the first similar plan, or [None] when [bAddQEPFlag] stays [True]. *)
Fixpoint first_similar (i : nat) (lstAllQEPs : list pyval) (qep : pyval)
    : outcome (option nat) :=
  match lstAllQEPs with
  | [] => Ret None
  | existingQEP :: rest =>
      obind (similar existingQEP qep) (fun b =>
      if b then Ret (Some (i + 1)%nat) else first_similar (S i) rest qep)
  end.

(** The body both enumeration loops share once [qep] is fetched. *)
Definition record_plan (first : bool) (planIndexes : list nat) (lstAllQEPs : list pyval)
    (qep : pyval) : outcome (list nat * list pyval) :=
  if first then Ret (planIndexes ++ [1%nat], lstAllQEPs ++ [qep])
  else
    obind (first_similar 0 lstAllQEPs qep) (fun found =>
    match found with
    | Some k => Ret (planIndexes ++ [k], lstAllQEPs)
    | None =>
        let lstAllQEPs := lstAllQEPs ++ [qep] in
        Ret (planIndexes ++ [length lstAllQEPs], lstAllQEPs)
    end).

(** [objCommunicator.getQEP(query)[0][0]]. *)
Definition fetch_plan (objCommunicator : Postgres_Connect) (query : string) : M pyval :=
  result <- getQEP objCommunicator query ;;
  lift (obind (getitem result 0) (fun row => getitem row 0)).

Section Enumeration.

(** [str] on a float. *)
Variable float_str : pyfloat -> string.

Fixpoint one_dimension_loop (objCommunicator : Postgres_Connect) (query : string)
    (index : nat) (lstSelValsDimension01 : list pyfloat)
    (planIndexes : list nat) (lstAllQEPs : list pyval) : M (list nat * list pyval) :=
  match lstSelValsDimension01 with
  | [] => mret (planIndexes, lstAllQEPs)
  | selectivityValue :: rest =>
      let origQuery := query in
      let query := replace1 query PREDICATE_TOKEN ("<= " +:+ float_str selectivityValue) in
      qep <- fetch_plan objCommunicator query ;;
      r <- lift (record_plan (index =? 0)%nat planIndexes lstAllQEPs qep) ;;
      let query := origQuery in
      one_dimension_loop objCommunicator query (S index) rest (fst r) (snd r)
  end.

Definition _retrieveQEPs_OneDimension (query : string) (lstSelValsDimension01 : list pyfloat)
    (objCommunicator : Postgres_Connect) : M (list nat * list pyval) :=
  one_dimension_loop objCommunicator query 0 lstSelValsDimension01 [] [].

Fixpoint inner_loop (objCommunicator : Postgres_Connect) (query : string)
    (index : nat) (selectivityValue : pyfloat)
    (index2 : nat) (lstSelValsDimension02 : list pyfloat)
    (planIndexes : list nat) (lstAllQEPs : list pyval) : M (list nat * list pyval) :=
  match lstSelValsDimension02 with
  | [] => mret (planIndexes, lstAllQEPs)
  | selectivityValue2 :: rest =>
      let origQuery := query in
      let query := replace1 query PREDICATE_TOKEN ("<= " +:+ float_str selectivityValue) in
      let query := replace1 query PREDICATE_TOKEN ("<= " +:+ float_str selectivityValue2) in
      qep <- fetch_plan objCommunicator query ;;
      r <- lift (record_plan ((index =? 0)%nat && (index2 =? 0)%nat)
                   planIndexes lstAllQEPs qep) ;;
      let query := origQuery in
      inner_loop objCommunicator query index selectivityValue (S index2) rest (fst r) (snd r)
  end.

Fixpoint two_dimensions_loop (objCommunicator : Postgres_Connect) (query : string)
    (index : nat) (lstSelValsDimension01 lstSelValsDimension02 : list pyfloat)
    (planIndexes : list nat) (lstAllQEPs : list pyval) : M (list nat * list pyval) :=
  match lstSelValsDimension01 with
  | [] => mret (planIndexes, lstAllQEPs)
  | selectivityValue :: rest =>
      r <- inner_loop objCommunicator query index selectivityValue
             0 lstSelValsDimension02 planIndexes lstAllQEPs ;;
      two_dimensions_loop objCommunicator query (S index) rest lstSelValsDimension02
        (fst r) (snd r)
  end.

Definition _retrieveQEPs_TwoDimensions (query : string)
    (lstSelValsDimension01 lstSelValsDimension02 : list pyfloat)
    (objCommunicator : Postgres_Connect) : M (list nat * list pyval) :=
  two_dimensions_loop objCommunicator query 0 lstSelValsDimension01 lstSelValsDimension02
    [] [].

End Enumeration.

(** *** Query template *)

(** What [_convertToQueryTemplate] returns: [(RET_CONVERT_QUERY_ERR, None)] or
    [(RET_CONVERT_QUERY_OK, lstPredicateAttributes, templateQuery)]. *)
Inductive convert_result : Type :=
| ConvertErr
| ConvertOk (lstPredicateAttributes : list string) (templateQuery : string).

Definition convert_status (r : convert_result) : nat :=
  match r with
  | ConvertErr => RET_CONVERT_QUERY_ERR
  | ConvertOk _ _ => RET_CONVERT_QUERY_OK
  end.

(** The first loop: clauses whose right-hand side is not a number are noted
    for removal, and the attributes equal to their left-hand side dropped. *)
Fixpoint drop_non_numeric (clauses_list lstClausesToBeRemoved lstPredicateAttributes : list string)
    : outcome (list string * list string) :=
  match clauses_list with
  | [] => Ret (lstClausesToBeRemoved, lstPredicateAttributes)
  | clause :: rest =>
      let lstCondAndPred := re_split_comparison clause in
      match lstCondAndPred !! 1%nat with
      | None => Raise IndexError
      | Some rhs =>
          let testPredicate := re_sub_non_word rhs in
          match float_of_str testPredicate with
          | Some fVal => drop_non_numeric rest lstClausesToBeRemoved lstPredicateAttributes
          | None =>
              let lhs := strip (nth 0 lstCondAndPred EmptyString) in
              drop_non_numeric rest (lstClausesToBeRemoved ++ [clause])
                (List.filter (fun value => negb (String.eqb value lhs)) lstPredicateAttributes)
          end
      end
  end.

(** [attribute.split(".")[-1]] when the attribute holds a dot. *)
Definition bare_attribute (attribute : string) : string :=
  if contains "." attribute then List.last (split attribute ".") EmptyString else attribute.

(** The last loop: each remaining clause is replaced by its token. *)
Fixpoint replace_clauses (query : string) (index : nat) (clauses_list : list string)
    (lstPredicateAttributes : list string) : outcome string :=
  match clauses_list with
  | [] => Ret query
  | clause :: rest =>
      match lstPredicateAttributes !! index with
      | None => Raise IndexError
      | Some attribute =>
          replace_clauses (replace query clause (attribute +:+ PREDICATE_TOKEN))
            (S index) rest lstPredicateAttributes
      end
  end.

Section Processor.

(** [get_predicates_conditions.get_var_column], which walks the parse tree
    sqlparse builds: the identifiers of the comparisons found, and the texts
    of those comparisons. *)
Variable get_var_column : string -> list string * list string.

Variable float_str : pyfloat -> string.

Definition _convertToQueryTemplate (query : string) : outcome convert_result :=
  let '(lstPredicateAttributes, clauses_list) := get_var_column query in
  obind (drop_non_numeric clauses_list [] lstPredicateAttributes) (fun r =>
  let '(lstClausesToBeRemoved, lstPredicateAttributes) := r in
  let clauses_list :=
    List.filter (fun x => negb (existsb (String.eqb x) lstClausesToBeRemoved)) clauses_list in
  let lstPredicateAttributes := map bare_attribute lstPredicateAttributes in
  match lstPredicateAttributes with
  | [] => Ret ConvertErr
  | _ =>
      obind (replace_clauses query 0 clauses_list lstPredicateAttributes) (fun templateQuery =>
      Ret (ConvertOk lstPredicateAttributes templateQuery))
  end).

(** What [processQuery] returns: [(RET_CONVERT_QUERY_ERR, None)] or
    [(RET_ALL_QEPS, lstAllQEPs, lstPredicateAttributes, selectivityMap)]. *)
Inductive process_result : Type :=
| ProcessConvertErr
| ProcessAllQEPs (lstAllQEPs : list pyval) (lstPredicateAttributes : list string)
    (selectivityMap : list nat).

Definition process_status (r : process_result) : nat :=
  match r with
  | ProcessConvertErr => RET_CONVERT_QUERY_ERR
  | ProcessAllQEPs _ _ _ => RET_ALL_QEPS
  end.

Definition processQuery (query : string) (Communicator : Postgres_Connect)
    : M process_result :=
  result <- lift (_convertToQueryTemplate query) ;;
  match result with
  | ConvertErr => mret ProcessConvertErr
  | ConvertOk lstPredicateAttributes templateQuery =>
      dims <- _generatePredicateValues Communicator lstPredicateAttributes ;;
      let '(lstSelValsDimension01, lstSelValsDimension02) := dims in
      r <- match lstSelValsDimension02 with
           | None =>
               _retrieveQEPs_OneDimension float_str templateQuery lstSelValsDimension01
                 Communicator
           | Some lstSelValsDimension02 =>
               _retrieveQEPs_TwoDimensions float_str templateQuery lstSelValsDimension01
                 lstSelValsDimension02 Communicator
           end ;;
      let '(selectivityMap, lstAllQEPs) := r in
      mret (ProcessAllQEPs lstAllQEPs lstPredicateAttributes selectivityMap)
  end.

End Processor.

Definition getActualQEP (query : string) (objCommunicator : Postgres_Connect)
    : M (nat * pyval) :=
  actualQEP <- fetch_plan objCommunicator query ;;
  mret (RET_ONLY_ACTUAL_QEP, actualQEP).

Definition compareActualQEP (actualQEP : pyval) (lstAllQEPs : list pyval)
    : outcome (nat * option nat) :=
  obind (first_similar 0 lstAllQEPs actualQEP) (fun found =>
  match found with
  | Some actualPlanIndex => Ret (RET_QEP_FOUND, Some actualPlanIndex)
  | None => Ret (RET_QEP_NOT_FOUND, None)
  end).

End QepProcessor.

(** ** query_plan_visualizer.py *)

Module QueryPlanVisualizer.
Import PyStr.

(** [round(x)] to the nearest integer, ties to the even one. *)
Definition round_half_even (x : Q) : Z :=
  let f := Qfloor x in
  match (x - inject_Z f ?= 1 # 2)%Q with
  | Lt => f
  | Gt => (f + 1)%Z
  | Eq => if Z.even f then f else (f + 1)%Z
  end.

(** [round(x, 2)]. *)
Definition round2 (x : Q) : Q := (inject_Z (round_half_even (x * 100)) / 100)%Q.

(** [max(x, 0)]: [0] when [0 > x], else [x]. *)
Definition max0 (x : Q) : Q := if Qle_bool 0 x then x else 0%Q.

(** The class [Cost]: a float that is never negative, kept to 2 d.p. *)
Definition Cost (x : Q) : Q :=
  let x := max0 x in   (* cost can never be negative *)
  let x := round2 x in (* set to 2 d.p. for easy representation *)
  x.

(** A plan node: the keys of the engine's dictionary that the visualiser
    reads (['Node Type'], ['Total Cost'], ['Plans']) and the two it adds
    (['id'], ['cost']), absent until [_generate_ids_and_cost] has run. *)
#[local] Unset Elimination Schemes.
Inductive plan : Type := mkPlan {
  node_type : string;
  total_cost : Q;
  id : option string;
  cost : option Q;
  plans : list plan
}.
#[local] Set Elimination Schemes.

Fixpoint _generate_ids_and_cost (current_plan : plan) (name_counter : gmap string nat)
    {struct current_plan} : plan * gmap string nat :=
  match current_plan with
  | mkPlan current_plan_name total _ _ children_plans =>
      (* increment is used to prevent duplicate names *)
      let current_name_increment := default 1%nat (name_counter !! current_plan_name) in
      let new_id := current_plan_name +:+ "_" +:+ str_nat current_name_increment in
      let name_counter := <[current_plan_name := (current_name_increment + 1)%nat]> name_counter in
      (* traverse children plans and do the same *)
      let '(children, children_costs, name_counter) :=
        (fix children_loop (cs : list plan) (children_costs : Q) (nc : gmap string nat)
           : list plan * Q * gmap string nat :=
           match cs with
           | [] => ([], children_costs, nc)
           | child_plan :: cs' =>
               let '(child_plan, nc) := _generate_ids_and_cost child_plan nc in
               let children_costs := (children_costs + Cost (total_cost child_plan))%Q in
               let '(rest, children_costs, nc) := children_loop cs' children_costs nc in
               (child_plan :: rest, children_costs, nc)
           end) children_plans 0%Q name_counter in
      let current_plan_cost := (total - children_costs)%Q in
      (mkPlan current_plan_name total (Some new_id) (Some (Cost current_plan_cost)) children,
       name_counter)
  end.

(** A call without [name_counter] starts from an empty dictionary. *)
Definition annotate (current_plan : plan) : plan :=
  fst (_generate_ids_and_cost current_plan ∅).

(** The nodes of a plan in pre-order. *)
Fixpoint nodes (p : plan) : list plan :=
  p :: (fix over (cs : list plan) : list plan :=
          match cs with
          | [] => []
          | c :: cs' => nodes c ++ over cs'
          end) (plans p).

End QueryPlanVisualizer.

(** ** get_predicates_conditions.py

    [sqlparse.parse] is an oracle: the tree it builds for a query.  A node of
    the tree has a class, a text and, when it is a group, sub-tokens; a leaf
    has no [tokens] attribute. *)

Module GetPredicatesConditions.
Import PyStr.

#[local] Unset Elimination Schemes.
Inductive token : Type :=
| Token (class_name : string) (value : string) (tokens : option (list token)).
#[local] Set Elimination Schemes.

Definition class_name (t : token) : string := match t with Token c _ _ => c end.
Definition value (t : token) : string := match t with Token _ v _ => v end.
Definition tokens (t : token) : option (list token) := match t with Token _ _ ts => ts end.

(** [type(token).__name__.lower()] *)
Definition get_token_type (token : token) : string := lower_str (class_name token).

Definition clauses_to_search : list string := ["where"; "on"; "group by"; "order by"].
Definition comparisons_to_find : list string := ["<"; "<="; ">"; ">="; "!="].

(** [s in l] for a list of strings. *)
Definition in_list (s : string) (l : list string) : bool := existsb (String.eqb s) l.

(** [node.tokens] *)
Definition tokens_of (node : token) : outcome (list token) :=
  match tokens node with
  | Some l => Ret l
  | None => Raise AttributeError
  end.

(** The loop over the tokens of one comparison. *)
Fixpoint keep_tokens (tokens_in_comparison : list token) (string_to_keep : string)
    (columns_to_get : list string) : string * list string :=
  match tokens_in_comparison with
  | [] => (string_to_keep, columns_to_get)
  | token_in_comparison :: rest =>
      let string_to_keep := string_to_keep +:+ value token_in_comparison in
      let columns_to_get :=
        if String.eqb (get_token_type token_in_comparison) "identifier"
        then columns_to_get ++ [value token_in_comparison]
        else columns_to_get in
      keep_tokens rest string_to_keep columns_to_get
  end.

(** The loop over the comparisons of a clause. *)
Fixpoint comparisons_loop (comparisons : list token)
    (columns_to_get clauses_to_change : list string) : outcome (list string * list string) :=
  match comparisons with
  | [] => Ret (columns_to_get, clauses_to_change)
  | comparison :: rest =>
      obind (tokens_of comparison) (fun tokens_in_comparison =>
      let values_of_tokens := map value tokens_in_comparison in
      if existsb (fun v => in_list v comparisons_to_find) values_of_tokens
      then
        let '(string_to_keep, columns_to_get) :=
          keep_tokens tokens_in_comparison "" columns_to_get in
        comparisons_loop rest columns_to_get (clauses_to_change ++ [string_to_keep])
      else comparisons_loop rest columns_to_get clauses_to_change)
  end.

(** The two lists are changed in place; here they are passed on. *)
Fixpoint get_tokens (node : token) (columns_to_get clauses_to_change : list string)
    {struct node} : outcome (list string * list string) :=
  match node with
  | Token cls _ toks =>
      let current_token_type := lower_str cls in
      obind (if in_list current_token_type clauses_to_search
             then
               match toks with
               | Some l =>
                   let comparisons :=
                     List.filter (fun token => String.eqb (get_token_type token) "comparison") l in
                   comparisons_loop comparisons columns_to_get clauses_to_change
               | None => Raise AttributeError
               end
             else Ret (columns_to_get, clauses_to_change)) (fun r =>
      match toks with
      | Some l =>
          (fix sub_tokens (l : list token) (columns_to_get clauses_to_change : list string)
             : outcome (list string * list string) :=
             match l with
             | [] => Ret (columns_to_get, clauses_to_change)
             | sub_token :: rest =>
                 if in_list (lower_str (get_token_type sub_token)) clauses_to_search
                 then obind (get_tokens sub_token columns_to_get clauses_to_change) (fun r =>
                      sub_tokens rest (fst r) (snd r))
                 else sub_tokens rest columns_to_get clauses_to_change
             end) l (fst r) (snd r)
      | None => Raise AttributeError
      end)
  end.

Section Parser.

(** [sqlparse.parse]: the statements of a text. *)
Variable parse : string -> list token.

Definition get_var_column (query : string) : outcome (list string * list string) :=
  match parse query with
  | parsed_query :: _ => get_tokens parsed_query [] []
  | [] => Raise IndexError
  end.

End Parser.

End GetPredicatesConditions.

(** ** Reference definitions and sample inputs *)

Module Samples.
Import PyStr QepProcessor.

(** *** The bounding box of a plan in the grid *)

(** The (row, column) cells of the reshaped grid that hold plan [k]. *)
Definition cells_of (grid : list (list nat)) (k : nat) : list (nat * nat) :=
  concat (imap (fun r row =>
                  omap (fun x => x)
                    (imap (fun c p => if (p =? k)%nat then Some (r, c) else None) row))
               grid).

Definition minimum (l : list nat) : nat :=
  match l with
  | [] => 0%nat
  | x :: rest => foldr Nat.min x rest
  end.

Definition maximum (l : list nat) : nat := foldr Nat.max 0%nat l.

Definition bounding_box (planIndexes : list nat) (k : nat) : option range2 :=
  match cells_of (_convert2DArray planIndexes RESOLUTION) k with
  | [] => None
  | cs => Some ((minimum (map fst cs), maximum (map fst cs)),
                (minimum (map snd cs), maximum (map snd cs)))
  end.

(** The percentage range [[bound * 10, (bound + 1) * 10)] of a bound pair. *)
Definition percent_range (b : nat * nat) : nat * nat :=
  ((fst b * 10)%nat, ((snd b + 1) * 10)%nat).

(** A 1 x 10 row: cells 0-3 hold plan 1, cells 4-9 hold plan 2. *)
Definition row_1x10 : list nat := [1; 1; 1; 1; 2; 2; 2; 2; 2; 2]%nat.

(** A 10 x 10 grid, row-major.  Row 0 switches from plan 1 to plan 2 at
    column 5, rows 1-9 switch at column 2. *)
Definition grid_10x10 : list nat :=
  [1; 1; 1; 1; 1; 2; 2; 2; 2; 2]%nat
  ++ concat (repeat [1; 1; 2; 2; 2; 2; 2; 2; 2; 2]%nat 9).

(** *** Histogram bounds and their bucket midpoints *)

Fixpoint join (sep : string) (l : list string) : string :=
  match l with
  | [] => EmptyString
  | [x] => x
  | x :: rest => x +:+ sep +:+ join sep rest
  end.

(** The text ["{0,1,2,...,100}"]: 101 bounds, as pg_stats gives for a column
    with the default statistics target. *)
Definition bounds_text_101 : string :=
  "{" +:+ join "," (map str_nat (seq 0 101)) +:+ "}".

(** One row of pg_stats: histogram_bounds, most_common_vals,
    most_common_freqs. *)
Definition histogram_101 : pyval :=
  PList [PTuple [PStr bounds_text_101; PStr "{1,2}"; PList [PNum 0.3; PNum 0.2]]].

(** The midpoint between each retained bound and its successor in the bound
    list; a retained bound that is the last one has no successor. *)
Fixpoint bucket_midpoints_go (step : nat) (bounds : list Q) (skip : nat) : list Q :=
  match bounds with
  | [] => []
  | b :: rest =>
      match skip with
      | O =>
          match rest with
          | next :: _ => ((b + next) / 2)%Q :: bucket_midpoints_go step rest (step - 1)
          | [] => []
          end
      | S k => bucket_midpoints_go step rest k
      end
  end.

Definition bucket_midpoints (step : nat) (bounds : list Q) : list Q :=
  bucket_midpoints_go step bounds 0.

(** Two floats that stand for the same number. *)
Definition same_float (a b : pyfloat) : bool :=
  match a, b with
  | Finite x, Finite y => Qeq_bool x y
  | NonFinite, NonFinite => true
  | _, _ => false
  end.

Fixpoint same_floats (l1 l2 : list pyfloat) : bool :=
  match l1, l2 with
  | [], [] => true
  | a :: l1', b :: l2' => same_float a b && same_floats l1' l2'
  | _, _ => false
  end.

Definition bounds_101 : list Q := map (fun n => inject_Z (Z.of_nat n)) (seq 0 101).

(** *** A database for the examples *)

(** [str] on a float, for the floats of the examples: an integer value [n]
    prints as ["n.0"], as Python prints it. *)
Definition float_str_int (x : pyfloat) : string :=
  match x with
  | Finite q =>
      let r := Qred q in
      (if (Qnum r <? 0)%Z then "-" else "") +:+ str_nat (Z.to_nat (Z.abs (Qnum r)))
      +:+ (if Pos.eqb (Qden r) 1 then ".0" else "/" +:+ str_nat (Pos.to_nat (Qden r)))
  | NonFinite => "nan"
  end.

Definition num (z : Z) : pyval := PNum (inject_Z z).

Definition seq_scan (cost rows : Z) : pyval :=
  PDict [(KStr "Node Type", PStr "Seq Scan"); (KStr "Relation Name", PStr "lineitem");
         (KStr "Total Cost", num cost); (KStr "Plan Rows", num rows)].

Definition index_scan (cost rows : Z) : pyval :=
  PDict [(KStr "Node Type", PStr "Index Scan"); (KStr "Relation Name", PStr "lineitem");
         (KStr "Total Cost", num cost); (KStr "Plan Rows", num rows)].

(** The JSON document of EXPLAIN: a list holding one object with the plan. *)
Definition qep_of (p : pyval) : pyval := PList [PDict [(KStr "Plan", p)]].

(** What [fetchall] gives for EXPLAIN: one row with one column. *)
Definition rows_of (qep : pyval) : pyval := PList [PTuple [qep]].

(** An engine that answers an index scan up to the threshold 33 and a
    sequential scan above it. *)
Definition explain_switch (query : string) : outcome pyval :=
  if contains "<= 0.0" query || contains "<= 11.0" query
     || contains "<= 22.0" query || contains "<= 33.0" query
  then Ret (rows_of (qep_of (index_scan 40 100)))
  else Ret (rows_of (qep_of (seq_scan 90 5000))).

Definition stats_cursor (explain : string -> outcome pyval) : Cursor :=
  {| explain := explain;
     pg_stats := fun _ _ => Ret histogram_101;
     pg_class_reltuples := fun _ => Ret (PList [PTuple [num 6000000]]);
     pg_attribute_relname := fun _ => Ret (PList [PTuple [PStr "lineitem"]]) |}.

Definition db_switch : Postgres_Connect := {| cur := Some (stats_cursor explain_switch) |}.

(** The same engine, failing on one threshold. *)
Definition explain_failing_at (bad : string) (query : string) : outcome pyval :=
  if contains bad query then Raise ValueError else explain_switch query.

Definition db_failing_at (bad : string) : Postgres_Connect :=
  {| cur := Some (stats_cursor (explain_failing_at bad)) |}.

Definition selvals_10 : list pyfloat :=
  map (fun n => Finite (inject_Z (Z.of_nat n))) [0; 11; 22; 33; 44; 55; 66; 77; 88; 99]%nat.

(** *** Queries and what the extractor finds in them *)

Definition query_quantity : string := "SELECT * FROM lineitem WHERE l_quantity < 30".
Definition template_quantity : string := "SELECT * FROM lineitem WHERE l_quantity :varies".

Definition query_two_columns : string := "SELECT * FROM lineitem WHERE l_tax < l_discount".

Definition query_shipdate : string :=
  "SELECT * FROM lineitem WHERE l_shipdate < '1995-01-01'".

Definition query_three : string :=
  "SELECT * FROM lineitem WHERE l_quantity < 30 AND l_tax < 1 AND l_discount < 2".

(** [get_var_column] on the queries above: every identifier of a comparison,
    and the text of every comparison. *)
Definition get_var_column_sample (query : string) : list string * list string :=
  if String.eqb query query_quantity then (["l_quantity"], ["l_quantity < 30"])
  else if String.eqb query query_two_columns
  then (["l_tax"; "l_discount"], ["l_tax < l_discount"])
  else if String.eqb query query_shipdate
  then (["l_shipdate"], ["l_shipdate < '1995-01-01'"])
  else if String.eqb query query_three
  then (["l_quantity"; "l_tax"; "l_discount"],
        ["l_quantity < 30"; "l_tax < 1"; "l_discount < 2"])
  else ([], []).

(** *** Ways a request can end *)

(** The request is given up with an exception the caller can handle, the
    process going on. *)
Definition clean_abort {A} (o : outcome A) : Prop :=
  exists e, o = Raise e /\ e <> SystemExit.

Definition is_getQEP (ev : event) : bool :=
  match ev with EvGetQEP _ => true | _ => false end.

(** The statistics of an attribute can be read and parsed. *)
Definition stats_ok (comm : Postgres_Connect) (attribute : string) : Prop :=
  exists schema histogram cardinality r,
    fst (findRelation comm attribute) = Ret schema
    /\ fst (getHistogram comm schema attribute) = Ret histogram
    /\ fst (getCardinality comm schema) = Ret cardinality
    /\ _readHistogram histogram = Ret r.

End Samples.

(** ** Enumeration: reference definitions *)

Module EnumerationSpec.
Import PyStr QepProcessor.

(** [assigned D q k D']: with the distinct plans [D] found so far, the plan
    [q] of a point gets the number [k] and leaves the distinct plans [D'].
    Either [k] is the place of the first member of [D] judged equivalent to
    [q] (every earlier member is judged different), or no member is
    equivalent and [q] becomes the new last member. *)
Inductive assigned (D : list pyval) (q : pyval) : nat -> list pyval -> Prop :=
| assigned_first_match (i : nat) (m : pyval) :
    D !! i = Some m ->
    similar m q = Ret true ->
    (forall j m', (j < i)%nat -> D !! j = Some m' -> similar m' q = Ret false) ->
    assigned D q (S i) D
| assigned_new :
    (forall m, In m D -> similar m q = Ret false) ->
    assigned D q (S (length D)) (D ++ [q]).

(** The points after the first one, taken in order. *)
Inductive steps : list pyval -> list nat * list pyval -> list nat * list pyval -> Prop :=
| steps_done st : steps [] st st
| steps_point q qs planIndexes D k D' st :
    assigned D q k D' ->
    steps qs (planIndexes ++ [k], D') st ->
    steps (q :: qs) (planIndexes, D) st.

(** [enumerated qs planIndexes D]: the plans [qs] of the sampled points, in
    sampling order, give the grid [planIndexes] and the distinct plans [D].
    The first point seeds [D] and has number 1. *)
Definition enumerated (qs : list pyval) (planIndexes : list nat) (D : list pyval) : Prop :=
  match qs with
  | [] => planIndexes = [] /\ D = []
  | q :: qs' => steps qs' ([1%nat], [q]) (planIndexes, D)
  end.

Section Queries.
Variable float_str : pyfloat -> string.

(** The query sent for a point of the one-dimensional grid. *)
Definition query_1d (query : string) (v : pyfloat) : string :=
  replace1 query PREDICATE_TOKEN ("<= " +:+ float_str v).

(** The query sent for a point of the two-dimensional grid. *)
Definition query_2d (query : string) (v1 v2 : pyfloat) : string :=
  replace1 (replace1 query PREDICATE_TOKEN ("<= " +:+ float_str v1))
    PREDICATE_TOKEN ("<= " +:+ float_str v2).

Definition queries_1d (query : string) (vals : list pyfloat) : list string :=
  map (query_1d query) vals.

(** Row-major: the first dimension outside, the second inside. *)
Definition queries_2d (query : string) (vals1 vals2 : list pyfloat) : list string :=
  concat (map (fun v1 => map (query_2d query v1) vals2) vals1).

End Queries.

(** The plan the engine gives for a query, or the exception raised on the
    way to it. *)
Definition fetched (objCommunicator : Postgres_Connect) (query : string) : outcome pyval :=
  fst (fetch_plan objCommunicator query).

(** Both loops, seen as one loop over the queries they send; [first] tells
    whether the next point is the first of the grid. *)
Fixpoint enumerate (objCommunicator : Postgres_Connect) (first : bool)
    (queries : list string) (planIndexes : list nat) (lstAllQEPs : list pyval)
    : M (list nat * list pyval) :=
  match queries with
  | [] => mret (planIndexes, lstAllQEPs)
  | query :: rest =>
      qep <- fetch_plan objCommunicator query ;;
      r <- lift (record_plan first planIndexes lstAllQEPs qep) ;;
      enumerate objCommunicator false rest (fst r) (snd r)
  end.

(** The round trips a connected communicator makes for a list of queries. *)
Definition round_trips (queries : list string) : list event := map EvGetQEP queries.

Section Dispatch.
Variable float_str : pyfloat -> string.

(** The enumeration as [processQuery] starts it: one dimension when the
    second list of values is [None], two dimensions otherwise. *)
Definition enumeration (templateQuery : string) (lstSelValsDimension01 : list pyfloat)
    (lstSelValsDimension02 : option (list pyfloat)) (Communicator : Postgres_Connect)
    : M (list nat * list pyval) :=
  match lstSelValsDimension02 with
  | None => _retrieveQEPs_OneDimension float_str templateQuery lstSelValsDimension01 Communicator
  | Some lstSelValsDimension02 =>
      _retrieveQEPs_TwoDimensions float_str templateQuery lstSelValsDimension01
        lstSelValsDimension02 Communicator
  end.

(** The queries of the sampled points, in sampling order. *)
Definition queries (query : string) (vals1 : list pyfloat) (vals2 : option (list pyfloat))
    : list string :=
  match vals2 with
  | None => queries_1d float_str query vals1
  | Some vals2 => queries_2d float_str query vals1 vals2
  end.

End Dispatch.

(** The number of sampled points. *)
Definition sampled_points (vals1 : list pyfloat) (vals2 : option (list pyfloat)) : nat :=
  match vals2 with
  | None => length vals1
  | Some vals2 => (length vals1 * length vals2)%nat
  end.

(** The grid has one entry per point, every entry numbers a distinct plan,
    and every distinct plan is the entry of some point. *)
Definition grid_ok (n : nat) (st : list nat * list pyval) : Prop :=
  length (fst st) = n
  /\ Forall (fun k => (1 <= k <= length (snd st))%nat) (fst st)
  /\ forall k, (1 <= k <= length (snd st))%nat -> In k (fst st).

(** A trace that holds no plan request. *)
Definition no_getQEP (t : list event) : Prop := forallb (fun ev => negb (Samples.is_getQEP ev)) t = true.

End EnumerationSpec.

(** ** Plan tree: reference definitions *)

Module PlanTreeSpec.
Import PyStr QueryPlanVisualizer.

(** The loop over the children in [_generate_ids_and_cost], by itself. *)
Fixpoint children_loop (cs : list plan) (children_costs : Q) (nc : gmap string nat)
    : list plan * Q * gmap string nat :=
  match cs with
  | [] => ([], children_costs, nc)
  | child_plan :: cs' =>
      let '(child_plan, nc) := _generate_ids_and_cost child_plan nc in
      let children_costs := (children_costs + Cost (total_cost child_plan))%Q in
      let '(rest, children_costs, nc) := children_loop cs' children_costs nc in
      (child_plan :: rest, children_costs, nc)
  end.

(** The identifier ["{kind}_{k}"]. *)
Definition label (kind : string) (k : nat) : string := kind +:+ "_" +:+ str_nat k.

(** How often [kind] occurs in a list of kinds. *)
Definition occurrences (kind : string) (l : list string) : nat :=
  length (List.filter (String.eqb kind) l).

(** The identifiers a list of kinds gets when each kind is counted from 1 on
    its own, in the order of the list: the kind at place [i] is numbered one
    more than the times it occurs before place [i]. *)
Definition numbered (kinds : list string) : list string :=
  imap (fun i kind => label kind (1 + occurrences kind (take i kinds))) kinds.

Definition kinds (p : plan) : list string := map node_type (nodes p).
Definition ids (p : plan) : list (option string) := map id (nodes p).

(** The counter after one more node of a kind. *)
Definition bump (nc : gmap string nat) (kind : string) : gmap string nat :=
  <[kind := (default 1%nat (nc !! kind) + 1)%nat]> nc.

(** The identifiers given from a counter on, the counter being threaded. *)
Fixpoint labels_from (nc : gmap string nat) (ks : list string) : list string :=
  match ks with
  | [] => []
  | kind :: ks' => label kind (default 1%nat (nc !! kind)) :: labels_from (bump nc kind) ks'
  end.

Definition counter_after (nc : gmap string nat) (ks : list string) : gmap string nat :=
  fold_left bump ks nc.

Fixpoint has_char (c : ascii) (s : string) : bool :=
  match s with
  | EmptyString => false
  | String a s' => Ascii.eqb a c || has_char c s'
  end.

Definition qsum (l : list Q) : Q := foldr Qplus 0%Q l.

(** The children's total costs as [_generate_ids_and_cost] adds them up:
    each one as a [Cost], from left to right. *)
Definition children_costs (cs : list plan) : Q :=
  fold_left (fun acc c => (acc + Cost (total_cost c))%Q) cs 0%Q.

(** A cost with at most two decimals that is not negative, as the engine
    prints costs. *)
Definition printed_cost (x : Q) : Prop :=
  (0 <= x)%Q /\ exists n : Z, (x == inject_Z n / 100)%Q.

(** Aggregate (30) over Sort (20) over Seq Scan (10). *)
Definition plan_depth3 : plan :=
  mkPlan "Aggregate" 30 None None
    [mkPlan "Sort" 20 None None [mkPlan "Seq Scan" 10 None None []]].

(** Hash Join over a Seq Scan and a Hash of a Seq Scan. *)
Definition plan_join : plan :=
  mkPlan "Hash Join" 30 None None
    [mkPlan "Seq Scan" 10 None None [];
     mkPlan "Hash" 15 None None [mkPlan "Seq Scan" 12.5 None None []]].

End PlanTreeSpec.

(** ** Plan equivalence: reference definitions *)

Module EquivalenceSpec.
Import PyStr QepProcessor Samples.

(** [found_in key obj v]: the entry [key: v], with [v] not [None], is the
    one the search of [_findValueInNestedDict] comes to.  The search looks at
    the keys of a dictionary and, when [key] is not among them, into those of
    its values that are dictionaries; it never looks into a list or a tuple. *)
Inductive found_in (key : string) : pyval -> pyval -> Prop :=
| found_here d v :
    dict_get d (KStr key) = Some v -> v <> PNone -> found_in key (PDict d) v
| found_below d k d' v :
    dict_get d (KStr key) = None -> In (k, PDict d') d ->
    found_in key (PDict d') v -> found_in key (PDict d) v.

Definition is_dict (v : pyval) : Prop := exists d, v = PDict d.

(** The inner loop of [_findValueInNestedDict], by itself. *)
Definition scan_items (key : string) : list (pykey * pyval) -> outcome pyval :=
  fix items (kvs : list (pykey * pyval)) : outcome pyval :=
    match kvs with
    | [] => Ret PNone
    | (_, v) :: kvs' =>
        match v with
        | PDict _ =>
            match _findValueInNestedDict v key with
            | Ret item => if is_None item then items kvs' else Ret item
            | Raise e => Raise e
            end
        | _ => items kvs'
        end
    end.

(** Every operator kind written anywhere in a document, lists and tuples
    included. *)
Fixpoint operator_kinds (v : pyval) : list string :=
  match v with
  | PDict d =>
      (fix entries (kvs : list (pykey * pyval)) : list string :=
         match kvs with
         | [] => []
         | (k, x) :: kvs' =>
             (if key_eqb k (KStr "Node Type")
              then match x with PStr s => [s] | _ => [] end
              else operator_kinds x) ++ entries kvs'
         end) d
  | PList l | PTuple l =>
      (fix elements (xs : list pyval) : list string :=
         match xs with
         | [] => []
         | x :: xs' => operator_kinds x ++ elements xs'
         end) l
  | _ => []
  end.

(** The first loop of [_dict_diff] and the score table of [_list_diff], by
    themselves. *)
Definition report_of (da db : list (pykey * pyval)) : list JsonDiff.key_report :=
  map (fun kv : pykey * pyval =>
         (fst kv, snd kv,
          match dict_get db (fst kv) with
          | Some w => Some (JsonDiff.obj_diff (snd kv) w)
          | None => None
          end)) da.

Definition table_of (xa xb : list pyval) : list (list (pyval * Q)) :=
  map (fun x => map (JsonDiff.obj_diff x) xb) xa.

(** A similarity score lies between 0 and 1. *)
Definition unit_score (s : Q) : Prop := (0 <= s <= 1)%Q.

Definition report_unit (x : JsonDiff.key_report) : Prop :=
  match snd x with
  | Some (_, s) => unit_score s
  | None => True
  end.

Definition edit_unit (e : JsonDiff.edit) : Prop :=
  match e with
  | JsonDiff.Same _ _ s => unit_score s
  | _ => True
  end.

Definition is_same (e : JsonDiff.edit) : bool :=
  match e with JsonDiff.Same _ _ _ => true | _ => false end.

Definition sames (r : list JsonDiff.edit) : nat := length (List.filter is_same r).

Definition qnat (n : nat) : Q := inject_Z (Z.of_nat n).

Definition scan_on (table : string) (kind : string) (cost rows : Z) : pyval :=
  PDict [(KStr "Node Type", PStr kind); (KStr "Relation Name", PStr table);
         (KStr "Total Cost", num cost); (KStr "Plan Rows", num rows)].

Definition append_of (cost rows : Z) (children : list pyval) : pyval :=
  PDict [(KStr "Node Type", PStr "Append"); (KStr "Total Cost", num cost);
         (KStr "Plan Rows", num rows); (KStr "Plans", PList children)].

(** An Append over two partitions read sequentially. *)
Definition qep_append2 : pyval :=
  qep_of (append_of 200 2000
            [scan_on "orders_2019" "Seq Scan" 100 1000;
             scan_on "orders_2020" "Seq Scan" 100 1000]).

(** The same Append with a third partition, read through an index. *)
Definition qep_append3 : pyval :=
  qep_of (append_of 200 2000
            [scan_on "orders_2019" "Seq Scan" 100 1000;
             scan_on "orders_2020" "Seq Scan" 100 1000;
             scan_on "orders_2021" "Index Scan" 8 10]).

(** What one key of a report adds to the similarity of two dictionaries. *)
Definition smatched_step (acc : Q) (x : JsonDiff.key_report) : Q :=
  match x with
  | (_, _, Some (_, s)) => (acc + (0.5 + 0.5 * s))%Q
  | _ => acc
  end.

(** *** Values a Python program can hold *)

(** No dictionary holds a key twice, at any depth: true of every Python
    value, and what an association list needs to stand for one. *)
Fixpoint keys_distinct (v : pyval) : bool :=
  match v with
  | PDict d =>
      (fix entries (kvs : list (pykey * pyval)) : bool :=
         match kvs with
         | [] => true
         | (k, x) :: kvs' => negb (dict_mem kvs' k) && keys_distinct x && entries kvs'
         end) d
  | PList l | PTuple l =>
      (fix elements (xs : list pyval) : bool :=
         match xs with
         | [] => true
         | x :: xs' => keys_distinct x && elements xs'
         end) l
  | _ => true
  end.

(** Neither a list, nor a tuple, nor a dictionary. *)
Definition is_scalar (v : pyval) : bool :=
  match v with
  | PList _ | PTuple _ | PDict _ => false
  | _ => true
  end.

(** An entry of a plan node that is its list of children or a scalar. *)
Definition children_or_scalar (kv : pykey * pyval) : bool :=
  key_eqb (fst kv) (KStr "Plans") || is_scalar (snd kv).

(** *** The walk back of [_list_diff], by itself *)

(** The diff and the score of the two elements at position [t] of both
    lists. *)
Definition pair_at (T : list (list (pyval * Q))) (t : nat) : pyval * Q :=
  nth t (nth t T []) (PNone, 0%Q).

(** The edit that pairs them. *)
Definition same_at (T : list (list (pyval * Q))) (t : nat) : JsonDiff.edit :=
  JsonDiff.Same (fst (pair_at T t)) t (snd (pair_at T t)).

(** The scores of the first [i] positions, added up. *)
Fixpoint diag_sum (score : nat -> Q) (i : nat) : Q :=
  match i with
  | O => 0%Q
  | S i' => (diag_sum score i' + score i')%Q
  end.

(** The similarity an edit adds to the total, and that total for a walk. *)
Definition score_of (e : JsonDiff.edit) : Q :=
  match e with
  | JsonDiff.Same _ _ s => s
  | _ => 0%Q
  end.

Definition sum_same (r : list JsonDiff.edit) : Q :=
  fold_right (fun e acc => (score_of e + acc)%Q) 0%Q r.

(** An edit that pairs two elements which are fully alike, or pairs none. *)
Definition full_score (e : JsonDiff.edit) : Prop :=
  match e with
  | JsonDiff.Same _ _ s => (s == 1)%Q
  | _ => True
  end.

(** The diff an edit carries is the diff of some pair of elements. *)
Definition from_table (T : list (list (pyval * Q))) (d : pyval) : Prop :=
  exists i j, d = fst (nth j (nth i T []) (PNone, 0%Q)).

Definition edit_from (T : list (list (pyval * Q))) (e : JsonDiff.edit) : Prop :=
  match e with
  | JsonDiff.Same d _ _ => from_table T d
  | _ => True
  end.

(** The keys of the changed elements of a list diff are positions. *)
Definition position_keys (chg : list (pykey * pyval)) : Prop :=
  Forall (fun kv => exists n, fst kv = KInt n) chg.

(** *** More plans *)

(** The Append of [qep_append2] after the planner moved the second partition
    to an index scan; the costs of that scan and of the root moved with it. *)
Definition qep_append2_indexed : pyval :=
  qep_of (append_of 120 1010
            [scan_on "orders_2019" "Seq Scan" 100 1000;
             scan_on "orders_2020" "Index Scan" 8 10]).

(** An Append over one partition, and over two of which the first is read
    through an index. *)
Definition qep_append1 : pyval :=
  qep_of (append_of 100 1000 [scan_on "orders_2019" "Seq Scan" 100 1000]).

Definition qep_append1_indexed : pyval :=
  qep_of (append_of 100 1000
            [scan_on "orders_2019" "Index Scan" 100 1000;
             scan_on "orders_2020" "Seq Scan" 8 10]).

(** A plan node that holds nothing but its operator kind, and an Append over
    such nodes. *)
Definition kind_only (kind : string) : pyval := PDict [(KStr "Node Type", PStr kind)].

Definition append_kinds (kinds : list string) : pyval :=
  qep_of (PDict [(KStr "Node Type", PStr "Append");
                 (KStr "Plans", PList (map kind_only kinds))]).

(** Three children, and the same three with the operator kind of each one
    replaced. *)
Definition qep_kinds_before : pyval := append_kinds ["Seq Scan"; "Index Scan"; "Seq Scan"].

Definition qep_kinds_after : pyval := append_kinds ["Index Scan"; "Seq Scan"; "Index Scan"].

(** Nine scans of one relation, alternately of two kinds, and the same nine
    with every scan switched to the other kind. *)
Definition alternately (first second : string) : list string :=
  [first; second; first; second; first; second; first; second; first].

Definition qep_scans_before : pyval :=
  qep_of (append_of 900 9000
            (map (fun kind => scan_on "orders" kind 100 1000)
                 (alternately "Seq Scan" "Index Scan"))).

Definition qep_scans_after : pyval :=
  qep_of (append_of 900 9000
            (map (fun kind => scan_on "orders" kind 100 1000)
                 (alternately "Index Scan" "Seq Scan"))).

End EquivalenceSpec.

(** ** Runs: reference definitions *)

Module RunsSpec.
Import PyStr QepProcessor Samples.

(** No member of [D] is judged equivalent to a member that comes after it. *)
Definition pairwise_different (D : list pyval) : Prop :=
  forall j k mj mk, (j < k)%nat -> D !! j = Some mj -> D !! k = Some mk ->
                    similar mj mk = Ret false.

(** [classified D q k]: member number [k] of [D] is the first one judged
    equivalent to [q]. *)
Definition classified (D : list pyval) (q : pyval) (k : nat) : Prop :=
  exists i m, k = (i + 1)%nat /\ D !! i = Some m /\ similar m q = Ret true
    /\ forall j m', (j < i)%nat -> D !! j = Some m' -> similar m' q = Ret false.

(** A trace that holds plan requests only. *)
Definition all_getQEP (t : list event) : Prop := Forall (fun ev => is_getQEP ev = true) t.

(** The statements [_generatePredicateValues] sends for the attributes it
    gets through: the relation, its histogram, its cardinality. *)
Definition stats_requests (comm : Postgres_Connect) (attributes : list string) : list event :=
  flat_map (fun attribute =>
              match fst (findRelation comm attribute) with
              | Ret schema => [EvFindRelation attribute; EvGetHistogram schema attribute;
                               EvGetCardinality schema]
              | Raise _ => [EvFindRelation attribute]
              end) attributes.

End RunsSpec.

(** ** Grid: reference definitions *)

Module GridSpec.
Import PyStr QepProcessor Samples.

Definition plan_of (x : cell3) : nat := fst (fst x).

(** The (plan, row, column) triples of a reshaped grid, row by row. *)
Definition cells (grid : list (list nat)) : list cell3 :=
  concat (imap (fun rowIndex row => imap (fun colIndex col => (col, rowIndex, colIndex)) row)
            grid).

(** The triples of plan [k], in the order of the list. *)
Definition bucket (l : list cell3) (k : nat) : list cell3 :=
  List.filter (fun x => (plan_of x =? k)%nat) l.

(** The order on triples that Python's [min] and [max] use. *)
Definition cell3_lt (a b : cell3) : Prop :=
  (a.1.1 < b.1.1 \/ (a.1.1 = b.1.1 /\ (a.1.2 < b.1.2 \/ (a.1.2 = b.1.2 /\ a.2 < b.2))))%nat.

(** The entry of the grid at a row and a column: entry [r * RESOLUTION + c]
    of the list, for a column below [RESOLUTION]. *)
Definition holds (planIndexes : list nat) (r c k : nat) : Prop :=
  (c < RESOLUTION)%nat /\ planIndexes !! (r * RESOLUTION + c)%nat = Some k.

(** [a] is not after [b] when the grid is read row by row. *)
Definition row_major_le (a b : nat * nat) : Prop :=
  (a.1 < b.1 \/ (a.1 = b.1 /\ a.2 <= b.2))%nat.

(** The pair of ranges [_retrieveSelectivityRanges] makes from the triples of
    one plan. *)
Definition range_of (lst : list cell3) : range2 :=
  ((snd (fst (py_min lst)), snd (fst (py_max lst))), (snd (py_min lst), snd (py_max lst))).

(** The keys of a list, each one at its first place only. *)
Fixpoint keep_first (l : list nat) : list nat :=
  match l with
  | [] => []
  | k :: l' => k :: List.filter (fun k' => negb (k' =? k)%nat) (keep_first l')
  end.

End GridSpec.

(** ** Annotated plans: reference definitions *)

Module TreeSpec.
Import PyStr QueryPlanVisualizer.

(** A plan as the engine gives it: the two keys the visualiser adds taken
    away again, on every node. *)
Fixpoint erase (p : plan) : plan :=
  mkPlan (node_type p) (total_cost p) None None (map erase (plans p)).

End TreeSpec.

(** ** Extractor: reference definitions and sample trees *)

Module ExtractorSpec.
Import PyStr QepProcessor Samples GetPredicatesConditions.

(** A clause that [re.split] cuts into at least two parts. *)
Definition splits (clause : string) : Prop := (2 <= length (re_split_comparison clause))%nat.

(** The text of a comparison: the values of its tokens, one after another. *)
Definition text_of (tokens_in_comparison : list token) : string :=
  foldr (fun t acc => value t +:+ acc) "" tokens_in_comparison.

(** The identifiers among the tokens of a comparison. *)
Definition identifiers_of (tokens_in_comparison : list token) : list string :=
  map value (List.filter (fun t => String.eqb (get_token_type t) "identifier")
               tokens_in_comparison).

(** Neither the node nor one of its sub-tokens is a clause that is searched. *)
Definition no_clause (l : list token) : Prop :=
  Forall (fun t => in_list (lower_str (get_token_type t)) clauses_to_search = false) l.

(** [processQuery] with the extractor it calls first: an exception of
    [get_var_column] ends the request before anything else is done. *)
Definition processQuery_parsed (parse : string -> list token) (float_str : pyfloat -> string)
    (query : string) (Communicator : Postgres_Connect) : M process_result :=
  r <- lift (get_var_column parse query) ;;
  processQuery (fun _ => r) float_str query Communicator.

(** *** Sample trees *)

Definition leaf (text : string) : token := Token "Token" text None.

Definition identifier (name : string) : token := Token "Identifier" name (Some [leaf name]).

(** [left op right] as sqlparse groups it. *)
Definition comparison (left : token) (op : string) (right : token) : token :=
  Token "Comparison" (value left +:+ " " +:+ op +:+ " " +:+ value right)
    (Some [left; leaf " "; leaf op; leaf " "; right]).

Definition where_clause (conditions : list token) : token :=
  Token "Where" ("WHERE " +:+ text_of conditions) (Some (leaf "WHERE" :: leaf " " :: conditions)).

Definition select_from (table : string) (rest : list token) : token :=
  Token "Statement" ("SELECT * FROM " +:+ table +:+ text_of rest)
    (Some ([leaf "SELECT"; leaf " "; leaf "*"; leaf " "; leaf "FROM"; leaf " ";
            identifier table] ++ rest)).

(** The trees of three queries: one numeric comparison, a comparison of two
    columns, and no WHERE clause but a join condition. *)
Definition tree_quantity : token :=
  select_from "lineitem"
    [leaf " "; where_clause [comparison (identifier "l_quantity") "<" (leaf "30")]].

Definition tree_two_columns : token :=
  select_from "lineitem"
    [leaf " ";
     where_clause [comparison (identifier "l_tax") "<" (identifier "l_discount")]].

Definition query_join : string :=
  "SELECT * FROM lineitem JOIN orders ON l_orderkey < o_orderkey".

Definition tree_join : token :=
  select_from "lineitem"
    [leaf " "; leaf "JOIN"; leaf " "; identifier "orders"; leaf " "; leaf "ON"; leaf " ";
     comparison (identifier "l_orderkey") "<" (identifier "o_orderkey")].

Definition parse_sample (query : string) : list token :=
  if String.eqb query query_quantity then [tree_quantity]
  else if String.eqb query query_two_columns then [tree_two_columns]
  else if String.eqb query query_join then [tree_join]
  else [].

End ExtractorSpec.

(** ** Properties *)

Module RangeSynthesizer.
Import QepProcessor Samples.

(** The example of the specification: on the 1 x 10 row, plan 1 covers
    [0 %, 40 %) and plan 2 covers [40 %, 100 %). *)
Lemma row_1x10_ranges :
  _retrieveSelectivityRanges row_1x10 = [(1, ((0, 0), (0, 3))); (2, ((0, 0), (4, 9)))]%nat
  /\ generateFoundExplanation ["l_quantity"] row_1x10
     = ["For Plan 1, the selectivity range for l_quantity ranges from 0 % to 40 %"
          +:+ String "010"%char EmptyString;
        "For Plan 2, the selectivity range for l_quantity ranges from 40 % to 100 %"
          +:+ String "010"%char EmptyString].
Proof. split; vm_compute; reflexivity. Qed.

(** C3 (fails on the code): on a 10 x 10 grid the column pair returned for a
    plan is the column of its first and of its last cell in row-major order,
    not the least and greatest column of its cells.  Plan 2 of [grid_10x10]
    has cells in columns 2-9 but is given the columns (5, 9); plan 1 has cells
    in columns 0-4 but is given (0, 1). *)
Theorem C3_column_range_is_not_the_bounding_box :
  _retrieveSelectivityRanges grid_10x10
    = [(1, ((0, 9), (0, 1))); (2, ((0, 9), (5, 9)))]%nat
  /\ bounding_box grid_10x10 1 = Some ((0, 9), (0, 4))%nat
  /\ bounding_box grid_10x10 2 = Some ((0, 9), (2, 9))%nat
  /\ generateFoundExplanation ["l_quantity"; "l_tax"] grid_10x10
     = ["For Plan 1, the selectivity range for l_quantity ranges from 0 % to 100 %, and l_tax ranges from 0 % to 20 %"
          +:+ String "010"%char EmptyString;
        "For Plan 2, the selectivity range for l_quantity ranges from 0 % to 100 %, and l_tax ranges from 50 % to 100 %"
          +:+ String "010"%char EmptyString].
Proof. repeat split; vm_compute; reflexivity. Qed.

End RangeSynthesizer.

Module Sampler.
Import PyStr QepProcessor Samples.

(** Both lists of [_readHistogram] come from the same slice, so the value
    computed from a finite bound is that bound. *)
Lemma midpoint_of_equal_bounds (x : Q) :
  same_float (fadd (fmul (fsub (Finite x) (Finite x)) (Finite 0.5)) (Finite x)) (Finite x)
  = true.
Proof.
  simpl. apply Qeq_bool_iff. ring.
Qed.

Lemma sel_values_are_the_bounds (pre hs : list pyfloat) :
  same_floats
    (imap (fun index element =>
             fadd (fmul (fsub (nth (length pre + index) (pre ++ hs) NonFinite)
                              element) (Finite 0.5)) element) hs)
    hs = true.
Proof.
  revert pre. induction hs as [|h hs IH]; intros pre; [reflexivity|].
  cbn [imap same_floats]. apply andb_true_intro. split.
  - rewrite Nat.add_0_r, app_nth2 by lia.
    rewrite Nat.sub_diag. cbn [nth].
    destruct h as [x|]; [apply midpoint_of_equal_bounds | reflexivity].
  - specialize (IH (pre ++ [h])).
    erewrite imap_ext; [exact IH|].
    intros i x _. cbn beta. unfold compose.
    rewrite length_app, <- app_assoc. cbn [length app].
    replace (length pre + 1 + i)%nat with (length pre + S i)%nat by lia.
    reflexivity.
Qed.

(** For any histogram that [_readHistogram] accepts, the values returned are
    the retained bounds themselves. *)
Lemma readHistogram_returns_bounds (histogram : pyval) (sel : list pyfloat) (pv : list Q) :
  _readHistogram histogram = Ret (sel, pv) ->
  exists texts bounds,
    floats (every_nth 11 texts) = Ret bounds /\ same_floats sel bounds = true.
Proof.
  unfold _readHistogram. intros H.
  repeat match type of H with
         | obind ?m _ = _ => destruct m eqn:?; cbn [obind] in H; [|discriminate]
         end.
  injection H as <- _.
  match goal with
  | E : floats (every_nth _ ?t) = Ret ?b |- _ => exists t, b; split; [exact E|]
  end.
  match goal with |- same_floats (imap _ ?b) _ = _ =>
    exact (sel_values_are_the_bounds [] b) end.
Qed.

(** C2 (fails on the code): with the 101 bounds 0, 1, ..., 100 the sampler
    returns the retained bounds 0, 11, ..., 99 themselves, not the bucket
    midpoints 0.5, 11.5, ..., 99.5. *)
Theorem C2_sampler_returns_bounds_not_midpoints :
  exists sel pv,
    _readHistogram histogram_101 = Ret (sel, pv)
    /\ same_floats sel selvals_10 = true
    /\ same_floats (map Finite (bucket_midpoints 11 bounds_101))
         (map Finite [0.5; 11.5; 22.5; 33.5; 44.5; 55.5; 66.5; 77.5; 88.5; 99.5]%Q) = true
    /\ same_floats sel (map Finite (bucket_midpoints 11 bounds_101)) = false.
Proof.
  eexists _, _. split; [vm_compute; reflexivity|].
  repeat split; vm_compute; reflexivity.
Qed.

End Sampler.

Module Enumeration.
Import PyStr QepProcessor EnumerationSpec Samples.

Lemma mbind_lift_ret {A B} (a : A) (k : A -> M B) : mbind (lift (Ret a)) k = k a.
Proof. unfold mbind, lift. destruct (k a); reflexivity. Qed.

Lemma mbind_lift_raise {A B} (e : exn) (k : A -> M B) :
  mbind (lift (Raise e)) k = (Raise e, []).
Proof. reflexivity. Qed.

Lemma mbind_lift_ret_mret {A B} (a : A) (k : A -> M B) : mbind (mret a) k = k a.
Proof. unfold mbind, mret. destruct (k a); reflexivity. Qed.

Lemma fst_mbind {A B} (m : M A) (k : A -> M B) :
  fst (mbind m k) = match fst m with
                    | Ret a => fst (k a)
                    | Raise e => Raise e
                    end.
Proof.
  destruct m as [[a|e] t]; cbn; [|reflexivity]. destruct (k a); reflexivity.
Qed.

Lemma snd_mbind {A B} (m : M A) (k : A -> M B) :
  snd (mbind m k) = match fst m with
                    | Ret a => snd m ++ snd (k a)
                    | Raise e => snd m
                    end.
Proof.
  destruct m as [[a|e] t]; cbn; [|reflexivity]. destruct (k a); reflexivity.
Qed.

Lemma mbind_assoc {A B C} (m : M A) (k : A -> M B) (k' : B -> M C) :
  mbind (mbind m k) k' = mbind m (fun a => mbind (k a) k').
Proof.
  destruct m as [[a|e] t]; cbn; [|reflexivity].
  destruct (k a) as [[b|e] t']; cbn; [|reflexivity].
  destruct (k' b) as [o t'']. rewrite app_assoc. reflexivity.
Qed.

Lemma mbind_ext {A B} (m : M A) (k k' : A -> M B) :
  (forall a, k a = k' a) -> mbind m k = mbind m k'.
Proof.
  intros H. destruct m as [[a|e] t]; cbn; [|reflexivity]. rewrite H. reflexivity.
Qed.

(** *** The loops of the source are [enumerate] *)

Section Loops.
Variable float_str : pyfloat -> string.

Lemma one_dimension_loop_enumerate comm query index vals planIndexes lstAllQEPs :
  one_dimension_loop float_str comm query index vals planIndexes lstAllQEPs
  = enumerate comm (index =? 0)%nat (queries_1d float_str query vals) planIndexes lstAllQEPs.
Proof.
  revert index planIndexes lstAllQEPs.
  induction vals as [|v vals IH]; intros index planIndexes lstAllQEPs; [reflexivity|].
  cbn [one_dimension_loop queries_1d map enumerate].
  apply mbind_ext; intros qep. apply mbind_ext; intros r.
  rewrite IH. reflexivity.
Qed.

Lemma inner_loop_enumerate comm query index v1 index2 vals2 planIndexes lstAllQEPs :
  inner_loop float_str comm query index v1 index2 vals2 planIndexes lstAllQEPs
  = enumerate comm ((index =? 0)%nat && (index2 =? 0)%nat)
      (map (query_2d float_str query v1) vals2) planIndexes lstAllQEPs.
Proof.
  revert index2 planIndexes lstAllQEPs.
  induction vals2 as [|v vals IH]; intros index2 planIndexes lstAllQEPs; [reflexivity|].
  cbn [inner_loop map enumerate].
  apply mbind_ext; intros qep. apply mbind_ext; intros r.
  rewrite IH. cbn. rewrite andb_false_r. reflexivity.
Qed.

Lemma enumerate_app comm first qs1 qs2 planIndexes lstAllQEPs :
  enumerate comm first (qs1 ++ qs2) planIndexes lstAllQEPs
  = (r <- enumerate comm first qs1 planIndexes lstAllQEPs ;;
     enumerate comm (first && match qs1 with [] => true | _ => false end) qs2
       (fst r) (snd r)).
Proof.
  revert first planIndexes lstAllQEPs.
  induction qs1 as [|q qs1 IH]; intros first planIndexes lstAllQEPs.
  - cbn [app enumerate]. unfold mret, mbind. cbn [fst snd].
    rewrite andb_true_r. destruct (enumerate _ _ _ _ _); reflexivity.
  - cbn [app enumerate]. rewrite andb_false_r, !mbind_assoc.
    apply mbind_ext; intros qep. rewrite mbind_assoc.
    apply mbind_ext; intros r. rewrite IH. reflexivity.
Qed.

Lemma two_dimensions_loop_enumerate comm query index vals1 vals2 planIndexes lstAllQEPs :
  two_dimensions_loop float_str comm query index vals1 vals2 planIndexes lstAllQEPs
  = enumerate comm (index =? 0)%nat (queries_2d float_str query vals1 vals2)
      planIndexes lstAllQEPs.
Proof.
  destruct vals2 as [|v2 vals2].
  - (* an empty second dimension: no point at all *)
    replace (queries_2d float_str query vals1 []) with (@nil string)
      by (unfold queries_2d; induction vals1; cbn; auto).
    revert index planIndexes lstAllQEPs.
    induction vals1 as [|v vals1 IH]; intros; [reflexivity|].
    cbn [two_dimensions_loop inner_loop]. rewrite mbind_lift_ret_mret, IH. reflexivity.
  - revert index planIndexes lstAllQEPs.
    induction vals1 as [|v vals1 IH]; intros index planIndexes lstAllQEPs; [reflexivity|].
    cbn [two_dimensions_loop]. unfold queries_2d. cbn [map concat].
    rewrite enumerate_app, inner_loop_enumerate. cbn [Nat.eqb andb map].
    rewrite andb_true_r, andb_false_r.
    apply mbind_ext; intros r. rewrite IH. reflexivity.
Qed.

End Loops.

(** *** The inner loop finds the first equivalent member *)

Lemma similar_cases existingQEP qep :
  (exists b, similar existingQEP qep = Ret b) \/ (exists e, similar existingQEP qep = Raise e).
Proof. destruct (similar existingQEP qep) as [b|e]; eauto. Qed.

Lemma first_similar_some i D q k :
  first_similar i D q = Ret (Some k) ->
  exists j m, k = (i + j + 1)%nat /\ D !! j = Some m /\ similar m q = Ret true
    /\ forall j' m', (j' < j)%nat -> D !! j' = Some m' -> similar m' q = Ret false.
Proof.
  revert i. induction D as [|x D IH]; intros i H; [discriminate|].
  cbn [first_similar] in H.
  destruct (similar x q) as [[|]|e] eqn:E; cbn [obind] in H; try discriminate.
  - injection H as <-. exists 0%nat, x.
    split; [lia|]. split; [reflexivity|]. split; [exact E|]. intros; lia.
  - destruct (IH _ H) as (j & m & -> & Hj & Hm & Hlt).
    exists (S j), m.
    split; [lia|]. split; [exact Hj|]. split; [exact Hm|].
    intros [|j'] m' Hlt' Hj'; cbn in Hj'; [congruence|]. eapply Hlt; eauto. lia.
Qed.

Lemma first_similar_none i D q :
  first_similar i D q = Ret None -> forall m, In m D -> similar m q = Ret false.
Proof.
  revert i. induction D as [|x D IH]; intros i H m []; subst;
    cbn [first_similar] in H;
    destruct (similar _ q) as [[|]|e] eqn:E; cbn [obind] in H; try discriminate; eauto.
Qed.

Lemma first_similar_found i D q j m :
  D !! j = Some m -> similar m q = Ret true ->
  (forall j' m', (j' < j)%nat -> D !! j' = Some m' -> similar m' q = Ret false) ->
  first_similar i D q = Ret (Some (i + j + 1)%nat).
Proof.
  revert i j. induction D as [|x D IH]; intros i j Hj Hm Hlt; [discriminate|].
  cbn [first_similar]. destruct j as [|j]; cbn in Hj.
  - injection Hj as ->. rewrite Hm. cbn. do 2 f_equal. lia.
  - rewrite (Hlt 0%nat x) by (auto; lia). cbn [obind].
    rewrite (IH (S i) j Hj Hm).
    + do 2 f_equal. lia.
    + intros j' m' Hj' Hm'. apply (Hlt (S j') m'); [lia|exact Hm'].
Qed.

Lemma first_similar_fresh i D q :
  (forall m, In m D -> similar m q = Ret false) -> first_similar i D q = Ret None.
Proof.
  revert i. induction D as [|x D IH]; intros i H; [reflexivity|].
  cbn [first_similar]. rewrite (H x) by (left; reflexivity). cbn [obind].
  apply IH. intros m Hm. apply H. right. exact Hm.
Qed.

Lemma record_plan_assigned planIndexes D q planIndexes' D' :
  record_plan false planIndexes D q = Ret (planIndexes', D') <->
  exists k, assigned D q k D' /\ planIndexes' = planIndexes ++ [k].
Proof.
  unfold record_plan. split.
  - destruct (first_similar 0 D q) as [[k|]|e] eqn:E; cbn [obind]; intros H;
      [| |discriminate]; injection H as <- <-.
    + destruct (first_similar_some _ _ _ _ E) as (j & m & -> & Hj & Hm & Hlt).
      exists (0 + j + 1)%nat. split; [|reflexivity].
      replace (0 + j + 1)%nat with (S j) by lia. eapply assigned_first_match; eauto.
    + exists (length (D ++ [q])). split; [|reflexivity].
      rewrite length_app. cbn [length]. replace (length D + 1)%nat with (S (length D)) by lia.
      apply assigned_new. eapply first_similar_none; eauto.
  - intros (k & Hk & ->). destruct Hk as [i m Hi Hm Hlt | Hnew].
    + rewrite (first_similar_found 0 D q i m Hi Hm Hlt). cbn [obind].
      replace (0 + i + 1)%nat with (S i) by lia. reflexivity.
    + rewrite (first_similar_fresh 0 D q Hnew). cbn [obind].
      rewrite length_app. cbn [length].
      replace (length D + 1)%nat with (S (length D)) by lia. reflexivity.
Qed.

(** *** A run is a sequence of [assigned] steps *)

Lemma fst_enumerate_cons comm first q rest planIndexes D :
  fst (enumerate comm first (q :: rest) planIndexes D)
  = match fetched comm q with
    | Ret qep =>
        match record_plan first planIndexes D qep with
        | Ret r => fst (enumerate comm false rest (fst r) (snd r))
        | Raise e => Raise e
        end
    | Raise e => Raise e
    end.
Proof.
  cbn [enumerate]. rewrite fst_mbind. unfold fetched.
  destruct (fst (fetch_plan comm q)) as [qep|e]; [|reflexivity].
  rewrite fst_mbind. cbn [lift fst]. reflexivity.
Qed.

Lemma enumerate_steps comm queries planIndexes D st :
  fst (enumerate comm false queries planIndexes D) = Ret st <->
  exists qs, Forall2 (fun query q => fetched comm query = Ret q) queries qs
             /\ steps qs (planIndexes, D) st.
Proof.
  revert planIndexes D. induction queries as [|query rest IH]; intros planIndexes D.
  - cbn. split.
    + intros [= <-]. exists []. split; constructor.
    + intros (qs & HF & Hs). inversion HF; subst. inversion Hs; subst. reflexivity.
  - rewrite fst_enumerate_cons. split.
    + destruct (fetched comm query) as [q|e] eqn:Eq; [|discriminate].
      destruct (record_plan false planIndexes D q) as [[pi' D']|e] eqn:Er; [|discriminate].
      cbn [fst snd]. intros H. apply IH in H as (qs & HF & Hs).
      apply record_plan_assigned in Er as (k & Hk & ->).
      exists (q :: qs). split; [constructor; assumption|]. econstructor; eauto.
    + intros (qs & HF & Hs). inversion HF as [|? q ? qs' Hq HF']; subst.
      inversion Hs as [|? ? ? ? k D' ? Hk Hs']; subst.
      rewrite Hq.
      assert (record_plan false planIndexes D q = Ret (planIndexes ++ [k], D')) as ->
        by (apply record_plan_assigned; eauto).
      cbn [fst snd]. apply IH. eauto.
Qed.

Lemma enumerate_enumerated comm queries planIndexes D :
  fst (enumerate comm true queries [] []) = Ret (planIndexes, D) <->
  exists qs, Forall2 (fun query q => fetched comm query = Ret q) queries qs
             /\ enumerated qs planIndexes D.
Proof.
  destruct queries as [|query rest].
  - cbn. split.
    + intros [= <- <-]. exists []. split; [constructor|split; reflexivity].
    + intros (qs & HF & Hs). inversion HF; subst. destruct Hs as [-> ->]. reflexivity.
  - rewrite fst_enumerate_cons. cbn [record_plan app]. split.
    + destruct (fetched comm query) as [q|e] eqn:Eq; [|discriminate].
      cbn [fst snd]. intros H. apply enumerate_steps in H as (qs & HF & Hs).
      exists (q :: qs). split; [constructor; assumption|exact Hs].
    + intros (qs & HF & Hs). inversion HF as [|? q ? qs' Hq HF']; subst.
      rewrite Hq. cbn [fst snd]. apply enumerate_steps. exists qs'. split; assumption.
Qed.

(** *** What every run keeps true *)

Lemma assigned_bounds D q k D' :
  assigned D q k D' ->
  (1 <= k <= length D')%nat /\ (length D <= length D')%nat
  /\ (forall k', (1 <= k' <= length D')%nat -> (1 <= k' <= length D)%nat \/ k' = k).
Proof.
  intros [i m Hi Hm Hlt | Hnew].
  - apply lookup_lt_Some in Hi. repeat split; intros; lia.
  - rewrite length_app. cbn [length]. repeat split; intros; lia.
Qed.

Lemma steps_grid_ok qs n st st' :
  steps qs st st' -> grid_ok n st -> grid_ok (n + length qs) st'.
Proof.
  intros Hs. revert n. induction Hs as [st | q qs planIndexes D k D' st Hk Hs IH]; intros n Hn.
  - cbn [length]. rewrite Nat.add_0_r. exact Hn.
  - cbn [length]. replace (n + S (length qs))%nat with (S n + length qs)%nat by lia.
    apply IH. destruct Hn as (Hlen & Hall & Hcov). cbn [fst snd] in *.
    destruct (assigned_bounds _ _ _ _ Hk) as (Hk1 & Hmono & Hnew).
    repeat split; cbn [fst snd].
    + rewrite length_app. cbn [length]. lia.
    + apply Forall_app. split.
      * eapply Forall_impl; [exact Hall|]. cbn. intros; lia.
      * constructor; [exact Hk1|constructor].
    + intros k' Hk'. apply in_or_app. destruct (Hnew k' Hk') as [Hold | ->].
      * left. apply Hcov. exact Hold.
      * right. left. reflexivity.
Qed.

Lemma enumerated_grid_ok qs planIndexes D :
  enumerated qs planIndexes D ->
  grid_ok (length qs) (planIndexes, D) /\ (qs <> [] -> head planIndexes = Some 1%nat).
Proof.
  destruct qs as [|q qs]; cbn [enumerated].
  - intros [-> ->]. split; [|congruence].
    repeat split; cbn; [constructor|intros; lia].
  - intros Hs. split.
    + apply (steps_grid_ok qs 1 _ _ Hs).
      repeat split; cbn; [repeat constructor|intros k Hk; left; lia].
    + intros _. clear -Hs.
      assert (forall st st', steps qs st st' -> head (fst st) = Some 1%nat ->
                             head (fst st') = Some 1%nat) as Hhead.
      { clear. intros st st' Hs. induction Hs as [|? ? pi ? ? ? ? _ _ IH]; auto.
        intros H. apply IH. cbn [fst] in *. destruct pi; [discriminate|exact H]. }
      apply (Hhead _ _ Hs). reflexivity.
Qed.

(** *** Round trips *)

Lemma fetch_plan_connected comm c query :
  cur comm = Some c ->
  fetch_plan comm query
  = (obind (swallow (explain c query)) (fun result =>
     obind (getitem result 0) (fun row => getitem row 0)), [EvGetQEP query]).
Proof.
  intros Hc. unfold fetch_plan, getQEP. rewrite Hc. cbn [mbind].
  destruct (swallow (explain c query)) as [r|e]; reflexivity.
Qed.

Lemma fetch_plan_failed comm c query e :
  cur comm = Some c -> explain c query = Raise e -> e <> SystemExit ->
  fetch_plan comm query = (Raise TypeError, [EvGetQEP query]).
Proof.
  intros Hc He Hne. rewrite (fetch_plan_connected comm c query Hc), He.
  destruct e; try reflexivity. congruence.
Qed.

Lemma enumerate_round_trips comm c first queries planIndexes D st :
  cur comm = Some c ->
  fst (enumerate comm first queries planIndexes D) = Ret st ->
  snd (enumerate comm first queries planIndexes D) = round_trips queries.
Proof.
  intros Hc. revert first planIndexes D.
  induction queries as [|q rest IH]; intros first planIndexes D; [reflexivity|].
  cbn [enumerate round_trips map]. rewrite fst_mbind, snd_mbind.
  rewrite (fetch_plan_connected comm c q Hc). cbn [fst snd].
  destruct (obind _ _) as [qep|e]; [|discriminate].
  rewrite fst_mbind, snd_mbind. cbn [lift fst snd].
  destruct (record_plan first planIndexes D qep) as [r|e]; [|discriminate].
  intros H. rewrite (IH _ _ _ H). reflexivity.
Qed.

Lemma enumerate_fails_at comm c pre q post planIndexes D e :
  cur comm = Some c ->
  fst (enumerate comm true pre [] []) = Ret (planIndexes, D) ->
  explain c q = Raise e -> e <> SystemExit ->
  enumerate comm true (pre ++ q :: post) [] [] = (Raise TypeError, round_trips (pre ++ [q])).
Proof.
  intros Hc Hpre He Hne. rewrite enumerate_app.
  pose proof (enumerate_round_trips comm c true pre [] [] _ Hc Hpre) as Ht.
  destruct (enumerate comm true pre [] []) as [o t]. cbn [fst snd] in *. subst o t.
  cbn [mbind enumerate]. rewrite (fetch_plan_failed comm c q e Hc He Hne).
  cbn [mbind]. unfold round_trips. rewrite map_app. reflexivity.
Qed.

Section Runs.
Variable float_str : pyfloat -> string.

Lemma enumeration_enumerate query vals1 vals2 comm :
  enumeration float_str query vals1 vals2 comm
  = enumerate comm true (queries float_str query vals1 vals2) [] [].
Proof.
  destruct vals2 as [vals2|]; cbn [enumeration queries].
  - apply two_dimensions_loop_enumerate.
  - apply one_dimension_loop_enumerate.
Qed.

Lemma length_queries query vals1 vals2 :
  length (queries float_str query vals1 vals2) = sampled_points vals1 vals2.
Proof.
  destruct vals2 as [vals2|]; cbn [queries sampled_points].
  - unfold queries_2d. induction vals1 as [|v vals1 IH]; [reflexivity|].
    cbn [map concat length]. rewrite length_app, length_map, IH. lia.
  - unfold queries_1d. apply length_map.
Qed.

(** What a run computes, for both loops: it returns a grid and a set of
    distinct plans exactly when every round trip gives a plan and those
    plans, taken in order, are [enumerated] to that grid and that set. *)
Lemma enumeration_spec query vals1 vals2 comm planIndexes D :
  fst (enumeration float_str query vals1 vals2 comm) = Ret (planIndexes, D) <->
  exists qs,
    Forall2 (fun query q => fetched comm query = Ret q)
      (queries float_str query vals1 vals2) qs
    /\ enumerated qs planIndexes D.
Proof. rewrite enumeration_enumerate. apply enumerate_enumerated. Qed.

End Runs.

(** C4: in both the one- and the two-dimensional enumeration, the run returns
    the grid [planIndexes] and the distinct plans [D] exactly when the engine
    gives a plan for every sampled point and these plans are [enumerated] to
    [planIndexes] and [D]: the first point seeds [D] with number 1, every
    later point gets the number of the first member of [D], in insertion
    order, judged equivalent to its plan, and only when no member is
    equivalent is its plan appended and the point given the new number. *)
Theorem C4_first_point_seeds_later_points_take_first_match
    (float_str : pyfloat -> string) (query : string) (vals1 : list pyfloat)
    (vals2 : option (list pyfloat)) (comm : Postgres_Connect)
    (planIndexes : list nat) (D : list pyval) :
  fst (enumeration float_str query vals1 vals2 comm) = Ret (planIndexes, D) <->
  exists qs,
    Forall2 (fun query q => fetched comm query = Ret q)
      (queries float_str query vals1 vals2) qs
    /\ enumerated qs planIndexes D.
Proof. apply enumeration_spec. Qed.

(** C10: a completed enumeration returns one grid entry per sampled point;
    the first entry is 1; every entry is between 1 and the number of distinct
    plans; every number from 1 to the number of distinct plans is the entry
    of some point. *)
Theorem C10_grid_numbers_are_contiguous
    (float_str : pyfloat -> string) (query : string) (vals1 : list pyfloat)
    (vals2 : option (list pyfloat)) (comm : Postgres_Connect)
    (planIndexes : list nat) (D : list pyval) :
  fst (enumeration float_str query vals1 vals2 comm) = Ret (planIndexes, D) ->
  length planIndexes = sampled_points vals1 vals2
  /\ (sampled_points vals1 vals2 <> 0%nat -> head planIndexes = Some 1%nat)
  /\ Forall (fun k => (1 <= k <= length D)%nat) planIndexes
  /\ (forall k, (1 <= k <= length D)%nat -> In k planIndexes).
Proof.
  intros H. apply enumeration_spec in H as (qs & HF & He).
  apply enumerated_grid_ok in He as ((Hlen & Hall & Hcov) & Hhead).
  cbn [fst snd] in *.
  assert (length qs = sampled_points vals1 vals2) as Hqs.
  { rewrite <- (length_queries float_str query). symmetry. eapply Forall2_length; eauto. }
  split; [congruence|]. split; [|split; assumption].
  intros Hne. apply Hhead. intros ->. apply Hne. rewrite <- Hqs. reflexivity.
Qed.

(** C8 (as amended): when the round trip of a sampled point fails (the
    engine raises on its query) after every earlier point was enumerated, the
    enumeration ends at once with a [TypeError] that names neither the point
    nor the query; the round trips made are those up to the failing query,
    none after it, and no grid or set of distinct plans is returned. *)
Theorem C8_failed_round_trip_aborts_with_TypeError
    (float_str : pyfloat -> string) (query : string) (vals1 : list pyfloat)
    (vals2 : option (list pyfloat)) (comm : Postgres_Connect) (c : Cursor)
    (pre post : list string) (q : string) (qs : list pyval)
    (planIndexes : list nat) (D : list pyval) (e : exn) :
  cur comm = Some c ->
  queries float_str query vals1 vals2 = pre ++ q :: post ->
  Forall2 (fun query p => fetched comm query = Ret p) pre qs ->
  enumerated qs planIndexes D ->
  explain c q = Raise e -> e <> SystemExit ->
  enumeration float_str query vals1 vals2 comm = (Raise TypeError, round_trips (pre ++ [q])).
Proof.
  intros Hc Hq HF He Hfail Hne.
  rewrite enumeration_enumerate, Hq.
  eapply enumerate_fails_at; eauto.
  apply enumerate_enumerated. eauto.
Qed.

Lemma C10_witness :
  fst (enumeration float_str_int template_quantity selvals_10 None db_switch)
  = Ret ([1; 1; 1; 1; 2; 2; 2; 2; 2; 2]%nat,
         [qep_of (index_scan 40 100); qep_of (seq_scan 90 5000)])
  /\ (length [1; 1; 1; 1; 2; 2; 2; 2; 2; 2]%nat = sampled_points selvals_10 None
      /\ (sampled_points selvals_10 None <> 0%nat ->
          head [1; 1; 1; 1; 2; 2; 2; 2; 2; 2]%nat = Some 1%nat)
      /\ Forall (fun k => (1 <= k <= 2)%nat) [1; 1; 1; 1; 2; 2; 2; 2; 2; 2]%nat
      /\ (forall k, (1 <= k <= 2)%nat -> In k [1; 1; 1; 1; 2; 2; 2; 2; 2; 2]%nat)).
Proof.
  split; [vm_compute; reflexivity|].
  apply (C10_grid_numbers_are_contiguous float_str_int template_quantity selvals_10 None
           db_switch [1; 1; 1; 1; 2; 2; 2; 2; 2; 2]%nat
           [qep_of (index_scan 40 100); qep_of (seq_scan 90 5000)]).
  vm_compute; reflexivity.
Defined.

Lemma C8_witness :
  enumeration float_str_int template_quantity selvals_10 None (db_failing_at "<= 22.0")
  = (Raise TypeError,
     round_trips ["SELECT * FROM lineitem WHERE l_quantity<= 0.0";
                  "SELECT * FROM lineitem WHERE l_quantity<= 11.0";
                  "SELECT * FROM lineitem WHERE l_quantity<= 22.0"]).
Proof.
  apply (C8_failed_round_trip_aborts_with_TypeError float_str_int template_quantity
           selvals_10 None (db_failing_at "<= 22.0")
           (stats_cursor (explain_failing_at "<= 22.0"))
           ["SELECT * FROM lineitem WHERE l_quantity<= 0.0";
            "SELECT * FROM lineitem WHERE l_quantity<= 11.0"]
           (map (fun n => "SELECT * FROM lineitem WHERE l_quantity<= " +:+ str_nat n +:+ ".0")
                [33; 44; 55; 66; 77; 88; 99]%nat)
           "SELECT * FROM lineitem WHERE l_quantity<= 22.0"
           [qep_of (index_scan 40 100); qep_of (index_scan 40 100)]
           [1; 1]%nat [qep_of (index_scan 40 100)] ValueError).
  - reflexivity.
  - vm_compute; reflexivity.
  - repeat (constructor; [vm_compute; reflexivity|]). constructor.
  - cbn [enumerated]. eapply steps_point; [|apply steps_done].
    apply (assigned_first_match _ _ 0%nat (qep_of (index_scan 40 100))).
    + reflexivity.
    + vm_compute; reflexivity.
    + intros j m' Hj. inversion Hj.
  - vm_compute; reflexivity.
  - discriminate.
Defined.

(** C8 (as stated, fails on the code): what the caller receives does not
    tell which point failed nor with which query.  The engine failing on the
    third point and the engine failing on the sixth point give the caller the
    same exception, so nothing computed from it can give back the query that
    failed. *)
Lemma C8_failure_carries_no_context :
  ~ exists context : outcome (list nat * list pyval) -> string,
      context (fst (enumeration float_str_int template_quantity selvals_10 None
                      (db_failing_at "<= 22.0")))
      = "SELECT * FROM lineitem WHERE l_quantity<= 22.0"
      /\ context (fst (enumeration float_str_int template_quantity selvals_10 None
                         (db_failing_at "<= 55.0")))
         = "SELECT * FROM lineitem WHERE l_quantity<= 55.0".
Proof.
  assert (fst (enumeration float_str_int template_quantity selvals_10 None
                 (db_failing_at "<= 22.0"))
          = fst (enumeration float_str_int template_quantity selvals_10 None
                   (db_failing_at "<= 55.0"))) as E
    by (vm_compute; reflexivity).
  intros (context & H1 & H2).
  pose proof (f_equal context E) as H.
  rewrite H1, H2 in H. discriminate H.
Qed.

End Enumeration.

Module Requests.
Import PyStr QepProcessor EnumerationSpec Samples Enumeration.

(** *** Too many predicate attributes *)

Lemma no_getQEP_app t1 t2 : no_getQEP t1 -> no_getQEP t2 -> no_getQEP (t1 ++ t2).
Proof. unfold no_getQEP. rewrite forallb_app. intros -> ->. reflexivity. Qed.

Lemma findRelation_no_getQEP comm a : no_getQEP (snd (findRelation comm a)).
Proof.
  unfold findRelation. destruct (cur comm) as [c|]; [|reflexivity].
  rewrite snd_mbind. cbn [fst snd lift].
  destruct (pg_attribute_relname c a) as [r|e]; reflexivity.
Qed.

Lemma getHistogram_no_getQEP comm s a : no_getQEP (snd (getHistogram comm s a)).
Proof. unfold getHistogram. destruct (cur comm) as [c|]; reflexivity. Qed.

Lemma getCardinality_no_getQEP comm s : no_getQEP (snd (getCardinality comm s)).
Proof.
  unfold getCardinality. destruct (cur comm) as [c|]; [|reflexivity].
  rewrite snd_mbind. cbn [fst snd lift].
  destruct (pg_class_reltuples c s) as [r|e]; reflexivity.
Qed.

Lemma no_getQEP_mbind {A B} (m : M A) (k : A -> M B) :
  no_getQEP (snd m) -> (forall a, no_getQEP (snd (k a))) -> no_getQEP (snd (mbind m k)).
Proof.
  intros Hm Hk. rewrite snd_mbind. destruct (fst m); [|exact Hm].
  apply no_getQEP_app; auto.
Qed.

(** The statistics loop sends no plan request, whatever happens. *)
Lemma predicate_values_loop_no_getQEP comm index attributes d1 d2 :
  no_getQEP (snd (predicate_values_loop comm index attributes d1 d2)).
Proof.
  revert index d1 d2. induction attributes as [|a attributes IH]; intros; [reflexivity|].
  cbn [predicate_values_loop].
  apply no_getQEP_mbind; [apply findRelation_no_getQEP|]. intros schema.
  apply no_getQEP_mbind; [apply getHistogram_no_getQEP|]. intros histogram.
  apply no_getQEP_mbind; [apply getCardinality_no_getQEP|]. intros cardinality.
  apply no_getQEP_mbind; [reflexivity|]. intros r.
  destruct index as [|[|index]]; [apply IH|apply IH|reflexivity].
Qed.

(** With a third attribute to come, the loop cannot return. *)
Lemma predicate_values_loop_raises comm index attributes d1 d2 :
  (index <= 2)%nat -> (2 < index + length attributes)%nat ->
  exists e, fst (predicate_values_loop comm index attributes d1 d2) = Raise e.
Proof.
  revert index d1 d2. induction attributes as [|a attributes IH]; intros index d1 d2 Hi Hlen.
  - cbn [length] in Hlen. lia.
  - cbn [predicate_values_loop length] in *.
    rewrite fst_mbind. destruct (fst (findRelation comm a)) as [schema|e]; [|eauto].
    rewrite fst_mbind. destruct (fst (getHistogram comm schema a)) as [histogram|e]; [|eauto].
    rewrite fst_mbind. destruct (fst (getCardinality comm schema)) as [cardinality|e]; [|eauto].
    rewrite fst_mbind. cbn [lift fst].
    destruct (_readHistogram histogram) as [r|e]; [|eauto].
    destruct index as [|[|index]]; [apply IH; lia|apply IH; lia|]. cbn. eauto.
Qed.

(** When the statistics of the attributes up to the third can be read, the
    loop ends in [quit()]. *)
Lemma predicate_values_loop_quits comm index attributes d1 d2 :
  (index <= 2)%nat -> (2 < index + length attributes)%nat ->
  Forall (stats_ok comm) (take (3 - index) attributes) ->
  fst (predicate_values_loop comm index attributes d1 d2) = Raise SystemExit.
Proof.
  revert index d1 d2. induction attributes as [|a attributes IH]; intros index d1 d2 Hi Hlen Hok.
  - cbn [length] in Hlen. lia.
  - cbn [predicate_values_loop length] in *.
    destruct (3 - index)%nat as [|n] eqn:En; [lia|]. cbn [take] in Hok.
    apply Forall_cons in Hok as [(schema & histogram & cardinality & r & H1 & H2 & H3 & H4) Hok].
    rewrite fst_mbind, H1, fst_mbind, H2, fst_mbind, H3, fst_mbind. cbn [lift fst].
    rewrite H4.
    destruct index as [|[|index]].
    + apply IH; [lia|lia|]. replace (3 - 1)%nat with n by lia. exact Hok.
    + apply IH; [lia|lia|]. replace (3 - 2)%nat with n by lia. exact Hok.
    + reflexivity.
Qed.

Section TooMany.
Variable get_var_column : string -> list string * list string.
Variable float_str : pyfloat -> string.

Lemma processQuery_too_many query comm attributes templateQuery :
  _convertToQueryTemplate get_var_column query = Ret (ConvertOk attributes templateQuery) ->
  (2 < length attributes)%nat ->
  (exists e, fst (processQuery get_var_column float_str query comm) = Raise e)
  /\ no_getQEP (snd (processQuery get_var_column float_str query comm))
  /\ (Forall (stats_ok comm) (take 3 attributes) ->
      fst (processQuery get_var_column float_str query comm) = Raise SystemExit).
Proof.
  intros Hconv Hlen. unfold processQuery. rewrite Hconv, mbind_lift_ret.
  unfold _generatePredicateValues. rewrite !mbind_assoc.
  pose proof (predicate_values_loop_raises comm 0 attributes [] [] ltac:(lia) ltac:(lia))
    as [e He].
  pose proof (predicate_values_loop_no_getQEP comm 0 attributes [] []) as Ht.
  pose proof (predicate_values_loop_quits comm 0 attributes [] [] ltac:(lia) ltac:(lia))
    as Hq.
  rewrite fst_mbind, snd_mbind, He. repeat split; eauto.
  intros Hok. specialize (Hq Hok). rewrite He in Hq. injection Hq as ->. reflexivity.
Qed.

End TooMany.

(** C6 (as amended): for a query with more than two predicate attributes,
    [processQuery] never returns a result and sends no plan request to the
    engine; when the statistics of the first three attributes can be read it
    ends by [quit()], which raises [SystemExit] and ends the process. *)
Theorem C6_more_than_two_attributes_quit
    (get_var_column : string -> list string * list string)
    (float_str : pyfloat -> string) (query : string) (comm : Postgres_Connect)
    (attributes : list string) (templateQuery : string) :
  _convertToQueryTemplate get_var_column query = Ret (ConvertOk attributes templateQuery) ->
  (2 < length attributes)%nat ->
  (exists e, fst (processQuery get_var_column float_str query comm) = Raise e)
  /\ no_getQEP (snd (processQuery get_var_column float_str query comm))
  /\ (Forall (stats_ok comm) (take 3 attributes) ->
      fst (processQuery get_var_column float_str query comm) = Raise SystemExit).
Proof. apply processQuery_too_many. Qed.

Lemma stats_ok_db_switch (attribute : string) : stats_ok db_switch attribute.
Proof.
  exists (PStr "lineitem"), histogram_101, (num 6000000).
  eexists. repeat split; vm_compute; reflexivity.
Qed.

Lemma C6_witness :
  fst (processQuery get_var_column_sample float_str_int query_three db_switch)
  = Raise SystemExit
  /\ no_getQEP (snd (processQuery get_var_column_sample float_str_int query_three db_switch)).
Proof.
  destruct (C6_more_than_two_attributes_quit get_var_column_sample float_str_int
              query_three db_switch ["l_quantity"; "l_tax"; "l_discount"]
              "SELECT * FROM lineitem WHERE l_quantity :varies AND l_tax :varies AND l_discount :varies"
              ltac:(vm_compute; reflexivity) ltac:(cbn; lia))
    as (_ & Hno & Hquit).
  split; [|exact Hno].
  apply Hquit. repeat (constructor; [apply stats_ok_db_switch|]). constructor.
Defined.

(** C6 (as stated, fails on the code): with three predicate attributes the
    request is not given up with an error the caller could handle: the code
    calls [quit()], and the [SystemExit] it raises ends the process. *)
Lemma C6_three_attributes_end_the_process :
  ~ clean_abort (fst (processQuery get_var_column_sample float_str_int query_three db_switch)).
Proof.
  assert (fst (processQuery get_var_column_sample float_str_int query_three db_switch)
          = Raise SystemExit) as E by (vm_compute; reflexivity).
  intros (e & He & Hne).
  pose proof (eq_trans (eq_sym E) He) as H. injection H as <-. apply Hne. reflexivity.
Qed.

(** *** No numeric predicate *)

Section NoPredicate.
Variable get_var_column : string -> list string * list string.
Variable float_str : pyfloat -> string.

(** When the attribute list is empty after filtering, [processQuery] returns
    the failure status at once: no statistics are read, no plan is requested. *)
Lemma processQuery_convert_err query comm :
  _convertToQueryTemplate get_var_column query = Ret ConvertErr ->
  processQuery get_var_column float_str query comm = (Ret ProcessConvertErr, []).
Proof. intros H. unfold processQuery. rewrite H. reflexivity. Qed.

End NoPredicate.

(** The example of the specification: a comparison with a date literal is
    dropped, no attribute is left, and the conversion fails. *)
Lemma shipdate_conversion_fails :
  _convertToQueryTemplate get_var_column_sample query_shipdate = Ret ConvertErr
  /\ processQuery get_var_column_sample float_str_int query_shipdate db_switch
     = (Ret ProcessConvertErr, []).
Proof. split; vm_compute; reflexivity. Qed.

(** C7 (fails on the code): in [SELECT * FROM lineitem WHERE l_tax < l_discount]
    the only comparison has a column, not a number, on its right-hand side, so
    no predicate survives the numeric filter.  The clause is dropped, but only
    the attribute on its left is removed: [l_discount] stays, the conversion
    succeeds with the query unchanged as its template, and [processQuery]
    goes on to request ten plans for that same query. *)
Theorem C7_column_comparison_is_not_rejected :
  drop_non_numeric ["l_tax < l_discount"] [] ["l_tax"; "l_discount"]
  = Ret (["l_tax < l_discount"], ["l_discount"])
  /\ _convertToQueryTemplate get_var_column_sample query_two_columns
     = Ret (ConvertOk ["l_discount"] query_two_columns)
  /\ processQuery get_var_column_sample float_str_int query_two_columns db_switch
     = (Ret (ProcessAllQEPs [qep_of (seq_scan 90 5000)] ["l_discount"]
               (repeat 1%nat 10)),
        [EvFindRelation "l_discount"; EvGetHistogram (PStr "lineitem") "l_discount";
         EvGetCardinality (PStr "lineitem")]
        ++ round_trips (repeat query_two_columns 10)).
Proof. repeat split; vm_compute; reflexivity. Qed.

End Requests.

Module PlanTree.
Import PyStr QueryPlanVisualizer PlanTreeSpec.

Lemma plan_ind' (P : plan -> Prop) :
  (forall nt tc i c ps, Forall P ps -> P (mkPlan nt tc i c ps)) -> forall p, P p.
Proof.
  intros H. fix IH 1. intros [nt tc i c ps]. apply H.
  induction ps as [|q ps IHps]; constructor; [apply IH | exact IHps].
Qed.

Lemma generate_unfold nt tc i c ps nc :
  _generate_ids_and_cost (mkPlan nt tc i c ps) nc
  = let loop := children_loop ps 0%Q (bump nc nt) in
    (mkPlan nt tc (Some (label nt (default 1%nat (nc !! nt))))
       (Some (Cost (tc - snd (fst loop))%Q)) (fst (fst loop)),
     snd loop).
Proof.
  change (_generate_ids_and_cost (mkPlan nt tc i c ps) nc)
    with (let '(children, costs, name_counter) := children_loop ps 0%Q (bump nc nt) in
          (mkPlan nt tc (Some (label nt (default 1%nat (nc !! nt))))
             (Some (Cost (tc - costs)%Q)) children, name_counter)).
  destruct (children_loop ps 0%Q (bump nc nt)) as [[cs' costs] nc']. reflexivity.
Qed.

Lemma children_loop_cons c cs costs nc :
  children_loop (c :: cs) costs nc
  = let g := _generate_ids_and_cost c nc in
    let loop := children_loop cs (costs + Cost (total_cost (fst g)))%Q (snd g) in
    (fst g :: fst (fst loop), snd (fst loop), snd loop).
Proof.
  cbn [children_loop]. destruct (_generate_ids_and_cost c nc) as [c' nc'].
  cbv zeta. cbn [fst snd].
  destruct (children_loop cs _ nc') as [[rest costs'] nc'']. reflexivity.
Qed.

Lemma nodes_unfold nt tc i c ps :
  nodes (mkPlan nt tc i c ps) = mkPlan nt tc i c ps :: flat_map nodes ps.
Proof.
  reflexivity.
Qed.

(** *** Identifiers are told apart by kind and number *)

Lemma append_nil (s : string) : "" +:+ s = s.
Proof. reflexivity. Qed.

Lemma append_cons (c : ascii) (s t : string) : String c s +:+ t = String c (s +:+ t).
Proof. reflexivity. Qed.

Lemma has_char_app c s1 s2 : has_char c (s1 +:+ s2) = has_char c s1 || has_char c s2.
Proof.
  induction s1 as [|a s1 IH]; [reflexivity|].
  rewrite append_cons. cbn [has_char]. rewrite IH, orb_assoc. reflexivity.
Qed.

Lemma string_of_uint_no_underscore d : has_char "_" (NilEmpty.string_of_uint d) = false.
Proof. induction d; cbn; auto. Qed.

Lemma str_nat_no_underscore n : has_char "_" (str_nat n) = false.
Proof. apply string_of_uint_no_underscore. Qed.

Lemma str_nat_inj n m : str_nat n = str_nat m -> n = m.
Proof.
  unfold str_nat. intros H. apply Unsigned.to_uint_inj.
  apply (f_equal NilEmpty.uint_of_string) in H. rewrite !NilEmpty.usu in H.
  congruence.
Qed.

Lemma underscore_split a b d e :
  has_char "_" d = false -> has_char "_" e = false ->
  a +:+ "_" +:+ d = b +:+ "_" +:+ e -> a = b /\ d = e.
Proof.
  intros Hd He. revert b. induction a as [|x a IH]; intros [|y b] H;
    rewrite ?append_nil, ?append_cons, ?append_nil in H.
  - injection H as ->. auto.
  - injection H as <- ->. rewrite has_char_app in Hd. cbn [has_char] in Hd.
    rewrite Ascii.eqb_refl, orb_true_r in Hd. discriminate.
  - injection H as -> <-. rewrite has_char_app in He. cbn [has_char] in He.
    rewrite Ascii.eqb_refl, orb_true_r in He. discriminate.
  - injection H as -> H. destruct (IH _ H) as [-> ->]. auto.
Qed.

Lemma label_inj k1 n1 k2 n2 : label k1 n1 = label k2 n2 -> k1 = k2 /\ n1 = n2.
Proof.
  unfold label. intros H.
  apply underscore_split in H as [-> H]; auto using str_nat_no_underscore.
  split; [reflexivity|]. apply str_nat_inj. exact H.
Qed.

(** *** The identifiers are the per-kind numbering of the pre-order *)

Lemma labels_from_app nc ks1 ks2 :
  labels_from nc (ks1 ++ ks2) = labels_from nc ks1 ++ labels_from (counter_after nc ks1) ks2.
Proof.
  revert nc. induction ks1 as [|k ks1 IH]; intros nc; [reflexivity|].
  cbn [app labels_from counter_after fold_left]. rewrite IH. reflexivity.
Qed.

Lemma counter_after_app nc ks1 ks2 :
  counter_after nc (ks1 ++ ks2) = counter_after (counter_after nc ks1) ks2.
Proof. apply fold_left_app. Qed.

Lemma children_ids cs :
  Forall (fun p => forall nc,
            ids (fst (_generate_ids_and_cost p nc)) = map Some (labels_from nc (kinds p))
            /\ kinds (fst (_generate_ids_and_cost p nc)) = kinds p
            /\ snd (_generate_ids_and_cost p nc) = counter_after nc (kinds p)) cs ->
  forall costs nc,
    flat_map ids (fst (fst (children_loop cs costs nc)))
    = map Some (labels_from nc (flat_map kinds cs))
    /\ flat_map kinds (fst (fst (children_loop cs costs nc))) = flat_map kinds cs
    /\ snd (children_loop cs costs nc) = counter_after nc (flat_map kinds cs).
Proof.
  induction 1 as [|c cs Hc _ IH]; intros costs nc; [repeat split|].
  rewrite children_loop_cons. cbv zeta. cbn [fst snd flat_map].
  destruct (Hc nc) as (Hi & Hk & Hn).
  destruct (IH (costs + Cost (total_cost (fst (_generate_ids_and_cost c nc))))%Q
               (snd (_generate_ids_and_cost c nc))) as (Hi' & Hk' & Hn').
  rewrite Hi, Hk, Hi', Hk', Hn', Hn, labels_from_app, counter_after_app, map_app.
  repeat split.
Qed.

Lemma flat_map_map_nodes {A} (f : plan -> A) (ps : list plan) :
  map f (flat_map nodes ps) = flat_map (fun p => map f (nodes p)) ps.
Proof.
  induction ps as [|p ps IH]; [reflexivity|].
  cbn [flat_map]. rewrite map_app, IH. reflexivity.
Qed.

Lemma generate_ids p nc :
  ids (fst (_generate_ids_and_cost p nc)) = map Some (labels_from nc (kinds p))
  /\ kinds (fst (_generate_ids_and_cost p nc)) = kinds p
  /\ snd (_generate_ids_and_cost p nc) = counter_after nc (kinds p).
Proof.
  revert nc. induction p as [nt tc i c ps IH] using plan_ind'. intros nc.
  rewrite generate_unfold. cbv zeta. cbn [fst snd].
  unfold ids, kinds. rewrite !nodes_unfold. cbn [map node_type id].
  rewrite !flat_map_map_nodes.
  destruct (children_ids ps IH 0%Q (bump nc nt)) as (Hi & Hk & Hn).
  unfold ids, kinds in Hi, Hk, Hn. rewrite Hi, Hk, Hn.
  cbn [labels_from counter_after fold_left map]. repeat split.
Qed.

Lemma occurrences_cons k k0 l :
  occurrences k (k0 :: l) = ((if String.eqb k k0 then 1 else 0) + occurrences k l)%nat.
Proof. unfold occurrences. cbn [List.filter]. destruct (String.eqb k k0); reflexivity. Qed.

Lemma labels_from_numbered nc ks :
  labels_from nc ks
  = imap (fun i kind => label kind (default 1%nat (nc !! kind) + occurrences kind (take i ks))) ks.
Proof.
  revert nc. induction ks as [|k0 ks IH]; intros nc; [reflexivity|].
  cbn [labels_from imap take]. f_equal.
  - unfold occurrences. cbn. rewrite Nat.add_0_r. reflexivity.
  - rewrite IH. apply imap_ext. intros i k _. unfold compose. cbn [take].
    rewrite occurrences_cons. f_equal. unfold bump.
    destruct (String.eqb_spec k k0) as [->|Hne].
    + rewrite lookup_insert_eq. simpl. lia.
    + rewrite lookup_insert_ne by congruence. simpl. lia.
Qed.

Lemma labels_from_empty ks : labels_from ∅ ks = numbered ks.
Proof.
  rewrite labels_from_numbered. unfold numbered. apply imap_ext. intros i k _.
  rewrite lookup_empty. reflexivity.
Qed.

(** *** No identifier is given twice *)

Lemma occurrences_app k l1 l2 :
  occurrences k (l1 ++ l2) = (occurrences k l1 + occurrences k l2)%nat.
Proof. unfold occurrences. rewrite List.filter_app, length_app. reflexivity. Qed.

Lemma occurrences_take_lt ks i j k :
  (i < j)%nat -> ks !! i = Some k ->
  (occurrences k (take i ks) < occurrences k (take j ks))%nat.
Proof.
  intros Hij Hi.
  rewrite <- (take_drop i (take j ks)), take_take, Nat.min_l by lia.
  rewrite occurrences_app.
  assert (drop i (take j ks) !! 0%nat = Some k) as H0.
  { rewrite lookup_drop, Nat.add_0_r, lookup_take_lt by lia. exact Hi. }
  destruct (drop i (take j ks)) as [|x rest]; [discriminate|].
  injection H0 as ->. rewrite occurrences_cons, String.eqb_refl. lia.
Qed.

Lemma numbered_lookup ks i s :
  numbered ks !! i = Some s ->
  exists k, ks !! i = Some k /\ s = label k (1 + occurrences k (take i ks)).
Proof.
  unfold numbered. rewrite list_lookup_imap.
  destruct (ks !! i) as [k|]; cbn; [|discriminate].
  intros [= <-]. eauto.
Qed.

Lemma numbered_NoDup ks : NoDup (numbered ks).
Proof.
  apply NoDup_alt. intros i j s Hi Hj.
  apply numbered_lookup in Hi as (ki & Hki & ->).
  apply numbered_lookup in Hj as (kj & Hkj & Heq).
  apply label_inj in Heq as [-> Hocc].
  destruct (Nat.lt_trichotomy i j) as [Hlt | [-> | Hlt]]; [|reflexivity|].
  - pose proof (occurrences_take_lt ks i j kj Hlt Hki). lia.
  - pose proof (occurrences_take_lt ks j i kj Hlt Hkj). lia.
Qed.

(** *** Running the assignment again changes nothing *)

Lemma children_again cs :
  Forall (fun p => forall nc1 nc2,
            _generate_ids_and_cost (fst (_generate_ids_and_cost p nc1)) nc2
            = _generate_ids_and_cost p nc2) cs ->
  forall costs1 nc1 costs2 nc2,
    children_loop (fst (fst (children_loop cs costs1 nc1))) costs2 nc2
    = children_loop cs costs2 nc2.
Proof.
  induction 1 as [|c cs Hc _ IH]; intros costs1 nc1 costs2 nc2; [reflexivity|].
  rewrite (children_loop_cons c cs costs1 nc1). cbv zeta. cbn [fst snd].
  rewrite !children_loop_cons. cbv zeta. rewrite Hc, IH. reflexivity.
Qed.

Lemma generate_again p nc1 nc2 :
  _generate_ids_and_cost (fst (_generate_ids_and_cost p nc1)) nc2
  = _generate_ids_and_cost p nc2.
Proof.
  revert nc1 nc2. induction p as [nt tc i c ps IH] using plan_ind'. intros nc1 nc2.
  rewrite (generate_unfold nt tc i c ps nc1). cbv zeta. cbn [fst].
  rewrite !generate_unfold. cbv zeta. rewrite (children_again ps IH). reflexivity.
Qed.

(** C9: the identifiers, read in pre-order, are ["{kind}_{k}"] with [k]
    counting from 1 the nodes of that kind met so far; no identifier is given
    to two nodes; and running the assignment on the annotated plan again
    gives the same annotated plan, identifiers included. *)
Theorem C9_identifiers_number_each_kind_in_preorder (p : plan) :
  ids (annotate p) = map Some (numbered (kinds p))
  /\ NoDup (ids (annotate p))
  /\ annotate (annotate p) = annotate p.
Proof.
  unfold annotate.
  destruct (generate_ids p ∅) as (Hi & _ & _). rewrite labels_from_empty in Hi.
  split; [exact Hi|]. split.
  - rewrite Hi. apply (NoDup_fmap_2 Some). apply numbered_NoDup.
  - rewrite generate_again. reflexivity.
Qed.

Lemma plan_join_identifiers :
  ids (annotate plan_join)
  = [Some "Hash Join_1"; Some "Seq Scan_1"; Some "Hash_1"; Some "Seq Scan_2"].
Proof. vm_compute. reflexivity. Qed.

(** *** Rounding *)

Lemma round_half_even_error x : (Qabs (inject_Z (round_half_even x) - x) <= 1 # 2)%Q.
Proof.
  unfold round_half_even.
  pose proof (Qfloor_le x) as Hlo. pose proof (Qlt_floor x) as Hhi.
  rewrite inject_Z_plus in Hhi. change (inject_Z 1) with 1%Q in Hhi.
  apply Qabs_Qle_condition.
  destruct (Qcompare_spec (x - inject_Z (Qfloor x)) (1 # 2)) as [He|Hl|Hg];
    [destruct (Z.even (Qfloor x))| |];
    rewrite ?inject_Z_plus; change (inject_Z 1) with 1%Q;
    set (f := inject_Z (Qfloor x)) in *; split; lra.
Qed.

Lemma Qfloor_nonneg x : (0 <= x)%Q -> (0 <= Qfloor x)%Z.
Proof. intros H. apply (Qfloor_resp_le 0 x) in H. exact H. Qed.

Lemma round_half_even_nonneg x : (0 <= x)%Q -> (0 <= round_half_even x)%Z.
Proof.
  intros H. apply Qfloor_nonneg in H. unfold round_half_even.
  destruct (_ ?= _)%Q; [destruct (Z.even _)| |]; lia.
Qed.

Lemma round_half_even_nonpos x : (x <= 0)%Q -> (round_half_even x <= 0)%Z.
Proof.
  intros H. unfold round_half_even.
  pose proof (Qfloor_le x) as Hlo.
  assert (Qfloor x <= 0)%Z as Hf by (apply (Qfloor_resp_le x 0) in H; exact H).
  assert ((1 # 2 <= x - inject_Z (Qfloor x))%Q -> (Qfloor x + 1 <= 0)%Z) as Hneg.
  { intros Hhalf. assert (inject_Z (Qfloor x) < inject_Z 0)%Q as Hlt
      by (change (inject_Z 0) with 0%Q; lra).
    rewrite <- Zlt_Qlt in Hlt. lia. }
  destruct (Qcompare_spec (x - inject_Z (Qfloor x)) (1 # 2)) as [He|Hl|Hg].
  - destruct (Z.even (Qfloor x)); [lia|]. apply Hneg. lra.
  - lia.
  - apply Hneg. lra.
Qed.

Lemma round2_scaled x : (round2 x == inject_Z (round_half_even (x * 100)) * (1 # 100))%Q.
Proof. unfold round2, Qdiv. reflexivity. Qed.

Lemma round2_error x : (Qabs (round2 x - x) <= 1 # 200)%Q.
Proof.
  rewrite round2_scaled. pose proof (round_half_even_error (x * 100)) as H.
  apply Qabs_Qle_condition in H. apply Qabs_Qle_condition.
  set (r := inject_Z (round_half_even (x * 100))) in *.
  split; lra.
Qed.

Lemma round2_nonneg x : (0 <= x)%Q -> (0 <= round2 x)%Q.
Proof.
  intros H. rewrite round2_scaled.
  assert (0 <= inject_Z (round_half_even (x * 100)))%Q as Hr.
  { change 0%Q with (inject_Z 0). rewrite <- Zle_Qle.
    apply round_half_even_nonneg. lra. }
  lra.
Qed.

Lemma round2_nonpos x : (x <= 0)%Q -> (round2 x <= 0)%Q.
Proof.
  intros H. rewrite round2_scaled.
  assert (inject_Z (round_half_even (x * 100)) <= 0)%Q as Hr.
  { change 0%Q with (inject_Z 0). rewrite <- Zle_Qle.
    apply round_half_even_nonpos. lra. }
  lra.
Qed.

Lemma max0_spec x : (max0 x == x /\ 0 <= x)%Q \/ (max0 x = 0%Q /\ x < 0)%Q.
Proof.
  unfold max0. destruct (Qle_bool 0 x) eqn:E.
  - left. apply Qle_bool_iff in E. split; [reflexivity|exact E].
  - right. split; [reflexivity|]. apply Qnot_le_lt. intros H.
    apply Qle_bool_iff in H. congruence.
Qed.

Lemma round2_zero : (round2 0 == 0)%Q.
Proof. vm_compute. reflexivity. Qed.

Lemma Cost_nonneg x : (0 <= Cost x)%Q.
Proof.
  unfold Cost. apply round2_nonneg.
  destruct (max0_spec x) as [[H1 H2]|[-> _]]; lra.
Qed.

Instance round_half_even_comp : Proper (Qeq ==> eq) round_half_even.
Proof.
  intros x y H. unfold round_half_even.
  rewrite (Qfloor_comp x y H).
  assert ((x - inject_Z (Qfloor y) ?= 1 # 2) = (y - inject_Z (Qfloor y) ?= 1 # 2))%Q as ->
    by (apply Qcompare_comp; [rewrite H|]; reflexivity).
  reflexivity.
Qed.

Instance round2_comp : Proper (Qeq ==> Qeq) round2.
Proof.
  intros x y H. unfold round2.
  assert (round_half_even (x * 100) = round_half_even (y * 100)) as ->
    by (apply round_half_even_comp; rewrite H; reflexivity).
  reflexivity.
Qed.

(** [Cost] is [max(0, round(x, 2))]. *)
Lemma Cost_max_round x : (Cost x == max0 (round2 x))%Q.
Proof.
  unfold Cost. destruct (max0_spec x) as [[H1 H2]|[-> H2]].
  - rewrite H1. pose proof (round2_nonneg x H2) as Hr.
    destruct (max0_spec (round2 x)) as [[H3 _]|[_ H3]]; [symmetry; exact H3|lra].
  - rewrite round2_zero. pose proof (round2_nonpos x ltac:(lra)) as Hr.
    destruct (max0_spec (round2 x)) as [[H3 H4]|[-> _]]; [lra|reflexivity].
Qed.

Lemma Cost_error x : (0 <= x)%Q -> (Qabs (Cost x - x) <= 1 # 200)%Q.
Proof.
  intros H. unfold Cost. destruct (max0_spec x) as [[H1 _]|[_ H2]]; [|lra].
  rewrite H1. apply round2_error.
Qed.

Lemma round_half_even_Z n : round_half_even (inject_Z n) = n.
Proof.
  unfold round_half_even. rewrite Qfloor_Z.
  assert ((inject_Z n - inject_Z n ?= 1 # 2)%Q = Lt) as ->; [|reflexivity].
  rewrite <- Qlt_alt. lra.
Qed.

(** A cost as the engine prints it is its own [Cost]. *)
Lemma Cost_printed x : printed_cost x -> (Cost x == x)%Q.
Proof.
  intros [H0 [n Hn]]. unfold Cost.
  destruct (max0_spec x) as [[H1 _]|[_ H2]]; [|lra].
  assert (x == inject_Z n * (1 # 100))%Q as Hn' by exact Hn.
  rewrite H1, round2_scaled.
  assert (round_half_even (x * 100) = n) as ->.
  { rewrite <- (round_half_even_Z n). apply round_half_even_comp. lra. }
  lra.
Qed.

(** *** Own costs *)

Lemma generate_total_cost p nc :
  total_cost (fst (_generate_ids_and_cost p nc)) = total_cost p.
Proof. destruct p as [nt tc i c ps]. rewrite generate_unfold. reflexivity. Qed.

Lemma children_loop_costs cs acc nc :
  snd (fst (children_loop cs acc nc))
  = fold_left (fun acc c => (acc + Cost (total_cost c))%Q) cs acc
  /\ map total_cost (fst (fst (children_loop cs acc nc))) = map total_cost cs.
Proof.
  revert acc nc. induction cs as [|c cs IH]; intros acc nc; [split; reflexivity|].
  rewrite children_loop_cons. cbv zeta. cbn [fst snd fold_left map].
  rewrite generate_total_cost.
  destruct (IH (acc + Cost (total_cost c))%Q (snd (_generate_ids_and_cost c nc))) as [-> ->].
  split; reflexivity.
Qed.

Lemma children_costs_ext cs cs' :
  map total_cost cs = map total_cost cs' -> children_costs cs = children_costs cs'.
Proof.
  unfold children_costs. generalize 0%Q. revert cs'.
  induction cs as [|c cs IH]; intros [|c' cs'] acc H; try discriminate; [reflexivity|].
  cbn [map] in H. injection H as Hc H. cbn [fold_left]. rewrite Hc. apply IH. exact H.
Qed.

(** The own cost [_generate_ids_and_cost] writes on a node. *)
Lemma generate_cost p nc :
  cost (fst (_generate_ids_and_cost p nc))
  = Some (Cost (total_cost (fst (_generate_ids_and_cost p nc))
                - children_costs (plans (fst (_generate_ids_and_cost p nc))))%Q).
Proof.
  destruct p as [nt tc i c ps]. rewrite generate_unfold. cbv zeta. cbn [fst cost total_cost plans].
  destruct (children_loop_costs ps 0%Q (bump nc nt)) as [Hc Ht].
  rewrite Hc. rewrite (children_costs_ext _ _ Ht). reflexivity.
Qed.

(** Every node of an annotated plan was written by [_generate_ids_and_cost]. *)
Lemma nodes_generated p nc P :
  In P (nodes (fst (_generate_ids_and_cost p nc))) ->
  exists p0 nc0, P = fst (_generate_ids_and_cost p0 nc0).
Proof.
  revert nc. induction p as [nt tc i c ps IH] using plan_ind'. intros nc.
  rewrite generate_unfold. cbv zeta. cbn [fst]. rewrite nodes_unfold.
  intros [<-|Hin].
  - exists (mkPlan nt tc i c ps), nc. rewrite generate_unfold. reflexivity.
  - revert Hin. generalize 0%Q (bump nc nt). clear -IH.
    induction IH as [|q ps Hq _ IHps]; intros acc nc' Hin; [destruct Hin|].
    rewrite children_loop_cons in Hin. cbv zeta in Hin. cbn [fst snd flat_map] in Hin.
    apply in_app_or in Hin as [Hin|Hin]; [eapply Hq; exact Hin|eapply IHps; exact Hin].
Qed.

Lemma children_costs_printed cs :
  Forall printed_cost (map total_cost cs) ->
  (children_costs cs == qsum (map total_cost cs))%Q.
Proof.
  unfold children_costs.
  assert (forall acc, Forall printed_cost (map total_cost cs) ->
            (fold_left (fun acc c => acc + Cost (total_cost c)) cs acc
             == acc + qsum (map total_cost cs))%Q) as H.
  { induction cs as [|c cs IH]; intros acc Hall; cbn [fold_left map qsum foldr]; [lra|].
    apply Forall_cons in Hall as [Hc Hall]. rewrite (IH _ Hall), (Cost_printed _ Hc).
    fold (qsum (map total_cost cs)). lra. }
  intros Hall. rewrite (H 0%Q Hall). lra.
Qed.

(** C5 (as amended): every node [P] of an annotated plan has an own cost
    that is not negative and equals [max(0, round(total_cost(P) - S, 2))],
    where [S] adds up the children's total costs, each as a [Cost]; [S] is the
    plain sum of the children's total costs when these are costs as the engine
    prints them; and when [S] does not exceed the total cost of [P], the own
    cost plus [S] is the total cost of [P] within 0.01. *)
Theorem C5_own_cost_is_total_minus_children_totals (p P : plan) :
  In P (nodes (annotate p)) ->
  exists own : Q,
    cost P = Some own
    /\ (0 <= own)%Q
    /\ (own == max0 (round2 (total_cost P - children_costs (plans P))))%Q
    /\ (Forall printed_cost (map total_cost (plans P)) ->
        (children_costs (plans P) == qsum (map total_cost (plans P)))%Q)
    /\ ((children_costs (plans P) <= total_cost P)%Q ->
        (Qabs (own + children_costs (plans P) - total_cost P) <= 1 # 100)%Q).
Proof.
  intros Hin. apply nodes_generated in Hin as (p0 & nc0 & ->).
  eexists. split; [apply generate_cost|].
  set (P := fst (_generate_ids_and_cost p0 nc0)).
  set (x := (total_cost P - children_costs (plans P))%Q).
  split; [apply Cost_nonneg|]. split; [apply Cost_max_round|].
  split; [apply children_costs_printed|].
  intros Hle. assert (0 <= x)%Q as Hx by (unfold x; lra).
  pose proof (Cost_error x Hx) as He. apply Qabs_Qle_condition in He.
  apply Qabs_Qle_condition. unfold x in *. split; lra.
Qed.

Lemma C5_witness :
  exists own : Q,
    cost (annotate plan_join) = Some own
    /\ (0 <= own)%Q
    /\ (own == max0 (round2 (total_cost (annotate plan_join)
                               - children_costs (plans (annotate plan_join)))))%Q
    /\ (Forall printed_cost (map total_cost (plans (annotate plan_join))) ->
        (children_costs (plans (annotate plan_join))
         == qsum (map total_cost (plans (annotate plan_join))))%Q)
    /\ ((children_costs (plans (annotate plan_join)) <= total_cost (annotate plan_join))%Q ->
        (Qabs (own + children_costs (plans (annotate plan_join))
               - total_cost (annotate plan_join)) <= 1 # 100)%Q).
Proof.
  apply (C5_own_cost_is_total_minus_children_totals plan_join (annotate plan_join)).
  left. reflexivity.
Defined.

(** C5 (as stated, fails on the code): the own costs of a node and of its
    children do not add up to the node's total cost once the children have
    children of their own.  In Aggregate (30) over Sort (20) over Seq Scan
    (10) the root has own cost 10 and its child own cost 10: together 20, not
    30. *)
Lemma C5_own_costs_do_not_add_up :
  exists (own : Q) (children_own : list Q),
    In (annotate plan_depth3) (nodes (annotate plan_depth3))
    /\ cost (annotate plan_depth3) = Some own
    /\ map cost (plans (annotate plan_depth3)) = map Some children_own
    /\ (own == 10)%Q /\ (qsum children_own == 10)%Q
    /\ (total_cost (annotate plan_depth3) == 30)%Q
    /\ ~ (Qabs (own + qsum children_own - total_cost (annotate plan_depth3)) <= 1 # 100)%Q.
Proof.
  eexists _, [_]. split; [left; reflexivity|].
  split; [vm_compute; reflexivity|]. split; [vm_compute; reflexivity|].
  split; [vm_compute; reflexivity|]. split; [vm_compute; reflexivity|].
  split; [vm_compute; reflexivity|].
  apply Qlt_not_le. vm_compute. reflexivity.
Qed.

End PlanTree.

Module Equivalence.
Import PyStr QepProcessor Samples EquivalenceSpec.

Lemma pyval_ind' (P : pyval -> Prop) :
  P PNone -> (forall b, P (PBool b)) -> (forall q, P (PNum q)) ->
  (forall s, P (PStr s)) -> (forall y, P (PSym y)) ->
  (forall l, Forall P l -> P (PList l)) ->
  (forall l, Forall P l -> P (PTuple l)) ->
  (forall d, Forall (fun kv => P (snd kv)) d -> P (PDict d)) ->
  forall v, P v.
Proof.
  intros HNone HBool HNum HStr HSym HList HTuple HDict. fix IH 1.
  intros [ |b|q|s|y|l|l|d];
    [exact HNone|apply HBool|apply HNum|apply HStr|apply HSym| | | ].
  - apply HList. induction l as [|x l IHl]; constructor; [apply IH|exact IHl].
  - apply HTuple. induction l as [|x l IHl]; constructor; [apply IH|exact IHl].
  - apply HDict. induction d as [|[k x] d IHd]; constructor; [apply IH|exact IHd].
Qed.

Lemma find_unfold d key :
  _findValueInNestedDict (PDict d) key
  = match dict_get d (KStr key) with
    | Some v => Ret v
    | None => scan_items key d
    end.
Proof. cbn [_findValueInNestedDict]. destruct (dict_get d (KStr key)); reflexivity. Qed.

Lemma scan_items_cons key k v kvs :
  scan_items key ((k, v) :: kvs)
  = match v with
    | PDict _ =>
        match _findValueInNestedDict v key with
        | Ret item => if is_None item then scan_items key kvs else Ret item
        | Raise e => Raise e
        end
    | _ => scan_items key kvs
    end.
Proof. reflexivity. Qed.

Lemma scan_items_nil key : scan_items key [] = Ret PNone.
Proof. reflexivity. Qed.

(** On a dictionary the search always returns. *)
Lemma find_dict_returns key v :
  is_dict v -> exists r, _findValueInNestedDict v key = Ret r.
Proof.
  induction v as [ | | | | | | |d IH] using pyval_ind'; intros [d0 E]; try discriminate.
  clear d0 E. rewrite find_unfold. destruct (dict_get d (KStr key)) as [x|]; [eauto|].
  induction IH as [|[k x] d Hx _ IHd]; [rewrite scan_items_nil; eauto|].
  rewrite scan_items_cons.
  destruct x as [ | | | | | | |dx]; try exact IHd.
  cbn [snd] in Hx. destruct (Hx (ex_intro _ dx eq_refl)) as [r ->].
  destruct (is_None r); [exact IHd|eauto].
Qed.

Lemma is_None_true v : is_None v = true <-> v = PNone.
Proof. destruct v; cbn; split; congruence. Qed.

Lemma is_None_false v : is_None v = false <-> v <> PNone.
Proof. destruct v; cbn; split; congruence. Qed.

(** What the search returns, when it is not [None], is an entry it can come
    to. *)
Lemma find_found key v r :
  _findValueInNestedDict v key = Ret r -> r <> PNone -> found_in key v r.
Proof.
  revert r. induction v as [ | | | | | | |d IH] using pyval_ind'; intros r; try discriminate.
  rewrite find_unfold. destruct (dict_get d (KStr key)) as [x|] eqn:Eg.
  - intros [= ->] Hr. apply found_here; assumption.
  - intros Hscan Hr.
    assert (exists k d', In (k, PDict d') d /\ found_in key (PDict d') r) as (k & d' & Hin & Hf).
    { clear Eg. induction IH as [|[k x] d Hx _ IHd].
      - rewrite scan_items_nil in Hscan. injection Hscan as <-. congruence.
      - rewrite scan_items_cons in Hscan.
        assert (scan_items key d = Ret r ->
                exists k0 d', In (k0, PDict d') ((k, x) :: d) /\ found_in key (PDict d') r)
          as Hrest.
        { intros H. destruct (IHd H) as (k0 & d' & Hin & Hf). exists k0, d'.
          split; [right; exact Hin|exact Hf]. }
        destruct x as [ | | | | | | |dx]; try (apply Hrest; exact Hscan).
        cbn [snd] in Hx.
        destruct (_findValueInNestedDict (PDict dx) key) as [item|e] eqn:Ef; [|discriminate].
        destruct (is_None item) eqn:En; [apply Hrest; exact Hscan|].
        injection Hscan as <-. exists k, dx. split; [left; reflexivity|].
        apply Hx; [reflexivity|exact Hr]. }
    eapply found_below; eauto.
Qed.

(** An entry the search can come to makes it return something else than
    [None]. *)
Lemma found_find key v w :
  found_in key v w -> exists r, _findValueInNestedDict v key = Ret r /\ r <> PNone.
Proof.
  induction 1 as [d v Hg Hv | d k d' v Hg Hin _ (r & Hr & Hne)]; rewrite find_unfold, Hg.
  - eauto.
  - clear Hg. induction d as [|[k0 x] d IHd]; [destruct Hin|].
    rewrite scan_items_cons. destruct Hin as [[= -> ->]|Hin].
    + rewrite Hr. pose proof Hne as Hne'. apply is_None_false in Hne'. rewrite Hne'. eauto.
    + destruct x as [ | | | | | | |dx]; try (apply IHd; exact Hin).
      destruct (find_dict_returns key (PDict dx) (ex_intro _ dx eq_refl)) as [item ->].
      destruct (is_None item) eqn:En; [apply IHd; exact Hin|].
      exists item. split; [reflexivity|]. apply is_None_false. exact En.
Qed.

(** The check of the three call sites, on the diff document. *)
Lemma similar_true existingQEP qep :
  similar existingQEP qep = Ret true <->
  is_dict (_compareQEPs existingQEP qep)
  /\ ~ exists v, found_in "Node Type" (_compareQEPs existingQEP qep) v.
Proof.
  unfold similar. set (doc := _compareQEPs existingQEP qep). split.
  - destruct (_findValueInNestedDict doc "Node Type") as [r|e] eqn:Ef; [|discriminate].
    cbn [obind]. intros [= Hn]. apply is_None_true in Hn. subst r. split.
    + destruct doc; try discriminate. eexists; reflexivity.
    + intros [v Hv]. apply found_find in Hv as (r & Hr & Hne). congruence.
  - intros [Hd Hno]. destruct (find_dict_returns "Node Type" doc Hd) as [r Hr].
    rewrite Hr. cbn [obind]. destruct (is_None r) eqn:En; [reflexivity|].
    exfalso. apply Hno. exists r. apply find_found; [exact Hr|].
    apply is_None_false. exact En.
Qed.

Lemma similar_false existingQEP qep :
  similar existingQEP qep = Ret false <->
  exists v, found_in "Node Type" (_compareQEPs existingQEP qep) v.
Proof.
  unfold similar. set (doc := _compareQEPs existingQEP qep). split.
  - destruct (_findValueInNestedDict doc "Node Type") as [r|e] eqn:Ef; [|discriminate].
    cbn [obind]. intros [= Hn]. exists r. apply find_found; [exact Ef|].
    apply is_None_false. exact Hn.
  - intros [v Hv]. apply found_find in Hv as (r & -> & Hne). cbn [obind].
    apply is_None_false in Hne. rewrite Hne. reflexivity.
Qed.

(** *** Similarity scores *)

Import JsonDiff.

Lemma obj_diff_dict da db :
  obj_diff (PDict da) (PDict db) = dict_diff_finish da db (report_of da db).
Proof.
  cbn [obj_diff]. apply (f_equal (dict_diff_finish da db)).
  induction da as [|[k v] da IH]; [reflexivity|].
  cbn [report_of map fst snd]. rewrite IH. reflexivity.
Qed.

Lemma obj_diff_list xa xb :
  obj_diff (PList xa) (PList xb) = list_diff_finish xa xb (PList xb) (table_of xa xb).
Proof.
  cbn [obj_diff]. apply (f_equal (list_diff_finish xa xb (PList xb))).
  induction xa as [|x xa IH]; [reflexivity|].
  cbn [table_of map]. rewrite IH. reflexivity.
Qed.

Lemma obj_diff_tuple xa xb :
  obj_diff (PTuple xa) (PTuple xb) = list_diff_finish xa xb (PTuple xb) (table_of xa xb).
Proof.
  cbn [obj_diff]. apply (f_equal (list_diff_finish xa xb (PTuple xb))).
  induction xa as [|x xa IH]; [reflexivity|].
  cbn [table_of map]. rewrite IH. reflexivity.
Qed.

Lemma qnat_S n : (qnat (S n) == qnat n + 1)%Q.
Proof. unfold qnat. rewrite Nat2Z.inj_succ, <- Z.add_1_r, inject_Z_plus. reflexivity. Qed.

Lemma qnat_le n m : (n <= m)%nat -> (qnat n <= qnat m)%Q.
Proof. intros H. unfold qnat. rewrite <- Zle_Qle. lia. Qed.

Lemma qnat_pos n : (0 < n)%nat -> (0 < qnat n)%Q.
Proof.
  intros H. unfold qnat. change 0%Q with (inject_Z 0). rewrite <- Zlt_Qlt. lia.
Qed.

Lemma unit_div a n :
  (0 <= a)%Q -> (a <= qnat n)%Q -> (0 < n)%nat -> unit_score (a / qnat n).
Proof.
  intros H0 H1 Hn. pose proof (qnat_pos n Hn) as Hp. split.
  - apply Qle_shift_div_l; [exact Hp|]. lra.
  - apply Qle_shift_div_r; [exact Hp|]. lra.
Qed.

Lemma value_diff_score a b : unit_score (snd (value_diff a b)).
Proof. unfold value_diff, unit_score. destruct (scalar_eqb a b); cbn [snd]; lra. Qed.

Lemma nmatched_cons x r :
  nmatched_of (x :: r)
  = ((match snd x with Some _ => 1 | None => 0 end) + nmatched_of r)%nat.
Proof.
  unfold nmatched_of. destruct x as [[k v] [o|]]; cbn [snd].
  - rewrite filter_cons_True by (cbn; eauto). reflexivity.
  - rewrite filter_cons_False by (cbn; intros [? ?]; discriminate). reflexivity.
Qed.

Lemma smatched_bounds r acc :
  Forall report_unit r ->
  (acc + (1 # 2) * qnat (nmatched_of r) <= fold_left smatched_step r acc
   /\ fold_left smatched_step r acc <= acc + qnat (nmatched_of r))%Q.
Proof.
  intros H. revert acc. induction H as [|x r Hx _ IH]; intros acc.
  - change (nmatched_of []) with 0%nat. change (qnat 0) with 0%Q. cbn [fold_left]. lra.
  - cbn [fold_left]. rewrite nmatched_cons. destruct (IH (smatched_step acc x)) as [Hlo Hhi].
    destruct x as [[k v] [[d s]|]]; cbn [smatched_step snd] in *.
    + destruct Hx as [H0 H1]. rewrite qnat_S. split; lra.
    + cbn [Nat.add]. split; lra.
Qed.

Lemma dict_finish_score da db r :
  Forall report_unit r -> unit_score (snd (dict_diff_finish da db r)).
Proof.
  intros H. unfold dict_diff_finish. cbv zeta. cbn [snd].
  destruct (length (removed_of r) + nmatched_of r + length (added_of da db))%nat
    as [|n] eqn:En; [unfold unit_score; lra|].
  destruct (smatched_bounds r 0%Q H) as [Hlo Hhi].
  change (smatched_of r) with (fold_left smatched_step r 0%Q).
  assert (0 <= qnat (nmatched_of r))%Q by (apply (qnat_le 0); lia).
  apply unit_div; [lra| |lia].
  pose proof (qnat_le (nmatched_of r) (S n) ltac:(lia)). lra.
Qed.

Lemma sames_app r1 r2 : sames (r1 ++ r2) = (sames r1 + sames r2)%nat.
Proof. unfold sames. rewrite List.filter_app, length_app. reflexivity. Qed.

Lemma sames_rev r : sames (rev r) = sames r.
Proof.
  induction r as [|e r IH]; [reflexivity|].
  cbn [rev]. rewrite sames_app, IH. unfold sames. cbn [List.filter].
  destruct (is_same e); cbn [length]; lia.
Qed.

Lemma walk_ok fuel C T X Y i j :
  (forall i j, unit_score (snd (nth j (nth i T []) (PNone, 0%Q)))) ->
  Forall edit_unit (list_diff_0 fuel C T X Y i j)
  /\ (sames (list_diff_0 fuel C T X Y i j) <= i)%nat.
Proof.
  intros HT. revert i j. induction fuel as [|fuel IH]; intros i j.
  - cbn. split; [constructor|unfold sames; cbn; lia].
  - cbn [list_diff_0]. pose proof (HT (i - 1)%nat (j - 1)%nat) as Hs.
    destruct (nth (j - 1) (nth (i - 1) T []) (PNone, 0%Q)) as [d s]. cbn [snd] in Hs.
    destruct ((0 <? i)%nat && (0 <? j)%nat && qlt_bool 0 s
              && Qeq_bool (cell C i j) (cell C (i - 1) (j - 1) + s)%Q) eqn:E1.
    + destruct (IH (i - 1)%nat (j - 1)%nat) as [Hall Hcount].
      apply andb_prop in E1 as [E1 _]. apply andb_prop in E1 as [E1 _].
      apply andb_prop in E1 as [E1 _]. apply Nat.ltb_lt in E1.
      split; [constructor; [exact Hs|exact Hall]|].
      unfold sames in *. cbn [List.filter is_same length]. lia.
    + destruct ((0 <? j)%nat
                && ((i =? 0)%nat || Qle_bool (cell C (i - 1) j) (cell C i (j - 1)))) eqn:E2.
      * destruct (IH i (j - 1)%nat) as [Hall Hcount].
        split; [constructor; [exact I|exact Hall]|].
        unfold sames in *. cbn [List.filter is_same]. exact Hcount.
      * destruct ((0 <? i)%nat
                  && ((j =? 0)%nat || qlt_bool (cell C i (j - 1)) (cell C (i - 1) j))) eqn:E3.
        -- destruct (IH (i - 1)%nat j) as [Hall Hcount].
           split; [constructor; [exact I|exact Hall]|].
           unfold sames in *. cbn [List.filter is_same]. lia.
        -- split; [constructor|unfold sames; cbn; lia].
Qed.

Lemma fold_step_bounds r acc :
  Forall edit_unit r ->
  (tot_s acc <= tot_s (fold_left list_step r acc)
   /\ tot_s (fold_left list_step r acc) <= tot_s acc + qnat (sames r))%Q.
Proof.
  intros H. revert acc. induction H as [|e r He _ IH]; intros acc.
  - change (sames []) with 0%nat. change (qnat 0) with 0%Q. cbn [fold_left]. lra.
  - cbn [fold_left]. destruct (IH (list_step acc e)) as [Hlo Hhi].
    destruct e as [d pos s|v pos|v pos]; cbn [list_step tot_s edit_unit] in *.
    + destruct He as [H0 H1].
      replace (sames (Same d pos s :: r)) with (S (sames r)) by reflexivity.
      rewrite qnat_S. split; lra.
    + replace (sames (Ins v pos :: r)) with (sames r) by reflexivity. split; lra.
    + replace (sames (Del v pos :: r)) with (sames r) by reflexivity. split; lra.
Qed.

Lemma list_finish_score X Y b T :
  (forall i j, unit_score (snd (nth j (nth i T []) (PNone, 0%Q)))) ->
  unit_score (snd (list_diff_finish X Y b T)).
Proof.
  intros HT. unfold list_diff_finish. cbv zeta. cbn [snd].
  set (C := lcs_matrix (length Y) (map (map snd) T)).
  set (r := list_diff_0 (length X + length Y) C T X Y (length X) (length Y)).
  destruct (walk_ok (length X + length Y) C T X Y (length X) (length Y) HT) as [Hall Hcount].
  fold r in Hall, Hcount.
  set (acc0 := {| inserted := []; deleted := []; changed := []; tot_s := 0%Q |}).
  assert (Forall edit_unit (rev r)) as Hrev
    by (apply Forall_forall; intros e He; rewrite Forall_forall in Hall;
        apply Hall; rewrite list_elem_of_In in *; apply in_rev; exact He).
  destruct (fold_step_bounds (rev r) acc0 Hrev) as [Hlo Hhi].
  rewrite sames_rev in Hhi. cbn [tot_s acc0] in Hlo, Hhi.
  destruct (length X + length (inserted (fold_left list_step (rev r) acc0)))%nat
    as [|n] eqn:En; [unfold unit_score; lra|].
  apply unit_div; [lra| |lia].
  pose proof (qnat_le (sames r) (S n) ltac:(lia)). lra.
Qed.

Lemma table_unit xa xb :
  Forall (fun x => forall b, unit_score (snd (obj_diff x b))) xa ->
  forall i j, unit_score (snd (nth j (nth i (table_of xa xb) []) (PNone, 0%Q))).
Proof.
  intros H i j.
  assert (unit_score 0) as H0 by (unfold unit_score; lra).
  remember (nth i (table_of xa xb) []) as row eqn:Erow.
  destruct (nth_in_or_default i (table_of xa xb) []) as [Hin|E];
    rewrite <- Erow in *; [|subst row; rewrite E; destruct j; exact H0].
  unfold table_of in Hin. apply in_map_iff in Hin as (x & Ex & Hx).
  remember (nth j row (PNone, 0%Q)) as entry eqn:Eentry.
  destruct (nth_in_or_default j row (PNone, 0%Q)) as [Hin|E];
    rewrite <- Eentry in *; [|rewrite E; exact H0].
  rewrite <- Ex in Hin. apply in_map_iff in Hin as (y & <- & _).
  rewrite Forall_forall in H. apply H. apply list_elem_of_In. exact Hx.
Qed.

(** Every pair of values has a similarity between 0 and 1. *)
Lemma obj_diff_score a b : unit_score (snd (obj_diff a b)).
Proof.
  revert b. induction a as [ |x|x|x|x|l IH|l IH|d IH] using pyval_ind'; intros other;
    try (destruct other; apply value_diff_score).
  - destruct other; try apply value_diff_score.
    rewrite obj_diff_list. apply list_finish_score, table_unit, IH.
  - destruct other; try apply value_diff_score.
    rewrite obj_diff_tuple. apply list_finish_score, table_unit, IH.
  - destruct other as [ | | | | | | |db]; try apply value_diff_score.
    rewrite obj_diff_dict. apply dict_finish_score.
    unfold report_of. apply Forall_map. eapply Forall_impl; [exact IH|].
    intros [k v] Hv. unfold report_unit. cbn [fst snd] in *.
    destruct (dict_get db k) as [w|]; [|exact I].
    destruct (obj_diff v w) as [d0 s0] eqn:E.
    specialize (Hv w). rewrite E in Hv. exact Hv.
Qed.

(** *** A substituted value under a key both dictionaries have *)

Lemma key_eqb_eq k1 k2 : key_eqb k1 k2 = true -> k1 = k2.
Proof.
  destruct k1 as [s1|n1|y1], k2 as [s2|n2|y2]; cbn; try discriminate.
  - intros H. apply String.eqb_eq in H. congruence.
  - intros H. apply Z.eqb_eq in H. congruence.
  - destruct y1, y2; cbn; congruence.
Qed.

Lemma key_eqb_refl k : key_eqb k k = true.
Proof.
  destruct k as [s|n|y]; cbn; [apply String.eqb_refl|apply Z.eqb_refl|destruct y; reflexivity].
Qed.

Lemma Qle_bool_true a b : (a <= b)%Q -> Qle_bool a b = true.
Proof. apply Qle_bool_iff. Qed.

Lemma Qeq_bool_false a b : ~ (a == b)%Q -> Qeq_bool a b = false.
Proof.
  intros H. destruct (Qeq_bool a b) eqn:E; [|reflexivity].
  apply Qeq_bool_iff in E. contradiction.
Qed.

Lemma qlt_bool_true a b : (a < b)%Q -> qlt_bool a b = true.
Proof.
  intros H. unfold qlt_bool. destruct (Qle_bool b a) eqn:E; [|reflexivity].
  apply Qle_bool_iff in E. lra.
Qed.

Lemma changed_of_cons k v o r :
  changed_of ((k, v, o) :: r)
  = match o with
    | Some (d, s) => if qlt_bool s 1 then (k, d) :: changed_of r else changed_of r
    | None => changed_of r
    end.
Proof. destruct o as [[d s]|]; [|reflexivity]. unfold changed_of. cbn. destruct (qlt_bool s 1); reflexivity. Qed.

Lemma dict_get_changed pa pb k v w :
  dict_get pa k = Some v -> dict_get pb k = Some w ->
  qlt_bool (snd (obj_diff v w)) 1 = true ->
  dict_get (changed_of (report_of pa pb)) k = Some (fst (obj_diff v w)).
Proof.
  intros Ha Hb Hlt. induction pa as [|[k' v'] pa IH]; [discriminate|].
  change (report_of ((k', v') :: pa) pb)
    with ((k', v', match dict_get pb k' with
                   | Some w' => Some (obj_diff v' w')
                   | None => None
                   end) :: report_of pa pb).
  rewrite changed_of_cons. cbn [dict_get] in Ha.
  destruct (key_eqb k' k) eqn:Ek.
  - apply key_eqb_eq in Ek. subst k'. injection Ha as ->. rewrite Hb.
    destruct (obj_diff v w) as [d s]. cbn [fst snd] in *. rewrite Hlt.
    cbn [dict_get]. rewrite key_eqb_refl. reflexivity.
  - specialize (IH Ha).
    destruct (dict_get pb k') as [w'|]; [|exact IH].
    destruct (obj_diff v' w') as [d s]. destruct (qlt_bool s 1); [|exact IH].
    cbn [dict_get]. rewrite Ek. exact IH.
Qed.

Lemma report_has_entry pa pb k v w :
  dict_get pa k = Some v -> dict_get pb k = Some w ->
  In (k, v, Some (obj_diff v w)) (report_of pa pb).
Proof.
  intros Ha Hb. induction pa as [|[k' v'] pa IH]; [discriminate|].
  cbn [dict_get] in Ha. cbn [report_of map fst snd].
  destruct (key_eqb k' k) eqn:Ek.
  - apply key_eqb_eq in Ek. subst k'. injection Ha as ->. rewrite Hb. left. reflexivity.
  - right. apply IH. exact Ha.
Qed.

Lemma nmatched_has_entry r k v x : In (k, v, Some x) r -> (1 <= nmatched_of r)%nat.
Proof.
  induction r as [|e r IH]; [intros []|]. rewrite nmatched_cons.
  intros [->|Hin]; [cbn [snd]; lia|]. specialize (IH Hin). lia.
Qed.

Lemma smatched_upper_zero r acc k v d :
  In (k, v, Some (d, 0%Q)) r -> Forall report_unit r ->
  (fold_left smatched_step r acc <= acc + qnat (nmatched_of r) - (1 # 2))%Q.
Proof.
  intros Hin Hall. revert acc. induction Hall as [|e r He Hall IH]; intros acc; [destruct Hin|].
  cbn [fold_left]. rewrite nmatched_cons. destruct Hin as [->|Hin].
  - cbn [smatched_step snd]. destruct (smatched_bounds r (acc + (0.5 + 0.5 * 0))%Q Hall) as [_ Hhi].
    rewrite qnat_S. lra.
  - specialize (IH Hin (smatched_step acc e)).
    destruct e as [[k' v'] [[d' s']|]]; cbn [smatched_step snd] in *.
    + destruct He as [H0 H1]. rewrite qnat_S. lra.
    + cbn [Nat.add]. lra.
Qed.

Lemma report_of_unit pa pb : Forall report_unit (report_of pa pb).
Proof.
  unfold report_of. apply Forall_map. apply Forall_forall. intros [k v] _.
  unfold report_unit. cbn [fst snd]. destruct (dict_get pb k) as [w|]; [|exact I].
  pose proof (obj_diff_score v w) as H. destruct (obj_diff v w). exact H.
Qed.

Lemma section_get_str k v b key : dict_get (section k v b) (KStr key) = None.
Proof. destruct b; reflexivity. Qed.

Lemma dict_get_app d1 d2 k :
  dict_get (d1 ++ d2) k = match dict_get d1 k with Some v => Some v | None => dict_get d2 k end.
Proof.
  induction d1 as [|[k' v'] d1 IH]; [reflexivity|].
  cbn [app dict_get]. destruct (key_eqb k' k); [reflexivity|exact IH].
Qed.

(** Two dictionaries that hold different scalars under a common key: the
    diff is a dictionary of sections, the key is in its update section with
    the new value, and the similarity is strictly between 0 and 1. *)
Lemma dict_substituted pa pb k va vb :
  dict_get pa k = Some va -> dict_get pb k = Some vb -> obj_diff va vb = (vb, 0%Q) ->
  exists s items changed,
    obj_diff (PDict pa) (PDict pb) = (PDict items, s)
    /\ (0 < s)%Q /\ (s < 1)%Q
    /\ (forall key, dict_get items (KStr key) = None)
    /\ In (KSym update_, PDict changed) items
    /\ dict_get changed k = Some vb.
Proof.
  intros Ha Hb Hd. rewrite obj_diff_dict. unfold dict_diff_finish. cbv zeta.
  set (r := report_of pa pb).
  pose proof (report_has_entry pa pb k va vb Ha Hb) as Hin. rewrite Hd in Hin. fold r in Hin.
  pose proof (report_of_unit pa pb) as Hunit. fold r in Hunit.
  pose proof (nmatched_has_entry r _ _ _ Hin) as Hnm.
  destruct (smatched_bounds r 0%Q Hunit) as [Hlo _].
  pose proof (smatched_upper_zero r 0%Q _ _ _ Hin Hunit) as Hhi.
  change (fold_left smatched_step r 0%Q) with (smatched_of r) in Hlo, Hhi.
  pose proof (qnat_le 1 (nmatched_of r) Hnm) as Hq1. change (qnat 1) with 1%Q in Hq1.
  destruct (length (removed_of r) + nmatched_of r + length (added_of pa pb))%nat
    as [|n] eqn:En; [lia|].
  pose proof (qnat_le (nmatched_of r) (S n) ltac:(lia)) as Hq2.
  pose proof (qnat_pos (S n) ltac:(lia)) as Hpos.
  set (s := (smatched_of r / inject_Z (Z.of_nat (S n)))%Q).
  assert (0 < s)%Q as Hs0.
  { unfold s. apply Qlt_shift_div_l; [exact Hpos|]. lra. }
  assert (s < 1)%Q as Hs1.
  { unfold s. apply Qlt_shift_div_r; [exact Hpos|]. fold (qnat (S n)). lra. }
  assert (dict_get (changed_of r) k = Some vb) as Hch.
  { pose proof (dict_get_changed pa pb k va vb Ha Hb) as H. rewrite Hd in H.
    apply H. reflexivity. }
  unfold emit_dict_diff.
  rewrite (Qeq_bool_false s 0) by lra. rewrite (Qeq_bool_false s 1) by lra.
  eexists s, _, (changed_of r). split; [reflexivity|].
  split; [exact Hs0|]. split; [exact Hs1|]. split; [|split; [|exact Hch]].
  - intros key. rewrite !dict_get_app, !section_get_str. reflexivity.
  - apply in_or_app. right. apply in_or_app. left.
    destruct (changed_of r) as [|c cs]; [discriminate|]. left. reflexivity.
Qed.

(** *** The JSON document of EXPLAIN: a list holding one object *)

Lemma qmax_right a b : (a <= b)%Q -> qmax a b = b.
Proof. intros H. unfold qmax. rewrite Qle_bool_true by exact H. reflexivity. Qed.

Lemma Qeq_bool_same a : Qeq_bool a a = true.
Proof. apply Qeq_bool_iff. reflexivity. Qed.

Lemma over_one a : (a / inject_Z (Z.of_nat 1) == a)%Q.
Proof.
  change (inject_Z (Z.of_nat 1)) with 1%Q. unfold Qdiv. change (/ 1)%Q with 1%Q. lra.
Qed.

(** Two one-element lists whose elements are somewhat alike: the walk back
    pairs the two elements. *)
Lemma walk_single x y d s :
  (0 < s)%Q ->
  list_diff_0 2 (lcs_matrix 1 [[s]]) [[(d, s)]] [x] [y] 1 1 = [Same d 0 s].
Proof.
  intros H0.
  assert (cell (lcs_matrix 1 [[s]]) 1 1 = (0 + s)%Q) as Hc11.
  { change (cell (lcs_matrix 1 [[s]]) 1 1) with (qmax (qmax 0 0) (0 + s)%Q).
    change (qmax 0 0) with 0%Q. apply qmax_right. lra. }
  assert (cell (lcs_matrix 1 [[s]]) 0 0 = 0%Q) as Hc00 by reflexivity.
  set (C := lcs_matrix 1 [[s]]) in *.
  cbn [list_diff_0 nth Nat.sub Nat.ltb Nat.leb andb].
  rewrite Hc11, Hc00, (qlt_bool_true 0 s H0), Qeq_bool_same. reflexivity.
Qed.

Lemma list_single x y d s :
  obj_diff x y = (d, s) -> (0 < s)%Q ->
  fst (obj_diff (PList [x]) (PList [y]))
  = emit_list_diff (PList [y]) ((0 + s) / inject_Z (Z.of_nat 1))%Q []
      (if qlt_bool s 1 then [(KInt 0, d)] else []) [].
Proof.
  intros E H0. rewrite obj_diff_list. cbn [table_of map]. rewrite E.
  unfold list_diff_finish. cbv zeta.
  cbn [length map snd Nat.add]. rewrite (walk_single x y d s H0).
  cbn [rev app fold_left list_step inserted deleted changed tot_s length fst].
  destruct (qlt_bool s 1); reflexivity.
Qed.

Lemma list_wrapped x y d s :
  obj_diff x y = (d, s) -> (0 < s)%Q -> (s < 1)%Q ->
  fst (obj_diff (PList [x]) (PList [y])) = PDict [(KInt 0, d)].
Proof.
  intros E H0 H1. rewrite (list_single x y d s E H0), (qlt_bool_true s 1 H1).
  unfold emit_list_diff. pose proof (over_one (0 + s)) as Ho.
  rewrite (Qeq_bool_false _ 0) by lra. rewrite (Qeq_bool_false _ 1) by lra. reflexivity.
Qed.

Lemma dict_single k a b d s :
  obj_diff a b = (d, s) ->
  obj_diff (PDict [(k, a)]) (PDict [(k, b)])
  = (emit_dict_diff (PDict [(k, b)]) ((0 + (0.5 + 0.5 * s)) / inject_Z (Z.of_nat 1))%Q []
       (if qlt_bool s 1 then [(k, d)] else []) [],
     ((0 + (0.5 + 0.5 * s)) / inject_Z (Z.of_nat 1))%Q).
Proof.
  intros E. rewrite obj_diff_dict.
  cbn [report_of map fst snd dict_get]. rewrite key_eqb_refl, E.
  unfold dict_diff_finish. cbv zeta.
  change (removed_of [(k, a, Some (d, s))]) with (@nil (pykey * pyval)).
  change (nmatched_of [(k, a, Some (d, s))]) with 1%nat.
  change (smatched_of [(k, a, Some (d, s))]) with (0 + (0.5 + 0.5 * s))%Q.
  assert (added_of [(k, a)] [(k, b)] = []) as ->.
  { unfold added_of, dict_mem. cbn [List.filter fst dict_get].
    rewrite key_eqb_refl. reflexivity. }
  rewrite changed_of_cons. change (changed_of []) with (@nil (pykey * pyval)).
  cbn [length Nat.add]. destruct (qlt_bool s 1); reflexivity.
Qed.

Lemma dict_wrapped k a b d s :
  obj_diff a b = (d, s) -> (0 < s)%Q -> (s < 1)%Q ->
  exists s', obj_diff (PDict [(k, a)]) (PDict [(k, b)])
             = (PDict [(KSym update_, PDict [(k, d)])], s')
             /\ (0 < s')%Q /\ (s' < 1)%Q.
Proof.
  intros E H0 H1. rewrite (dict_single k a b d s E), (qlt_bool_true s 1 H1).
  pose proof (over_one (0 + (0.5 + 0.5 * s))) as Ho.
  eexists. unfold emit_dict_diff.
  rewrite (Qeq_bool_false _ 0) by lra. rewrite (Qeq_bool_false _ 1) by lra.
  split; [reflexivity|]. split; lra.
Qed.

Lemma emit_list_diff_is_dict b s ins chg del :
  ~ (s == 0)%Q -> is_dict (emit_list_diff b s ins chg del).
Proof.
  intros H. unfold emit_list_diff. rewrite (Qeq_bool_false s 0 H).
  destruct (Qeq_bool s 1); eexists; reflexivity.
Qed.

(** The diff of two EXPLAIN documents is always a dictionary, so the search
    for ["Node Type"] never fails on it. *)
Lemma qep_diff_is_dict a b : is_dict (_compareQEPs (qep_of a) (qep_of b)).
Proof.
  unfold _compareQEPs, diff, qep_of.
  destruct (obj_diff a b) as [d s] eqn:E.
  pose proof (obj_diff_score a b) as Hs. rewrite E in Hs. destruct Hs as [H0 H1].
  cbn [snd] in H0, H1.
  pose proof (dict_single (KStr "Plan") a b d s E) as Ex.
  pose proof (over_one (0 + (0.5 + 0.5 * s))) as Ho.
  set (s' := ((0 + (0.5 + 0.5 * s)) / inject_Z (Z.of_nat 1))%Q) in *.
  clearbody s'.
  rewrite (list_single _ _ _ s' Ex) by lra.
  apply emit_list_diff_is_dict. pose proof (over_one (0 + s')). lra.
Qed.

(** A plan whose root operator kind is replaced is not judged equivalent. *)
Lemma root_substitution pa pb ka kb :
  dict_get pa (KStr "Node Type") = Some (PStr ka) ->
  dict_get pb (KStr "Node Type") = Some (PStr kb) ->
  ka <> kb ->
  similar (qep_of (PDict pa)) (qep_of (PDict pb)) = Ret false.
Proof.
  intros Ha Hb Hne.
  assert (obj_diff (PStr ka) (PStr kb) = (PStr kb, 0%Q)) as Hd.
  { cbn [obj_diff]. unfold value_diff. cbn [scalar_eqb].
    apply String.eqb_neq in Hne. rewrite Hne. reflexivity. }
  destruct (dict_substituted pa pb _ _ _ Ha Hb Hd)
    as (s & items & chg & EP & Hs0 & Hs1 & Hnone & Hin & Hchg).
  destruct (dict_wrapped (KStr "Plan") _ _ _ _ EP Hs0 Hs1) as (s' & Ex & Hs0' & Hs1').
  pose proof (list_wrapped _ _ _ _ Ex Hs0' Hs1') as El.
  apply similar_false. exists (PStr kb).
  unfold _compareQEPs, diff, qep_of. rewrite El.
  eapply found_below; [reflexivity|left; reflexivity|].
  eapply found_below; [reflexivity|left; reflexivity|].
  eapply found_below; [reflexivity|left; reflexivity|].
  eapply found_below; [apply Hnone|exact Hin|].
  apply found_here; [exact Hchg|discriminate].
Qed.

(** *** The matrix and the walk back of the list diff *)

Lemma qmax_lub a b c : (a <= c)%Q -> (b <= c)%Q -> (qmax a b <= c)%Q.
Proof. intros Ha Hb. unfold qmax. destruct (Qle_bool a b); assumption. Qed.

Lemma qmax_l a b : (a <= qmax a b)%Q.
Proof.
  unfold qmax. destruct (Qle_bool a b) eqn:E; [apply Qle_bool_iff in E; exact E|lra].
Qed.

Lemma qmax_r a b : (b <= qmax a b)%Q.
Proof.
  unfold qmax. destruct (Qle_bool a b) eqn:E; [lra|].
  assert (~ (a <= b)%Q) by (intros H; apply Qle_bool_iff in H; congruence). lra.
Qed.

Lemma qmax_cases a b : qmax a b = a \/ qmax a b = b.
Proof. unfold qmax. destruct (Qle_bool a b); auto. Qed.

Lemma row_go_cons left d u p s srow :
  row_go left (d :: u :: p) (s :: srow)
  = qmax (qmax left u) (d + s)%Q :: row_go (qmax (qmax left u) (d + s)%Q) (u :: p) srow.
Proof. reflexivity. Qed.

Lemma row_go_length srow : forall left prev,
  length prev = S (length srow) -> length (row_go left prev srow) = length srow.
Proof.
  induction srow as [|s srow IH]; intros left prev H.
  - destruct prev as [|d [|u p]]; reflexivity.
  - destruct prev as [|d [|u p]]; cbn [length] in H; try lia.
    rewrite row_go_cons. cbn [length]. f_equal. apply IH. cbn [length]. lia.
Qed.

Lemma row_go_nth srow : forall left prev j,
  length prev = S (length srow) -> (j < length srow)%nat ->
  nth j (row_go left prev srow) 0%Q
  = qmax (qmax (match j with
                | O => left
                | S j' => nth j' (row_go left prev srow) 0%Q
                end) (nth (S j) prev 0%Q))
         (nth j prev 0%Q + nth j srow 0%Q)%Q.
Proof.
  induction srow as [|s srow IH]; intros left prev j H Hj; [cbn in Hj; lia|].
  destruct prev as [|d [|u p]]; cbn [length] in H; try lia.
  rewrite row_go_cons. destruct j as [|j]; [reflexivity|].
  cbn [nth]. rewrite IH by (cbn [length] in *; lia).
  destruct j; reflexivity.
Qed.

Lemma next_row_length prev srow :
  length prev = S (length srow) -> length (next_row prev srow) = S (length srow).
Proof. intros H. unfold next_row. cbn [length]. rewrite row_go_length by exact H. reflexivity. Qed.

Lemma next_row_nth prev srow j :
  length prev = S (length srow) -> (j < length srow)%nat ->
  nth (S j) (next_row prev srow) 0%Q
  = qmax (qmax (nth j (next_row prev srow) 0%Q) (nth (S j) prev 0%Q))
         (nth j prev 0%Q + nth j srow 0%Q)%Q.
Proof.
  intros H Hj. unfold next_row. cbn [nth]. rewrite row_go_nth by assumption.
  destruct j; reflexivity.
Qed.

Lemma rows_from_nth Sc : forall prev i n,
  length prev = S n -> Forall (fun r => length r = n) Sc -> (i < length Sc)%nat ->
  nth i (rows_from prev Sc) [] = next_row (nth i (prev :: rows_from prev Sc) []) (nth i Sc [])
  /\ length (nth i (rows_from prev Sc) []) = S n.
Proof.
  induction Sc as [|srow Sc IH]; intros prev i n Hp HS Hi; [cbn in Hi; lia|].
  apply Forall_cons in HS as [Hrow HS]. cbn [rows_from].
  assert (length (next_row prev srow) = S n) as Hr
    by (rewrite next_row_length; rewrite Hrow; [reflexivity|exact Hp]).
  destruct i as [|i]; [cbn [nth]; split; [reflexivity|exact Hr]|].
  cbn [length] in Hi.
  destruct (IH (next_row prev srow) i n Hr HS ltac:(lia)) as [E L].
  cbn [nth]. split; [|exact L]. rewrite E. reflexivity.
Qed.

Section Matrix.
Variable n : nat.
Variable Sc : list (list Q).
Hypothesis rows : Forall (fun r => length r = n) Sc.

Let C := lcs_matrix n Sc.

Lemma nth_repeat_zero k j : nth j (repeat 0%Q k) 0%Q = 0%Q.
Proof. revert j. induction k as [|k IH]; intros [|j]; cbn; auto. Qed.

Lemma cell_top j : cell C 0 j = 0%Q.
Proof. unfold cell, C, lcs_matrix. cbn [nth]. apply nth_repeat_zero. Qed.

Lemma matrix_row i :
  (i < length Sc)%nat ->
  nth (S i) C [] = next_row (nth i C []) (nth i Sc [])
  /\ length (nth i C []) = S n.
Proof.
  intros Hi. unfold C, lcs_matrix. cbn zeta.
  assert (length (repeat 0%Q (n + 1)) = S n) as H0 by (rewrite repeat_length; lia).
  change (nth (S i) (repeat 0%Q (n + 1) :: rows_from (repeat 0%Q (n + 1)) Sc) [])
    with (nth i (rows_from (repeat 0%Q (n + 1)) Sc) []).
  destruct (rows_from_nth Sc _ i n H0 rows Hi) as [E _]. split; [exact E|].
  destruct i as [|i]; [exact H0|].
  change (nth (S i) (repeat 0%Q (n + 1) :: rows_from (repeat 0%Q (n + 1)) Sc) [])
    with (nth i (rows_from (repeat 0%Q (n + 1)) Sc) []).
  apply (rows_from_nth Sc _ i n H0 rows). lia.
Qed.

Lemma row_of_scores i : (i < length Sc)%nat -> length (nth i Sc []) = n.
Proof.
  intros Hi. rewrite Forall_forall in rows. apply rows, list_elem_of_In, nth_In, Hi.
Qed.

Lemma cell_left i : (i <= length Sc)%nat -> cell C i 0 = 0%Q.
Proof.
  intros Hi. destruct i as [|i]; [apply cell_top|].
  unfold cell. destruct (matrix_row i ltac:(lia)) as [-> _]. reflexivity.
Qed.

Lemma cell_step i j :
  (i < length Sc)%nat -> (j < n)%nat ->
  cell C (S i) (S j)
  = qmax (qmax (cell C (S i) j) (cell C i (S j)))
         (cell C i j + nth j (nth i Sc []) 0%Q)%Q.
Proof.
  intros Hi Hj. unfold cell. destruct (matrix_row i Hi) as [-> L].
  pose proof (row_of_scores i Hi) as Hrow.
  apply next_row_nth; rewrite Hrow; [exact L|exact Hj].
Qed.

Hypothesis unit_scores : forall i j, unit_score (nth j (nth i Sc []) 0%Q).

Lemma cell_bound i :
  (i <= length Sc)%nat -> forall j, (j <= n)%nat -> (cell C i j <= qnat (Nat.min i j))%Q.
Proof.
  induction i as [|i IHi]; intros Hi j Hj.
  - rewrite cell_top. change (qnat (Nat.min 0 j)) with 0%Q. lra.
  - induction j as [|j IHj].
    + rewrite cell_left by exact Hi. rewrite Nat.min_0_r. change (qnat 0) with 0%Q. lra.
    + rewrite cell_step by lia.
      pose proof (IHj ltac:(lia)) as Hl.
      pose proof (IHi ltac:(lia) (S j) Hj) as Hu.
      pose proof (IHi ltac:(lia) j ltac:(lia)) as Hd.
      destruct (unit_scores i j) as [_ Hs].
      pose proof (qnat_le (Nat.min (S i) j) (Nat.min (S i) (S j)) ltac:(lia)).
      pose proof (qnat_le (Nat.min i (S j)) (Nat.min (S i) (S j)) ltac:(lia)).
      assert (qnat (Nat.min (S i) (S j)) == qnat (Nat.min i j) + 1)%Q as E
        by (rewrite <- Nat.succ_min_distr; apply qnat_S).
      repeat apply qmax_lub; lra.
Qed.

Lemma cell_nonneg i : (i <= length Sc)%nat -> forall j, (j <= n)%nat -> (0 <= cell C i j)%Q.
Proof.
  induction i as [|i IH]; intros Hi j Hj; [rewrite cell_top; lra|].
  destruct j as [|j]; [rewrite cell_left by exact Hi; lra|].
  rewrite cell_step by lia.
  pose proof (IH ltac:(lia) j ltac:(lia)) as Hd. destruct (unit_scores i j) as [Hs _].
  pose proof (qmax_r (qmax (cell C (S i) j) (cell C i (S j)))
                (cell C i j + nth j (nth i Sc []) 0%Q)%Q) as Hm.
  lra.
Qed.

Lemma cell_up i j : (i < length Sc)%nat -> (j <= n)%nat -> (cell C i j <= cell C (S i) j)%Q.
Proof.
  intros Hi Hj. destruct j as [|j]; [rewrite !cell_left by lia; lra|].
  rewrite cell_step by lia.
  pose proof (qmax_r (cell C (S i) j) (cell C i (S j))) as H1.
  pose proof (qmax_l (qmax (cell C (S i) j) (cell C i (S j)))
                (cell C i j + nth j (nth i Sc []) 0%Q)%Q) as H2.
  lra.
Qed.

Lemma cell_right i j : (i <= length Sc)%nat -> (j < n)%nat -> (cell C i j <= cell C i (S j))%Q.
Proof.
  intros Hi Hj. destruct i as [|i]; [rewrite !cell_top; lra|].
  rewrite cell_step by lia.
  pose proof (qmax_l (cell C (S i) j) (cell C i (S j))) as H1.
  pose proof (qmax_l (qmax (cell C (S i) j) (cell C i (S j)))
                (cell C i j + nth j (nth i Sc []) 0%Q)%Q) as H2.
  lra.
Qed.

(** When the scores on the diagonal add up to more than any other pairing can
    reach, the matrix follows the diagonal. *)
Hypothesis square : length Sc = n.
Let score (t : nat) : Q := nth t (nth t Sc []) 0%Q.
Hypothesis diagonal : forall i, (i < n)%nat -> (qnat i < diag_sum score (S i))%Q.

Lemma cell_diagonal i :
  (i <= n)%nat ->
  (cell C i i == diag_sum score i)%Q
  /\ match i with
     | O => True
     | S i' => cell C i i = (cell C i' i' + score i')%Q
     end.
Proof.
  induction i as [|i IH]; intros Hi.
  - rewrite cell_top. split; [reflexivity|exact I].
  - destruct (IH ltac:(lia)) as [E _].
    assert (cell C (S i) (S i) = (cell C i i + score i)%Q) as Hstep.
    { rewrite cell_step by lia. apply qmax_right.
      pose proof (cell_bound (S i) ltac:(lia) i ltac:(lia)) as Hl.
      pose proof (cell_bound i ltac:(lia) (S i) ltac:(lia)) as Hu.
      rewrite Nat.min_r in Hl by lia. rewrite Nat.min_l in Hu by lia.
      pose proof (diagonal i ltac:(lia)) as Hd. cbn [diag_sum] in Hd.
      fold (score i). apply qmax_lub; lra. }
    split; [|exact Hstep]. rewrite Hstep. cbn [diag_sum]. rewrite E. reflexivity.
Qed.

End Matrix.

Lemma diag_sum_ext f g i :
  (forall t, (t < i)%nat -> f t = g t) -> diag_sum f i = diag_sum g i.
Proof.
  induction i as [|i IH]; intros H; [reflexivity|].
  cbn [diag_sum]. rewrite IH, H by (intros; try apply H; lia). reflexivity.
Qed.

Lemma scores_nth T i j :
  nth j (nth i (map (map snd) T) []) 0%Q = snd (nth j (nth i T []) (PNone, 0%Q)).
Proof.
  change (@nil Q) with (map (@snd pyval Q) []). rewrite map_nth.
  change 0%Q with (snd (PNone, 0%Q)) at 1. apply map_nth.
Qed.

Lemma walk_diagonal C T X Y n :
  (forall t, (t < n)%nat ->
     (0 < snd (pair_at T t))%Q
     /\ cell C (S t) (S t) = (cell C t t + snd (pair_at T t))%Q) ->
  forall i k, (i <= n)%nat ->
  list_diff_0 (i + k) C T X Y i i = map (same_at T) (rev (seq 0 i)).
Proof.
  intros H. induction i as [|i IH]; intros k Hi.
  - destruct k as [|k]; [reflexivity|]. cbn [Nat.add list_diff_0].
    destruct (nth (0 - 1) (nth (0 - 1) T []) (PNone, 0%Q)). reflexivity.
  - rewrite seq_S, rev_app_distr. cbn [Nat.add list_diff_0 rev app map].
    replace (S i - 1)%nat with i by lia.
    destruct (H i ltac:(lia)) as [Hpos Hcell]. unfold same_at at 1.
    unfold pair_at in Hpos, Hcell |- * at 1 2.
    destruct (nth i (nth i T []) (PNone, 0%Q)) as [d s]. cbn [fst snd] in *.
    rewrite Hcell, (qlt_bool_true 0 s Hpos), Qeq_bool_same.
    cbn [Nat.ltb Nat.leb andb]. f_equal. apply IH. lia.
Qed.

Lemma fold_diagonal T i acc :
  let acc' := fold_left list_step (map (same_at T) (seq 0 i)) acc in
  inserted acc' = inserted acc /\ deleted acc' = deleted acc
  /\ (tot_s acc' == tot_s acc + diag_sum (fun t => snd (pair_at T t)) i)%Q
  /\ (forall kv, In kv (changed acc') <->
        In kv (changed acc)
        \/ exists t, (t < i)%nat /\ (snd (pair_at T t) < 1)%Q
                     /\ kv = (KInt (Z.of_nat t), fst (pair_at T t))).
Proof.
  induction i as [|i IH]; cbv zeta.
  - cbn [seq map fold_left diag_sum]. repeat split; try reflexivity; try lra; auto.
    intros [H|(t & Ht & _)]; [exact H|lia].
  - rewrite seq_S, map_app, fold_left_app. cbn [map fold_left Nat.add].
    cbv zeta in IH. destruct IH as (Hi & Hd & Hs & Hc).
    set (acc1 := fold_left list_step (map (same_at T) (seq 0 i)) acc) in *.
    unfold same_at at 1 2 3 4. cbn [list_step inserted deleted tot_s changed diag_sum].
    split; [exact Hi|]. split; [exact Hd|]. split; [rewrite Hs; lra|].
    intros kv. destruct (qlt_bool (snd (pair_at T i)) 1) eqn:E.
    + assert (snd (pair_at T i) < 1)%Q as Hlt.
      { unfold qlt_bool in E. apply negb_true_iff in E.
        destruct (Qlt_le_dec (snd (pair_at T i)) 1) as [L|L]; [exact L|].
        apply Qle_bool_iff in L. congruence. }
      rewrite in_app_iff, Hc. cbn [In]. split.
      * intros [[H|(t & Ht & Hl & ->)]|[<-|[]]]; [left; exact H| |].
        -- right. exists t. split; [lia|]. split; [exact Hl|reflexivity].
        -- right. exists i. split; [lia|]. split; [exact Hlt|reflexivity].
      * intros [H|(t & Ht & Hl & ->)]; [left; left; exact H|].
        destruct (Nat.eq_dec t i) as [->|Hne]; [right; left; reflexivity|].
        left. right. exists t. split; [lia|]. split; [exact Hl|reflexivity].
    + assert (~ (snd (pair_at T i) < 1)%Q) as Hge.
      { intros L. rewrite (qlt_bool_true _ _ L) in E. discriminate. }
      rewrite Hc. split.
      * intros [H|(t & Ht & Hl & ->)]; [left; exact H|].
        right. exists t. split; [lia|]. split; [exact Hl|reflexivity].
      * intros [H|(t & Ht & Hl & ->)]; [left; exact H|].
        destruct (Nat.eq_dec t i) as [->|Hne]; [contradiction|].
        right. exists t. split; [lia|]. split; [exact Hl|reflexivity].
Qed.

Lemma table_nth xa xb i j :
  (i < length xa)%nat -> (j < length xb)%nat ->
  nth j (nth i (table_of xa xb) []) (PNone, 0%Q) = obj_diff (nth i xa PNone) (nth j xb PNone).
Proof.
  intros Hi Hj. unfold table_of.
  rewrite (nth_indep _ [] (map (obj_diff PNone) xb)) by (rewrite length_map; exact Hi).
  rewrite (map_nth (fun x => map (obj_diff x) xb)).
  rewrite (nth_indep _ (PNone, 0%Q) (obj_diff (nth i xa PNone) PNone))
    by (rewrite length_map; exact Hj).
  apply map_nth.
Qed.

Lemma table_rows xa xb :
  Forall (fun r => length r = length xb) (map (map snd) (table_of xa xb)).
Proof.
  unfold table_of. rewrite Forall_forall. intros r Hr.
  apply list_elem_of_In, in_map_iff in Hr as (row & <- & Hrow).
  apply in_map_iff in Hrow as (x & <- & _). rewrite !length_map. reflexivity.
Qed.

Lemma table_scores xa xb i j :
  unit_score (nth j (nth i (map (map snd) (table_of xa xb)) []) 0%Q).
Proof.
  rewrite scores_nth. apply table_unit. apply Forall_forall. intros x _ b. apply obj_diff_score.
Qed.

(** Two lists of the same length whose elements at the same positions are
    alike enough: the walk pairs every element with the one at its position,
    nothing is inserted or deleted. *)
Lemma list_diff_diagonal xa xb b :
  length xa = length xb ->
  let T := table_of xa xb in
  let score := fun t => snd (pair_at T t) in
  (forall t, (t < length xb)%nat -> (0 < score t)%Q) ->
  (forall i, (i < length xb)%nat -> (qnat i < diag_sum score (S i))%Q) ->
  exists chg s,
    list_diff_finish xa xb b T = (emit_list_diff b s [] chg [], s)
    /\ match length xb with
       | O => s = 1%Q
       | S _ => (s == diag_sum score (length xb) / qnat (length xb))%Q
       end
    /\ (forall kv, In kv chg <->
          exists t, (t < length xb)%nat /\ (score t < 1)%Q
                    /\ kv = (KInt (Z.of_nat t), fst (pair_at T t))).
Proof.
  intros Hlen T score Hpos Hdiag.
  set (n := length xb) in *.
  set (Sc := map (map snd) T).
  assert (length Sc = n) as Hsq by (unfold Sc, T, table_of; rewrite !length_map; exact Hlen).
  assert (forall t, nth t (nth t Sc []) 0%Q = score t) as Hsc
    by (intros t; apply scores_nth).
  assert (forall i, (i < n)%nat ->
            (qnat i < diag_sum (fun t => nth t (nth t Sc []) 0%Q) (S i))%Q) as Hdiag'.
  { intros i Hi. rewrite (diag_sum_ext _ score) by (intros; apply Hsc). apply Hdiag, Hi. }
  pose proof (fun i => cell_diagonal n Sc (table_rows xa xb) (table_scores xa xb) Hsq Hdiag' i)
    as Hcell.
  unfold list_diff_finish. cbv zeta. rewrite Hlen. fold n. fold Sc.
  rewrite (walk_diagonal (lcs_matrix n Sc) T xa xb n).
  2:{ intros t Ht. split; [apply Hpos, Ht|].
      destruct (Hcell (S t) ltac:(lia)) as [_ E]. rewrite E, Hsc. reflexivity. }
  2:{ lia. }
  rewrite <- map_rev, rev_involutive.
  set (acc0 := {| inserted := []; deleted := []; changed := []; tot_s := 0%Q |}).
  destruct (fold_diagonal T n acc0) as (Hi & Hd & Hs & Hc).
  set (acc := fold_left list_step (map (same_at T) (seq 0 n)) acc0) in *.
  rewrite Hi, Hd. cbn [acc0 inserted deleted length Nat.add].
  exists (changed acc). eexists. split; [reflexivity|]. split.
  - rewrite Nat.add_0_r. destruct n as [|n']; [reflexivity|].
    rewrite Hs. cbn [acc0 tot_s]. fold (qnat (S n')). fold score.
    apply Qeq_refl || (unfold Qdiv; lra).
  - intros kv. rewrite Hc. cbn [acc0 changed In]. fold score. tauto.
Qed.

(** *** A value against itself *)

Lemma keys_distinct_dict k x d :
  keys_distinct (PDict ((k, x) :: d))
  = negb (dict_mem d k) && keys_distinct x && keys_distinct (PDict d).
Proof. reflexivity. Qed.

Lemma keys_distinct_list x l :
  keys_distinct (PList (x :: l)) = keys_distinct x && keys_distinct (PList l).
Proof. reflexivity. Qed.

Lemma keys_distinct_tuple x l :
  keys_distinct (PTuple (x :: l)) = keys_distinct x && keys_distinct (PTuple l).
Proof. reflexivity. Qed.

Lemma keys_distinct_elements l :
  keys_distinct (PList l) = true -> forall x, In x l -> keys_distinct x = true.
Proof.
  induction l as [|y l IH]; intros H x; [intros []|].
  rewrite keys_distinct_list in H. apply andb_prop in H as [Hy Hl].
  intros [<-|Hin]; [exact Hy|apply IH; assumption].
Qed.

Lemma keys_distinct_members l :
  keys_distinct (PTuple l) = true -> forall x, In x l -> keys_distinct x = true.
Proof.
  induction l as [|y l IH]; intros H x; [intros []|].
  rewrite keys_distinct_tuple in H. apply andb_prop in H as [Hy Hl].
  intros [<-|Hin]; [exact Hy|apply IH; assumption].
Qed.

Lemma dict_mem_In d k v : In (k, v) d -> dict_mem d k = true.
Proof.
  unfold dict_mem. induction d as [|[k' v'] d IH]; [intros []|].
  cbn [dict_get]. intros [[= -> ->]|Hin]; [rewrite key_eqb_refl; reflexivity|].
  destruct (key_eqb k' k); [reflexivity|apply IH, Hin].
Qed.

Lemma keys_distinct_values d :
  keys_distinct (PDict d) = true ->
  forall k v, In (k, v) d -> dict_get d k = Some v /\ keys_distinct v = true.
Proof.
  induction d as [|[k' v'] d IH]; intros H k v; [intros []|].
  rewrite keys_distinct_dict in H. apply andb_prop in H as [H Hd].
  apply andb_prop in H as [Hk Hv]. apply negb_true_iff in Hk.
  cbn [dict_get]. intros [[= -> ->]|Hin].
  - rewrite key_eqb_refl. auto.
  - destruct (key_eqb k' k) eqn:E; [|apply IH; assumption].
    apply key_eqb_eq in E. subst k'. rewrite (dict_mem_In d k v Hin) in Hk. discriminate.
Qed.

Lemma diag_sum_ones score i :
  (forall t, (t < i)%nat -> (score t == 1)%Q) -> (diag_sum score i == qnat i)%Q.
Proof.
  induction i as [|i IH]; intros H; [reflexivity|].
  cbn [diag_sum]. rewrite IH, H, qnat_S by (intros; try apply H; lia). reflexivity.
Qed.

Lemma qnat_div_same n : (0 < n)%nat -> (qnat n / qnat n == 1)%Q.
Proof. intros H. pose proof (qnat_pos n H). field. lra. Qed.

Lemma emit_list_diff_same b s : (s == 1)%Q -> emit_list_diff b s [] [] [] = PDict [].
Proof.
  intros H. unfold emit_list_diff. rewrite (Qeq_bool_false s 0) by lra.
  destruct (Qeq_bool s 1) eqn:E; [reflexivity|].
  apply Qeq_bool_neq in E. contradiction.
Qed.

Lemma list_diff_same l b :
  (forall x, In x l -> (snd (obj_diff x x) == 1)%Q) ->
  fst (list_diff_finish l l b (table_of l l)) = PDict []
  /\ (snd (list_diff_finish l l b (table_of l l)) == 1)%Q.
Proof.
  intros H.
  assert (forall t, (t < length l)%nat -> (snd (pair_at (table_of l l) t) == 1)%Q) as Hone.
  { intros t Ht. unfold pair_at. rewrite table_nth by exact Ht. apply H, nth_In, Ht. }
  destruct (list_diff_diagonal l l b eq_refl) as (chg & s & E & Hs & Hc).
  - intros t Ht. rewrite (Hone t Ht). lra.
  - intros i Hi. rewrite diag_sum_ones, qnat_S by (intros; apply Hone; lia). lra.
  - assert (chg = []) as ->.
    { destruct chg as [|kv chg]; [reflexivity|].
      destruct (proj1 (Hc kv) (or_introl eq_refl)) as (t & Ht & Hlt & _).
      rewrite (Hone t Ht) in Hlt. lra. }
    assert (s == 1)%Q as Hs1.
    { destruct (length l) as [|n] eqn:En; [subst s; reflexivity|].
      rewrite Hs, diag_sum_ones by (intros; apply Hone; lia).
      apply qnat_div_same. lia. }
    rewrite E. cbn [fst snd]. split; [apply emit_list_diff_same|]; exact Hs1.
Qed.

Lemma removed_of_cons k v o r :
  removed_of ((k, v, o) :: r)
  = match o with
    | Some _ => removed_of r
    | None => (k, v) :: removed_of r
    end.
Proof. destruct o; reflexivity. Qed.

Lemma report_of_cons k v da db :
  report_of ((k, v) :: da) db
  = (k, v, match dict_get db k with
           | Some w => Some (obj_diff v w)
           | None => None
           end) :: report_of da db.
Proof. reflexivity. Qed.

Lemma report_same da db :
  (forall k v, In (k, v) da -> dict_get db k = Some v /\ (snd (obj_diff v v) == 1)%Q) ->
  removed_of (report_of da db) = [] /\ changed_of (report_of da db) = []
  /\ nmatched_of (report_of da db) = length da
  /\ forall acc, (fold_left smatched_step (report_of da db) acc == acc + qnat (length da))%Q.
Proof.
  induction da as [|[k v] da IH]; intros H.
  - repeat split. intros acc. cbn. change (qnat 0) with 0%Q. lra.
  - destruct (H k v (or_introl eq_refl)) as [Hg Hs].
    destruct IH as (Hr & Hc & Hn & Hf); [intros; apply H; right; assumption|].
    rewrite report_of_cons, Hg, removed_of_cons, changed_of_cons, nmatched_cons.
    destruct (obj_diff v v) as [d s] eqn:E. cbn [snd] in Hs |- *.
    assert (qlt_bool s 1 = false) as ->.
    { unfold qlt_bool. rewrite Qle_bool_true by lra. reflexivity. }
    rewrite Hn. repeat split; try assumption.
    intros acc. cbn [fold_left smatched_step length]. rewrite Hf, qnat_S, Hs. lra.
Qed.

Lemma added_of_none a b :
  (forall kv, In kv b -> dict_mem a (fst kv) = true) -> added_of a b = [].
Proof.
  unfold added_of. induction b as [|kv b IH]; intros H; [reflexivity|].
  cbn [List.filter]. rewrite (H kv (or_introl eq_refl)). cbn [negb].
  apply IH. intros; apply H; right; assumption.
Qed.

Lemma dict_diff_same d :
  (forall k v, In (k, v) d -> dict_get d k = Some v /\ (snd (obj_diff v v) == 1)%Q) ->
  fst (obj_diff (PDict d) (PDict d)) = PDict [] /\ (snd (obj_diff (PDict d) (PDict d)) == 1)%Q.
Proof.
  intros H. rewrite obj_diff_dict. unfold dict_diff_finish. cbv zeta.
  destruct (report_same d d H) as (-> & -> & -> & Hf).
  rewrite added_of_none by (intros [k v] Hin; eapply dict_mem_In, Hin).
  change (smatched_of (report_of d d)) with (fold_left smatched_step (report_of d d) 0%Q).
  cbn [length Nat.add fst snd]. rewrite Nat.add_0_r.
  assert ((match length d with
           | O => 1
           | S _ => fold_left smatched_step (report_of d d) 0 / inject_Z (Z.of_nat (length d))
           end == 1)%Q) as Hs.
  { destruct (length d) as [|n] eqn:En; [reflexivity|].
    rewrite Hf. fold (qnat (S n)). rewrite Qplus_0_l. apply qnat_div_same. lia. }
  split; [|exact Hs]. unfold emit_dict_diff.
  rewrite (Qeq_bool_false _ 0) by lra.
  destruct (Qeq_bool _ 1) eqn:E; [reflexivity|]. apply Qeq_bool_neq in E. contradiction.
Qed.

(** A value compared with itself: the diff is empty and the similarity 1. *)
Lemma obj_diff_same x :
  keys_distinct x = true ->
  fst (obj_diff x x) = PDict [] /\ (snd (obj_diff x x) == 1)%Q.
Proof.
  induction x as [ |b|q|s|y|l IH|l IH|d IH] using pyval_ind'; intros H.
  - split; reflexivity.
  - cbn [obj_diff]. unfold value_diff. cbn [scalar_eqb]. destruct b; split; reflexivity.
  - cbn [obj_diff]. unfold value_diff. cbn [scalar_eqb]. rewrite Qeq_bool_same.
    split; reflexivity.
  - cbn [obj_diff]. unfold value_diff. cbn [scalar_eqb]. rewrite String.eqb_refl.
    split; reflexivity.
  - cbn [obj_diff]. unfold value_diff. destruct y; split; reflexivity.
  - rewrite obj_diff_list. apply list_diff_same. intros x Hx.
    rewrite Forall_forall in IH. apply IH; [apply list_elem_of_In, Hx|].
    apply (keys_distinct_elements l H x Hx).
  - rewrite obj_diff_tuple. apply list_diff_same. intros x Hx.
    rewrite Forall_forall in IH. apply IH; [apply list_elem_of_In, Hx|].
    apply (keys_distinct_members l H x Hx).
  - apply dict_diff_same. intros k v Hin.
    destruct (keys_distinct_values d H k v Hin) as [Hg Hv]. split; [exact Hg|].
    rewrite Forall_forall in IH. apply (IH (k, v)); [apply list_elem_of_In, Hin|exact Hv].
Qed.

Lemma diag_sum_one_off score p s i :
  (forall t, (t < i)%nat -> t <> p -> (score t == 1)%Q) -> (score p == s)%Q ->
  (diag_sum score i == if (i <=? p)%nat then qnat i else qnat i - 1 + s)%Q.
Proof.
  intros H Hp. induction i as [|i IH]; [reflexivity|].
  cbn [diag_sum]. rewrite IH by (intros; apply H; lia). pose proof (qnat_S i) as HS.
  destruct (Nat.leb_spec i p) as [Hi|Hi]; destruct (Nat.leb_spec (S i) p) as [Hi'|Hi'];
    try lia.
  - rewrite H by lia. lra.
  - assert (i = p) as -> by lia. rewrite Hp. lra.
  - rewrite H by lia. lra.
Qed.

(** *** What the search reaches in the diff of two lists *)

Lemma walk_from_table fuel C T X Y i j :
  Forall (edit_from T) (list_diff_0 fuel C T X Y i j).
Proof.
  revert i j. induction fuel as [|fuel IH]; intros i j; cbn [list_diff_0]; [constructor|].
  destruct (nth (j - 1) (nth (i - 1) T []) (PNone, 0%Q)) as [d s] eqn:E.
  destruct ((0 <? i)%nat && (0 <? j)%nat && qlt_bool 0 s
            && Qeq_bool (cell C i j) (cell C (i - 1) (j - 1) + s)).
  - constructor; [|apply IH]. exists (i - 1)%nat, (j - 1)%nat. rewrite E. reflexivity.
  - destruct ((0 <? j)%nat && ((i =? 0)%nat || Qle_bool (cell C (i - 1) j) (cell C i (j - 1)))).
    + constructor; [exact I|apply IH].
    + destruct ((0 <? i)%nat
                && ((j =? 0)%nat || qlt_bool (cell C i (j - 1)) (cell C (i - 1) j))).
      * constructor; [exact I|apply IH].
      * constructor.
Qed.

Lemma fold_step_from_table T r acc :
  Forall (edit_from T) r ->
  Forall (fun kv => from_table T (snd kv)) (changed acc) -> position_keys (changed acc) ->
  Forall (fun kv => from_table T (snd kv)) (changed (fold_left list_step r acc))
  /\ position_keys (changed (fold_left list_step r acc)).
Proof.
  intros Hr. revert acc. induction Hr as [|e r He _ IH]; intros acc Hc Hk; [auto|].
  cbn [fold_left]. apply IH; destruct e as [d pos s|v pos|v pos]; cbn [list_step changed];
    try assumption.
  - destruct (qlt_bool s 1); [|exact Hc]. apply Forall_app. split; [exact Hc|].
    constructor; [exact He|constructor].
  - destruct (qlt_bool s 1); [|exact Hk]. apply Forall_app. split; [exact Hk|].
    constructor; [eexists; reflexivity|constructor].
Qed.

Lemma position_keys_get chg key : position_keys chg -> dict_get chg (KStr key) = None.
Proof.
  induction 1 as [|[k v] chg [n Hk] _ IH]; [reflexivity|]. cbn in Hk. subst k. exact IH.
Qed.

Lemma found_in_emit_list_diff key b s ins chg del v :
  ~ is_dict b -> position_keys chg ->
  found_in key (emit_list_diff b s ins chg del) v ->
  exists kv, In kv chg /\ found_in key (snd kv) v.
Proof.
  intros Hb Hk. unfold emit_list_diff.
  destruct (Qeq_bool s 0).
  { intros H. inversion H; subst; exfalso; apply Hb; eexists; reflexivity. }
  destruct (Qeq_bool s 1).
  { intros H. inversion H as [d v' Hg _|d k d' v' _ Hin _]; subst; [discriminate|destruct Hin]. }
  intros H. inversion H as [d v' Hg Hv|d k d' v' Hg Hin Hf]; subst.
  - rewrite !dict_get_app, (position_keys_get _ _ Hk), !section_get_str in Hg. discriminate.
  - apply in_app_or in Hin as [Hin|Hin]; [exists (k, PDict d'); auto|].
    exfalso. apply in_app_or in Hin as [Hin|Hin]; unfold section in Hin;
      [destruct (nonempty ins)|destruct (nonempty del)]; cbn in Hin;
      try destruct Hin as [Hin|[]]; try discriminate; try contradiction.
Qed.

Lemma found_in_list_diff_finish key X Y b T v :
  ~ is_dict b ->
  found_in key (fst (list_diff_finish X Y b T)) v ->
  exists d, from_table T d /\ found_in key d v.
Proof.
  intros Hb. unfold list_diff_finish. cbv zeta. cbn [fst].
  set (r := list_diff_0 _ _ T X Y _ _).
  set (acc0 := {| inserted := []; deleted := []; changed := []; tot_s := 0%Q |}).
  destruct (fold_step_from_table T (rev r) acc0) as [Hc Hk].
  { apply Forall_forall. intros e He. apply list_elem_of_In, in_rev, list_elem_of_In in He.
    revert e He. apply Forall_forall, walk_from_table. }
  { constructor. }
  { constructor. }
  intros H. apply found_in_emit_list_diff in H as (kv & Hin & Hf); [|exact Hb|exact Hk].
  rewrite Forall_forall in Hc. exists (snd kv). split; [|exact Hf].
  apply Hc, list_elem_of_In, Hin.
Qed.

Lemma table_of_entry xa xb d key v :
  from_table (table_of xa xb) d -> found_in key d v ->
  exists x y, In x xa /\ In y xb /\ d = fst (obj_diff x y).
Proof.
  intros (i & j & ->) Hf. unfold table_of in *.
  destruct (nth_in_or_default i (map (fun x => map (obj_diff x) xb) xa) []) as [Hi|Hi].
  - apply in_map_iff in Hi as (x & Ex & Hx). rewrite <- Ex in *.
    destruct (nth_in_or_default j (map (obj_diff x) xb) (PNone, 0%Q)) as [Hj|Hj].
    + apply in_map_iff in Hj as (y & Ey & Hy). exists x, y. rewrite <- Ey. auto.
    + rewrite Hj in Hf. inversion Hf.
  - rewrite Hi in Hf. destruct j; cbn in Hf; inversion Hf.
Qed.

Lemma list_diff_finds_in_a_pair key xa xb v :
  found_in key (_compareQEPs (PList xa) (PList xb)) v ->
  exists x y, In x xa /\ In y xb /\ found_in key (_compareQEPs x y) v.
Proof.
  unfold _compareQEPs, diff. rewrite obj_diff_list. intros H.
  apply found_in_list_diff_finish in H as (d & Hd & Hf).
  - destruct (table_of_entry _ _ _ _ _ Hd Hf) as (x & y & Hx & Hy & ->). eauto.
  - intros [d E]. discriminate.
Qed.

(** *** One element replaced *)

(** A list in which one element is replaced by another that is somewhat like
    it: the diff holds the diff of the two elements under their position. *)
Lemma list_one_replaced xa p y d s :
  (p < length xa)%nat ->
  (forall x, In x xa -> (snd (obj_diff x x) == 1)%Q) ->
  obj_diff (nth p xa PNone) y = (d, s) -> (0 < s)%Q -> (s < 1)%Q ->
  exists items s',
    obj_diff (PList xa) (PList (<[p:=y]> xa)) = (PDict items, s')
    /\ (0 < s')%Q /\ (s' < 1)%Q
    /\ (forall key, dict_get items (KStr key) = None)
    /\ In (KInt (Z.of_nat p), d) items.
Proof.
  intros Hp Hself Ed H0 H1. set (xb := <[p:=y]> xa).
  assert (length xa = length xb) as Hlen by (unfold xb; rewrite length_insert; reflexivity).
  assert (forall t, (t < length xb)%nat ->
            pair_at (table_of xa xb) t
            = if Nat.eq_dec t p then (d, s) else obj_diff (nth t xa PNone) (nth t xa PNone))
    as Hpair.
  { intros t Ht. unfold pair_at. rewrite table_nth by lia. unfold xb.
    destruct (Nat.eq_dec t p) as [->|Hne].
    - rewrite (nth_lookup_Some _ _ PNone y (list_lookup_insert_eq xa p y Hp)). exact Ed.
    - rewrite (nth_lookup (<[p:=y]> xa)), list_lookup_insert_ne, <- nth_lookup by congruence.
      reflexivity. }
  assert (forall t, (t < length xb)%nat -> t <> p ->
            (snd (pair_at (table_of xa xb) t) == 1)%Q) as Hone.
  { intros t Ht Hne. rewrite Hpair by exact Ht.
    destruct (Nat.eq_dec t p); [contradiction|]. apply Hself, nth_In. lia. }
  assert (snd (pair_at (table_of xa xb) p) = s) as Hsp.
  { rewrite Hpair by lia. destruct (Nat.eq_dec p p); [reflexivity|contradiction]. }
  assert (forall i, (i <= length xb)%nat ->
            (diag_sum (fun t => snd (pair_at (table_of xa xb) t)) i
             == if (i <=? p)%nat then qnat i else qnat i - 1 + s)%Q) as Hsum.
  { intros i Hi. apply diag_sum_one_off; [|rewrite Hsp; reflexivity].
    intros t Ht Hne. apply Hone; [lia|exact Hne]. }
  destruct (list_diff_diagonal xa xb (PList xb) Hlen) as (chg & s' & E & Hs & Hc).
  - intros t Ht. destruct (Nat.eq_dec t p) as [->|Hne]; [rewrite Hsp; exact H0|].
    rewrite (Hone t Ht Hne). lra.
  - intros i Hi. rewrite Hsum by lia. pose proof (qnat_S i) as HS.
    destruct (S i <=? p)%nat; lra.
  - rewrite obj_diff_list, E.
    assert (0 < s' /\ s' < 1)%Q as [Hs0 Hs1].
    { destruct (length xb) as [|n] eqn:En; [lia|].
      rewrite Hsum in Hs by lia.
      destruct (Nat.leb_spec (S n) p) as [Hle|_]; [lia|].
      pose proof (qnat_pos (S n) ltac:(lia)) as Hpos.
      assert (0 <= qnat (S n) - 1)%Q as Hge by (rewrite qnat_S; pose proof (qnat_le 0 n ltac:(lia)) as Hq; change (qnat 0) with 0%Q in Hq; lra).
      rewrite Hs. split.
      - apply Qlt_shift_div_l; [exact Hpos|]. lra.
      - apply Qlt_shift_div_r; [exact Hpos|]. lra. }
    unfold emit_list_diff.
    rewrite (Qeq_bool_false s' 0) by lra. rewrite (Qeq_bool_false s' 1) by lra.
    eexists _, s'. split; [reflexivity|]. split; [exact Hs0|]. split; [exact Hs1|].
    cbn [nonempty section app]. rewrite app_nil_r. split.
    + intros key. apply position_keys_get. unfold position_keys. apply Forall_forall. intros kv Hkv.
      apply list_elem_of_In, Hc in Hkv as (t & _ & _ & ->). eexists. reflexivity.
    + apply Hc. exists p. split; [lia|]. split; [rewrite Hsp; exact H1|].
      rewrite (Hpair p) by lia. destruct (Nat.eq_dec p p); [reflexivity|contradiction].
Qed.

Lemma smatched_upper_entry r acc k v d s :
  In (k, v, Some (d, s)) r -> Forall report_unit r ->
  (fold_left smatched_step r acc <= acc + qnat (nmatched_of r) - (1 # 2) * (1 - s))%Q.
Proof.
  intros Hin Hall. revert acc. induction Hall as [|e r He Hall IH]; intros acc; [destruct Hin|].
  cbn [fold_left]. rewrite nmatched_cons. destruct Hin as [->|Hin].
  - cbn [smatched_step snd].
    destruct (smatched_bounds r (acc + (0.5 + 0.5 * s))%Q Hall) as [_ Hhi].
    rewrite qnat_S. lra.
  - specialize (IH Hin (smatched_step acc e)).
    destruct e as [[k' v'] [[d' s']|]]; cbn [smatched_step snd] in *.
    + destruct He as [H0 H1]. rewrite qnat_S. lra.
    + cbn [Nat.add]. lra.
Qed.

(** Two dictionaries whose values under a common key differ: the diff is a
    dictionary of sections, the key is in its update section with the diff of
    the two values, and the similarity is strictly between 0 and 1. *)
Lemma dict_changed pa pb k va vb d s :
  dict_get pa k = Some va -> dict_get pb k = Some vb ->
  obj_diff va vb = (d, s) -> (s < 1)%Q ->
  exists s' items,
    obj_diff (PDict pa) (PDict pb) = (PDict items, s')
    /\ (0 < s')%Q /\ (s' < 1)%Q
    /\ (forall key, dict_get items (KStr key) = None)
    /\ In (KSym update_, PDict (changed_of (report_of pa pb))) items
    /\ dict_get (changed_of (report_of pa pb)) k = Some d.
Proof.
  intros Ha Hb Hd Hlt. rewrite obj_diff_dict. unfold dict_diff_finish. cbv zeta.
  set (r := report_of pa pb).
  pose proof (report_has_entry pa pb k va vb Ha Hb) as Hin. rewrite Hd in Hin. fold r in Hin.
  pose proof (report_of_unit pa pb) as Hunit. fold r in Hunit.
  pose proof (nmatched_has_entry r _ _ _ Hin) as Hnm.
  destruct (smatched_bounds r 0%Q Hunit) as [Hlo _].
  pose proof (smatched_upper_entry r 0%Q _ _ _ _ Hin Hunit) as Hhi.
  change (fold_left smatched_step r 0%Q) with (smatched_of r) in Hlo, Hhi.
  pose proof (qnat_le 1 (nmatched_of r) Hnm) as Hq1. change (qnat 1) with 1%Q in Hq1.
  destruct (length (removed_of r) + nmatched_of r + length (added_of pa pb))%nat
    as [|n] eqn:En; [lia|].
  pose proof (qnat_le (nmatched_of r) (S n) ltac:(lia)) as Hq2.
  pose proof (qnat_pos (S n) ltac:(lia)) as Hpos.
  set (s' := (smatched_of r / inject_Z (Z.of_nat (S n)))%Q).
  assert (0 < s')%Q as Hs0.
  { unfold s'. apply Qlt_shift_div_l; [exact Hpos|]. lra. }
  assert (s' < 1)%Q as Hs1.
  { unfold s'. apply Qlt_shift_div_r; [exact Hpos|]. fold (qnat (S n)). lra. }
  assert (dict_get (changed_of r) k = Some d) as Hch.
  { pose proof (dict_get_changed pa pb k va vb Ha Hb) as H. rewrite Hd in H.
    apply H. cbn [snd]. apply qlt_bool_true, Hlt. }
  unfold emit_dict_diff.
  rewrite (Qeq_bool_false s' 0) by lra. rewrite (Qeq_bool_false s' 1) by lra.
  eexists s', _. split; [reflexivity|].
  split; [exact Hs0|]. split; [exact Hs1|]. split; [|split; [|exact Hch]].
  - intros key. rewrite !dict_get_app, !section_get_str. reflexivity.
  - apply in_or_app. right. apply in_or_app. left.
    destruct (changed_of r) as [|c cs]; [discriminate|]. left. reflexivity.
Qed.

Lemma changed_of_get pa pb k d :
  dict_get (changed_of (report_of pa pb)) k = Some d ->
  exists v w, In (k, v) pa /\ dict_get pb k = Some w
              /\ d = fst (obj_diff v w) /\ qlt_bool (snd (obj_diff v w)) 1 = true.
Proof.
  induction pa as [|[k' v'] pa IH]; [discriminate|].
  rewrite report_of_cons, changed_of_cons.
  assert (dict_get (changed_of (report_of pa pb)) k = Some d ->
          exists v w, In (k, v) ((k', v') :: pa) /\ dict_get pb k = Some w
                      /\ d = fst (obj_diff v w) /\ qlt_bool (snd (obj_diff v w)) 1 = true)
    as Hrest.
  { intros H. destruct (IH H) as (v & w & Hin & Hrest). exists v, w. split; [right; exact Hin|exact Hrest]. }
  destruct (dict_get pb k') as [w'|] eqn:Eg; [|exact Hrest].
  destruct (obj_diff v' w') as [d' s'] eqn:Ed.
  destruct (qlt_bool s' 1) eqn:El; [|exact Hrest].
  cbn [dict_get]. destruct (key_eqb k' k) eqn:Ek; [|exact Hrest].
  apply key_eqb_eq in Ek. subst k'. intros [= <-].
  exists v', w'. rewrite Ed. cbn [fst snd].
  split; [left; reflexivity|]. split; [exact Eg|]. split; [reflexivity|exact El].
Qed.

Lemma dict_get_In d k v : dict_get d k = Some v -> In (k, v) d.
Proof.
  induction d as [|[k' v'] d IH]; [discriminate|]. cbn [dict_get].
  destruct (key_eqb k' k) eqn:E; [|right; apply IH; assumption].
  apply key_eqb_eq in E. subst k'. intros [= ->]. left. reflexivity.
Qed.

Lemma found_in_dict key d v : found_in key d v -> is_dict d.
Proof. intros H. inversion H; eexists; reflexivity. Qed.

(** The diff of two plans that are somewhat alike is, in the diff of their
    EXPLAIN documents, under dictionaries only. *)
Lemma found_in_document a b d s v :
  obj_diff a b = (d, s) -> (0 < s)%Q -> (s < 1)%Q -> found_in "Node Type" d v ->
  similar (qep_of a) (qep_of b) = Ret false.
Proof.
  intros E H0 H1 Hf. destruct (found_in_dict _ _ _ Hf) as [d' ->].
  destruct (dict_wrapped (KStr "Plan") _ _ _ _ E H0 H1) as (s' & Ex & Hs0' & Hs1').
  pose proof (list_wrapped _ _ _ _ Ex Hs0' Hs1') as El.
  apply similar_false. exists v. unfold _compareQEPs, diff, qep_of. rewrite El.
  eapply found_below; [reflexivity|left; reflexivity|].
  eapply found_below; [reflexivity|left; reflexivity|].
  eapply found_below; [reflexivity|left; reflexivity|].
  exact Hf.
Qed.

Lemma replaced_kind_found pa pb ka kb :
  dict_get pa (KStr "Node Type") = Some (PStr ka) ->
  dict_get pb (KStr "Node Type") = Some (PStr kb) ->
  ka <> kb ->
  exists items s,
    obj_diff (PDict pa) (PDict pb) = (PDict items, s)
    /\ (0 < s)%Q /\ (s < 1)%Q /\ found_in "Node Type" (PDict items) (PStr kb).
Proof.
  intros Ha Hb Hne.
  assert (obj_diff (PStr ka) (PStr kb) = (PStr kb, 0%Q)) as Hd.
  { cbn [obj_diff]. unfold value_diff. cbn [scalar_eqb].
    apply String.eqb_neq in Hne. rewrite Hne. reflexivity. }
  destruct (dict_substituted pa pb _ _ _ Ha Hb Hd)
    as (s & items & chg & EP & Hs0 & Hs1 & Hnone & Hin & Hchg).
  exists items, s. split; [exact EP|]. split; [exact Hs0|]. split; [exact Hs1|].
  eapply found_below; [apply Hnone|exact Hin|].
  apply found_here; [exact Hchg|discriminate].
Qed.

(** A plan in which one child of the root has its operator kind replaced,
    the other children being the same on both sides. *)
Lemma child_substitution pa pb xa p ca cb ka kb rb :
  dict_get pa (KStr "Plans") = Some (PList xa) ->
  dict_get pb (KStr "Plans") = Some (PList (<[p:=PDict cb]> xa)) ->
  dict_get pb (KStr "Node Type") = Some (PStr rb) ->
  xa !! p = Some (PDict ca) ->
  keys_distinct (PList xa) = true ->
  dict_get ca (KStr "Node Type") = Some (PStr ka) ->
  dict_get cb (KStr "Node Type") = Some (PStr kb) ->
  ka <> kb ->
  similar (qep_of (PDict pa)) (qep_of (PDict pb)) = Ret false.
Proof.
  intros Ha Hb Hrb Hp Hxa Hka Hkb Hne.
  destruct (replaced_kind_found ca cb ka kb Hka Hkb Hne) as (ci & cs & Ec & Hc0 & Hc1 & Hcf).
  assert (p < length xa)%nat as Hlt by (apply lookup_lt_is_Some; eauto).
  assert (nth p xa PNone = PDict ca) as Hnth by (apply nth_lookup_Some, Hp).
  destruct (list_one_replaced xa p (PDict cb) (PDict ci) cs Hlt) as (li & ls & El & Hl0 & Hl1 & Hln & Hli);
    [|rewrite Hnth; exact Ec|exact Hc0|exact Hc1|].
  { intros x Hx. apply obj_diff_same, (keys_distinct_elements xa Hxa x Hx). }
  destruct (dict_changed pa pb _ _ _ _ _ Ha Hb El Hl1)
    as (s & items & E & Hs0 & Hs1 & Hnone & Hin & Hchg).
  assert (exists v, found_in "Node Type" (PDict (changed_of (report_of pa pb))) v) as [v Hv].
  { destruct (dict_get (changed_of (report_of pa pb)) (KStr "Node Type")) as [x|] eqn:Ex.
    - exists x. apply found_here; [exact Ex|].
      apply changed_of_get in Ex as (v0 & w & _ & Hw & -> & Hq).
      rewrite Hrb in Hw. injection Hw as <-.
      assert (obj_diff v0 (PStr rb) = value_diff v0 (PStr rb)) as Ev by (destruct v0; reflexivity).
      rewrite Ev in *. unfold value_diff in *.
      destruct (scalar_eqb v0 (PStr rb)); cbn in Hq |- *; [discriminate|discriminate].
    - exists (PStr kb). eapply found_below; [exact Ex|apply dict_get_In, Hchg|].
      eapply found_below; [apply Hln|exact Hli|exact Hcf]. }
  apply (found_in_document _ _ _ _ v E Hs0 Hs1).
  eapply found_below; [apply Hnone|exact Hin|exact Hv].
Qed.

(** A plan compared with itself is judged equivalent. *)
Lemma same_plan_is_equivalent a :
  keys_distinct a = true -> similar (qep_of a) (qep_of a) = Ret true.
Proof.
  intros H. apply similar_true. unfold _compareQEPs, diff.
  destruct (obj_diff_same (qep_of a)) as [-> _].
  { unfold qep_of. rewrite keys_distinct_list, keys_distinct_dict, H. reflexivity. }
  split; [eexists; reflexivity|].
  intros [v Hv]. inversion Hv as [d v' Hg _|d k d' v' _ Hin _]; subst; [discriminate|destruct Hin].
Qed.

(** *** Elements inserted or deleted *)

(** The walk back adds up, over the elements it pairs, the entry of the
    matrix it starts from. *)
Lemma walk_sum T n X Y :
  Forall (fun r => length r = n) (map (map snd) T) ->
  (forall i j, unit_score (nth j (nth i (map (map snd) T) []) 0%Q)) ->
  forall fuel i j,
    (i <= length (map (map snd) T))%nat -> (j <= n)%nat -> (i + j <= fuel)%nat ->
    (sum_same (list_diff_0 fuel (lcs_matrix n (map (map snd) T)) T X Y i j)
     == cell (lcs_matrix n (map (map snd) T)) i j)%Q.
Proof.
  intros Hrows Hunit. set (Sc := map (map snd) T). set (C := lcs_matrix n Sc).
  induction fuel as [|fuel IH]; intros i j Hi Hj Hf.
  - assert (i = 0%nat) as -> by lia. assert (j = 0%nat) as -> by lia.
    unfold C. rewrite cell_top. reflexivity.
  - cbn [list_diff_0].
    destruct (nth (j - 1) (nth (i - 1) T []) (PNone, 0%Q)) as [d s] eqn:E.
    destruct i as [|i].
    { destruct j as [|j]; cbn [Nat.ltb Nat.leb andb Nat.eqb orb].
      - unfold C. rewrite cell_top. reflexivity.
      - cbn [sum_same fold_right score_of]. fold (sum_same (list_diff_0 fuel C T X Y 0 (S j - 1))).
        rewrite IH by lia. unfold C. rewrite !cell_top. lra. }
    destruct j as [|j].
    { cbn [Nat.ltb Nat.leb andb Nat.eqb orb].
      cbn [sum_same fold_right score_of]. fold (sum_same (list_diff_0 fuel C T X Y (S i - 1) 0)).
      rewrite IH by lia. unfold C. rewrite !(cell_left n Sc Hrows) by lia. lra. }
    replace (S i - 1)%nat with i in * by lia. replace (S j - 1)%nat with j in * by lia.
    assert (nth j (nth i Sc []) 0%Q = s) as Hs by (unfold Sc; rewrite scores_nth, E; reflexivity).
    pose proof (cell_step n Sc Hrows i j ltac:(lia) ltac:(lia)) as Hstep. fold C in Hstep.
    rewrite Hs in Hstep.
    pose proof (cell_up n Sc Hrows i j ltac:(lia) ltac:(lia)) as Hup. fold C in Hup.
    pose proof (cell_right n Sc Hrows i j ltac:(lia) ltac:(lia)) as Hright. fold C in Hright.
    pose proof (Hunit i j) as [Hs0 Hs1]. fold Sc in Hs0, Hs1. rewrite Hs in Hs0, Hs1.
    pose proof (qmax_l (cell C (S i) j) (cell C i (S j))) as Hl.
    pose proof (qmax_r (cell C (S i) j) (cell C i (S j))) as Hr.
    pose proof (qmax_l (qmax (cell C (S i) j) (cell C i (S j))) (cell C i j + s)%Q) as Hm.
    cbn [Nat.ltb Nat.leb andb Nat.eqb orb].
    destruct (qlt_bool 0 s && Qeq_bool (cell C (S i) (S j)) (cell C i j + s)%Q) eqn:E1.
    + apply andb_prop in E1 as [_ E1]. apply Qeq_bool_iff in E1.
      cbn [sum_same fold_right score_of]. fold (sum_same (list_diff_0 fuel C T X Y i j)).
      rewrite IH by lia. rewrite E1. lra.
    + assert (cell C (S i) (S j) == qmax (cell C (S i) j) (cell C i (S j)))%Q as Hcell.
      { rewrite Hstep.
        destruct (qmax_cases (qmax (cell C (S i) j) (cell C i (S j))) (cell C i j + s)%Q)
          as [->| Eq]; [reflexivity|].
        rewrite Eq. rewrite Hstep, Eq, Qeq_bool_same, andb_true_r in E1.
        assert (~ (0 < s)%Q) as Hn.
        { intros L. rewrite (qlt_bool_true 0 s L) in E1. discriminate. }
        rewrite Eq in Hm. lra. }
      destruct (Qle_bool (cell C i (S j)) (cell C (S i) j)) eqn:E2.
      * apply Qle_bool_iff in E2.
        cbn [sum_same fold_right score_of].
        fold (sum_same (list_diff_0 fuel C T X Y (S i) j)).
        rewrite IH by lia. rewrite Hcell.
        pose proof (qmax_lub (cell C (S i) j) (cell C i (S j)) (cell C (S i) j)
                      ltac:(lra) E2). lra.
      * assert (cell C (S i) j < cell C i (S j))%Q as L.
        { destruct (Qlt_le_dec (cell C (S i) j) (cell C i (S j))) as [L|L]; [exact L|].
          apply Qle_bool_iff in L. congruence. }
        rewrite (qlt_bool_true _ _ L).
        cbn [sum_same fold_right score_of].
        fold (sum_same (list_diff_0 fuel C T X Y i (S j))).
        rewrite IH by lia. rewrite Hcell.
        pose proof (qmax_lub (cell C (S i) j) (cell C i (S j)) (cell C i (S j))
                      ltac:(lra) ltac:(lra)). lra.
Qed.

Lemma walk_sames fuel C T X Y i j :
  (sames (list_diff_0 fuel C T X Y i j) <= Nat.min i j)%nat.
Proof.
  revert i j. induction fuel as [|fuel IH]; intros i j; [unfold sames; cbn; lia|].
  cbn [list_diff_0]. destruct (nth (j - 1) (nth (i - 1) T []) (PNone, 0%Q)) as [d s].
  destruct ((0 <? i)%nat && (0 <? j)%nat && qlt_bool 0 s
            && Qeq_bool (cell C i j) (cell C (i - 1) (j - 1) + s)%Q) eqn:E1.
  - apply andb_prop in E1 as [E1 _]. apply andb_prop in E1 as [E1 _].
    apply andb_prop in E1 as [Ei Ej]. apply Nat.ltb_lt in Ei, Ej.
    specialize (IH (i - 1)%nat (j - 1)%nat).
    unfold sames in *. cbn [List.filter is_same length]. lia.
  - destruct ((0 <? j)%nat
              && ((i =? 0)%nat || Qle_bool (cell C (i - 1) j) (cell C i (j - 1)))) eqn:E2.
    + specialize (IH i (j - 1)%nat). apply andb_prop in E2 as [Ej _]. apply Nat.ltb_lt in Ej.
      unfold sames in *. cbn [List.filter is_same]. lia.
    + destruct ((0 <? i)%nat
                && ((j =? 0)%nat || qlt_bool (cell C i (j - 1)) (cell C (i - 1) j))) eqn:E3.
      * specialize (IH (i - 1)%nat j). apply andb_prop in E3 as [Ei _]. apply Nat.ltb_lt in Ei.
        unfold sames in *. cbn [List.filter is_same]. lia.
      * unfold sames; cbn; lia.
Qed.

Lemma sum_same_upper r : Forall edit_unit r -> (sum_same r <= qnat (sames r))%Q.
Proof.
  induction 1 as [|e r He _ IH]; [cbn; change (qnat 0) with 0%Q; lra|].
  cbn [sum_same fold_right]. fold (sum_same r).
  destruct e as [d pos s|v pos|v pos]; cbn [score_of edit_unit] in *.
  - replace (sames (Same d pos s :: r)) with (S (sames r)) by reflexivity.
    rewrite qnat_S. destruct He. lra.
  - replace (sames (Ins v pos :: r)) with (sames r) by reflexivity. lra.
  - replace (sames (Del v pos :: r)) with (sames r) by reflexivity. lra.
Qed.

Lemma all_full_score r :
  Forall edit_unit r -> (qnat (sames r) <= sum_same r)%Q -> Forall full_score r.
Proof.
  induction 1 as [|e r He Hr IH]; [constructor|].
  cbn [sum_same fold_right]. fold (sum_same r). pose proof (sum_same_upper r Hr) as Hup.
  destruct e as [d pos s|v pos|v pos]; cbn [score_of edit_unit] in *.
  - replace (sames (Same d pos s :: r)) with (S (sames r)) by reflexivity.
    rewrite qnat_S. destruct He. intros Hsum.
    constructor; [cbn; lra|apply IH; lra].
  - replace (sames (Ins v pos :: r)) with (sames r) by reflexivity. intros Hsum.
    constructor; [exact I|apply IH; lra].
  - replace (sames (Del v pos :: r)) with (sames r) by reflexivity. intros Hsum.
    constructor; [exact I|apply IH; lra].
Qed.

Lemma fold_full_score r acc :
  Forall full_score r -> changed (fold_left list_step r acc) = changed acc.
Proof.
  intros H. revert acc. induction H as [|e r He _ IH]; intros acc; [reflexivity|].
  cbn [fold_left]. rewrite IH. destruct e as [d pos s|v pos|v pos]; try reflexivity.
  cbn [list_step changed full_score] in *.
  assert (qlt_bool s 1 = false) as ->; [|reflexivity].
  unfold qlt_bool. rewrite Qle_bool_true by lra. reflexivity.
Qed.

(** Elements that two lists have in common, in the same order, are worth
    their number in the matrix. *)
Lemma common_sublist_bound xa xb :
  let C := lcs_matrix (length xb) (map (map snd) (table_of xa xb)) in
  forall i, (i <= length xa)%nat -> forall j, (j <= length xb)%nat ->
  forall l, (forall x, In x l -> (snd (obj_diff x x) == 1)%Q) ->
    sublist l (take i xa) -> sublist l (take j xb) ->
    (qnat (length l) <= cell C i j)%Q.
Proof.
  intros C.
  pose proof (table_rows xa xb) as Hrows. pose proof (table_scores xa xb) as Hunit.
  assert (length (map (map snd) (table_of xa xb)) = length xa) as Hm
    by (unfold table_of; rewrite !length_map; reflexivity).
  induction i as [|i IHi]; intros Hi j.
  { intros Hj l Hself Ha Hb. rewrite take_0 in Ha. apply sublist_nil_r in Ha. subst l.
    unfold C. rewrite cell_top. change (qnat (length [])) with 0%Q. lra. }
  induction j as [|j IHj]; intros Hj l Hself Ha Hb.
  { rewrite take_0 in Hb. apply sublist_nil_r in Hb. subst l.
    unfold C. rewrite (cell_left _ _ Hrows) by lia. change (qnat (length [])) with 0%Q. lra. }
  destruct (lookup_lt_is_Some_2 xa i ltac:(lia)) as [a Ea].
  destruct (lookup_lt_is_Some_2 xb j ltac:(lia)) as [b Eb].
  pose proof (cell_up _ _ Hrows i (S j) ltac:(lia) ltac:(lia)) as Hup. fold C in Hup.
  pose proof (cell_right _ _ Hrows (S i) j ltac:(lia) ltac:(lia)) as Hright. fold C in Hright.
  rewrite (take_S_r xa i a Ea) in Ha. apply sublist_app_r in Ha as (l1 & l2 & -> & Hl1 & Hl2).
  apply sublist_cons_r in Hl2 as [Hl2|(l' & -> & Hl')].
  { apply sublist_nil_r in Hl2. subst l2. rewrite app_nil_r in *.
    pose proof (IHi ltac:(lia) (S j) Hj l1 Hself Hl1 Hb). lra. }
  apply sublist_nil_r in Hl'. subst l'.
  rewrite (take_S_r xb j b Eb) in Hb. apply sublist_app_r in Hb as (h1 & h2 & Eh & Hh1 & Hh2).
  apply sublist_cons_r in Hh2 as [Hh2|(h' & -> & Hh')].
  { apply sublist_nil_r in Hh2. subst h2. rewrite app_nil_r in Eh. rewrite Eh in *.
    assert (sublist h1 (take (S i) xa)) as Ha'.
    { rewrite (take_S_r xa i a Ea), <- Eh. apply sublist_app; [exact Hl1|reflexivity]. }
    pose proof (IHj ltac:(lia) h1 Hself Ha' Hh1). lra. }
  apply sublist_nil_r in Hh'. subst h'. apply app_inj_tail in Eh as [<- <-].
  pose proof (IHi ltac:(lia) j ltac:(lia) l1
                ltac:(intros x Hx; apply Hself, in_or_app; left; exact Hx) Hl1 Hh1) as Hd.
  pose proof (cell_step _ _ Hrows i j ltac:(lia) ltac:(lia)) as Hstep. fold C in Hstep.
  rewrite scores_nth, table_nth in Hstep by lia.
  rewrite (nth_lookup_Some xa i PNone a Ea), (nth_lookup_Some xb j PNone a Eb) in Hstep.
  pose proof (Hself a ltac:(apply in_or_app; right; left; reflexivity)) as Hone.
  pose proof (qmax_r (qmax (cell C (S i) j) (cell C i (S j)))
                (cell C i j + snd (obj_diff a a))%Q) as Hmax.
  rewrite <- Hstep in Hmax.
  rewrite length_app. cbn [length]. rewrite Nat.add_1_r, qnat_S. lra.
Qed.

(** A list against the same list with elements inserted, or with elements
    deleted: the walk pairs only elements that are alike, and the diff holds no
    diff of a pair. *)
Lemma list_diff_of_sublist xa xb l b key v :
  ~ is_dict b ->
  (forall x, In x l -> (snd (obj_diff x x) == 1)%Q) ->
  sublist l xa -> sublist l xb ->
  length l = Nat.min (length xa) (length xb) ->
  ~ found_in key (fst (list_diff_finish xa xb b (table_of xa xb))) v.
Proof.
  intros Hb Hself Ha Hxb Hlen. unfold list_diff_finish. cbv zeta. cbn [fst].
  set (T := table_of xa xb). set (C := lcs_matrix (length xb) (map (map snd) T)).
  set (r := list_diff_0 (length xa + length xb) C T xa xb (length xa) (length xb)).
  assert (length (map (map snd) T) = length xa) as Hm
    by (unfold T, table_of; rewrite !length_map; reflexivity).
  assert (Forall edit_unit r) as Hunit.
  { apply walk_ok. intros i j. rewrite <- scores_nth. apply table_scores. }
  assert (Forall full_score r) as Hfull.
  { apply all_full_score; [exact Hunit|].
    pose proof (walk_sum T (length xb) xa xb (table_rows xa xb) (table_scores xa xb)
                  (length xa + length xb) (length xa) (length xb)
                  ltac:(fold T; lia) ltac:(lia) ltac:(lia)) as Hsum.
    fold T in Hsum. fold C in Hsum. fold r in Hsum. rewrite Hsum.
    pose proof (common_sublist_bound xa xb (length xa) ltac:(lia) (length xb) ltac:(lia) l
                  Hself) as Hlow.
    rewrite !firstn_all in Hlow. specialize (Hlow Ha Hxb). fold T in Hlow. fold C in Hlow.
    pose proof (walk_sames (length xa + length xb) C T xa xb (length xa) (length xb)) as Hs.
    fold r in Hs. pose proof (qnat_le _ _ Hs) as Hq. rewrite <- Hlen in Hq. lra. }
  set (acc0 := {| inserted := []; deleted := []; changed := []; tot_s := 0%Q |}).
  assert (changed (fold_left list_step (rev r) acc0) = []) as Hchg.
  { apply (fold_full_score (rev r) acc0). apply Forall_forall. intros e He.
    apply list_elem_of_In, in_rev, list_elem_of_In in He. revert e He.
    apply Forall_forall, Hfull. }
  intros Hf. apply found_in_emit_list_diff in Hf as (kv & Hin & _).
  - rewrite Hchg in Hin. destruct Hin.
  - exact Hb.
  - rewrite Hchg. constructor.
Qed.

Lemma found_in_emit_dict_diff key b s added chg removed v :
  found_in key (emit_dict_diff b s added chg removed) v ->
  (s == 0)%Q \/ found_in key (PDict added) v \/ found_in key (PDict chg) v.
Proof.
  unfold emit_dict_diff. destruct (Qeq_bool s 0) eqn:E0.
  { intros _. left. apply Qeq_bool_iff, E0. }
  destruct (Qeq_bool s 1).
  { intros H. inversion H as [d v' Hg _|d k d' v' _ Hin _]; subst; [discriminate|destruct Hin]. }
  intros H. right. inversion H as [d v' Hg Hv|d k d' v' Hg Hin Hf]; subst.
  - rewrite !dict_get_app, !section_get_str in Hg. discriminate.
  - apply in_app_or in Hin as [Hin|Hin].
    { left. unfold section in Hin. destruct (nonempty added); [|destruct Hin].
      destruct Hin as [[= _ <-]|[]]. exact Hf. }
    apply in_app_or in Hin as [Hin|Hin]; unfold section in Hin.
    + right. destruct (nonempty chg); [|destruct Hin].
      destruct Hin as [[= _ <-]|[]]. exact Hf.
    + destruct (nonempty removed); [|destruct Hin]. destruct Hin as [[= _ ?]|[]].
Qed.

Lemma changed_of_In pa pb k d :
  In (k, d) (changed_of (report_of pa pb)) ->
  exists v w, In (k, v) pa /\ dict_get pb k = Some w
              /\ d = fst (obj_diff v w) /\ qlt_bool (snd (obj_diff v w)) 1 = true.
Proof.
  induction pa as [|[k' v'] pa IH]; [intros []|].
  rewrite report_of_cons, changed_of_cons.
  assert (In (k, d) (changed_of (report_of pa pb)) ->
          exists v w, In (k, v) ((k', v') :: pa) /\ dict_get pb k = Some w
                      /\ d = fst (obj_diff v w) /\ qlt_bool (snd (obj_diff v w)) 1 = true)
    as Hrest.
  { intros H. destruct (IH H) as (v & w & Hin & Hrest). exists v, w.
    split; [right; exact Hin|exact Hrest]. }
  destruct (dict_get pb k') as [w'|] eqn:Eg; [|exact Hrest].
  destruct (obj_diff v' w') as [d' s'] eqn:Ed.
  destruct (qlt_bool s' 1) eqn:El; [|exact Hrest].
  intros [[= -> ->]|Hin]; [|apply Hrest, Hin].
  exists v', w'. rewrite Ed. cbn [fst snd].
  split; [left; reflexivity|]. split; [exact Eg|]. split; [reflexivity|exact El].
Qed.

Lemma sublist_In (l k : list pyval) x : sublist l k -> In x l -> In x k.
Proof.
  induction 1 as [|y l k _ IH|y l k _ IH]; [intros []| |].
  - intros [->|Hin]; [left; reflexivity|right; apply IH, Hin].
  - intros Hin. right. apply IH, Hin.
Qed.

Lemma scalar_diff v w :
  is_scalar w = true -> qlt_bool (snd (obj_diff v w)) 1 = true ->
  scalar_eqb v w = false /\ fst (obj_diff v w) = w.
Proof.
  intros Hw. assert (obj_diff v w = value_diff v w) as ->
    by (destruct v, w; try discriminate; reflexivity).
  unfold value_diff. destruct (scalar_eqb v w); [discriminate|]. intros _. split; reflexivity.
Qed.

(** A plan against one with children inserted under its root, or deleted,
    the other children and the operator kind of the root being the same and
    the other fields of the root scalars: the diff of the two plans holds no
    operator kind the search comes to. *)
Lemma children_inserted_or_deleted pa pb xa xb r v :
  keys_distinct (PDict pa) = true ->
  dict_get pa (KStr "Plans") = Some (PList xa) ->
  dict_get pb (KStr "Plans") = Some (PList xb) ->
  dict_get pa (KStr "Node Type") = Some (PStr r) ->
  dict_get pb (KStr "Node Type") = Some (PStr r) ->
  forallb children_or_scalar pb = true ->
  sublist xa xb \/ sublist xb xa ->
  ~ found_in "Node Type" (fst (obj_diff (PDict pa) (PDict pb))) v.
Proof.
  intros Hpa Hplans Hb Hra Hrb Hscalar Hsub.
  assert (keys_distinct (PList xa) = true) as Hxa.
  { apply (keys_distinct_values pa Hpa (KStr "Plans")), dict_get_In, Hplans. }
  assert (forall k w, In (k, w) pb -> k = KStr "Plans" \/ is_scalar w = true) as Hpb.
  { intros k w Hin. rewrite forallb_forall in Hscalar. specialize (Hscalar (k, w) Hin).
    unfold children_or_scalar in Hscalar. cbn [fst snd] in Hscalar.
    apply orb_prop in Hscalar as [Hk|Hw]; [left; apply key_eqb_eq in Hk; congruence|right; exact Hw]. }
  assert (forall k d, In (k, d) (changed_of (report_of pa pb)) ->
            (k = KStr "Plans" /\ d = fst (obj_diff (PList xa) (PList xb)))
            \/ (k <> KStr "Node Type" /\ is_scalar d = true)) as Hchg.
  { intros k d Hin. apply changed_of_In in Hin as (v0 & w & Hin & Hw & -> & Hq).
    destruct (keys_distinct_values pa Hpa k v0 Hin) as [Hg Hv0].
    destruct (Hpb k w (dict_get_In _ _ _ Hw)) as [->|Hsc].
    - left. rewrite Hplans in Hg. injection Hg as <-.
      rewrite Hb in Hw. injection Hw as <-. auto.
    - right. destruct (scalar_diff v0 w Hsc Hq) as [Hne ->]. split; [|exact Hsc].
      intros ->. rewrite Hra in Hg. injection Hg as <-.
      rewrite Hrb in Hw. injection Hw as <-.
      cbn [scalar_eqb] in Hne. rewrite String.eqb_refl in Hne. discriminate. }
  rewrite obj_diff_dict. unfold dict_diff_finish. cbv zeta. cbn [fst].
  set (rep := report_of pa pb).
  intros Hf. apply found_in_emit_dict_diff in Hf as [Hs|[Hf|Hf]].
  - pose proof (report_has_entry pa pb _ _ _ Hplans Hb) as Hin. fold rep in Hin.
    pose proof (report_of_unit pa pb) as Hunit. fold rep in Hunit.
    pose proof (nmatched_has_entry rep _ _ _ Hin) as Hnm.
    destruct (smatched_bounds rep 0%Q Hunit) as [Hlo _].
    change (fold_left smatched_step rep 0%Q) with (smatched_of rep) in Hlo.
    pose proof (qnat_le 1 (nmatched_of rep) Hnm) as Hq1. change (qnat 1) with 1%Q in Hq1.
    destruct (length (removed_of rep) + nmatched_of rep + length (added_of pa pb))%nat
      as [|n] eqn:En; [lia|].
    pose proof (qnat_pos (S n) ltac:(lia)) as Hpos.
    assert (0 < smatched_of rep / inject_Z (Z.of_nat (S n)))%Q
      by (apply Qlt_shift_div_l; [exact Hpos|]; lra).
    lra.
  - assert (forall k w, In (k, w) (added_of pa pb) -> In (k, w) pb /\ dict_mem pa k = false)
      as Hadded.
    { intros k w Hin. unfold added_of in Hin. apply List.filter_In in Hin as [Hin Hm].
      cbn [fst] in Hm. apply negb_true_iff in Hm. auto. }
    inversion Hf as [d v' Hg _|d k d' v' _ Hin _]; subst.
    + apply dict_get_In, Hadded in Hg as [_ Hm].
      unfold dict_mem in Hm. rewrite Hra in Hm. discriminate.
    + apply Hadded in Hin as [Hin Hm]. destruct (Hpb _ _ Hin) as [->|Hsc]; [|discriminate].
      unfold dict_mem in Hm. rewrite Hplans in Hm. discriminate.
  - inversion Hf as [d v' Hg Hv|d k d' v' Hg Hin Hf']; subst.
    + apply dict_get_In, Hchg in Hg as [[[=] _]|[Hne _]]. contradiction.
    + apply Hchg in Hin as [[-> Hd]|[_ Hsc]]; [|discriminate].
      rewrite Hd in Hf'. rewrite obj_diff_list in Hf'. revert Hf'.
      assert (forall x, In x xa -> (snd (obj_diff x x) == 1)%Q) as Hself.
      { intros x Hx. apply obj_diff_same, (keys_distinct_elements xa Hxa x Hx). }
      destruct Hsub as [Hsub|Hsub].
      * apply (list_diff_of_sublist xa xb xa).
        -- intros [? [=]].
        -- exact Hself.
        -- reflexivity.
        -- exact Hsub.
        -- pose proof (sublist_length _ _ Hsub). lia.
      * apply (list_diff_of_sublist xa xb xb).
        -- intros [? [=]].
        -- intros x Hx. apply Hself, (sublist_In xb xa x Hsub Hx).
        -- exact Hsub.
        -- reflexivity.
        -- pose proof (sublist_length _ _ Hsub). lia.
Qed.

(** What the search finds in the diff of two EXPLAIN documents, it finds in
    the diff of the two plans. *)
Lemma found_in_plans a b v :
  found_in "Node Type" (_compareQEPs (qep_of a) (qep_of b)) v ->
  found_in "Node Type" (fst (obj_diff a b)) v.
Proof.
  intros H. unfold qep_of in H.
  apply list_diff_finds_in_a_pair in H as (x & y & [<-|[]] & [<-|[]] & H).
  unfold _compareQEPs, diff in H. destruct (obj_diff a b) as [d s] eqn:E.
  pose proof (obj_diff_score a b) as Hs. rewrite E in Hs. destruct Hs as [H0 H1].
  cbn [fst snd] in *. rewrite (dict_single (KStr "Plan") a b d s E) in H. cbn [fst] in H.
  apply found_in_emit_dict_diff in H as [Hz|[H|H]].
  - pose proof (over_one (0 + (0.5 + 0.5 * s))) as Ho. lra.
  - inversion H as [d0 v' Hg _|d0 k d' v' _ Hin _]; subst; [discriminate|destruct Hin].
  - destruct (qlt_bool s 1).
    + inversion H as [d0 v' Hg _|d0 k d' v' _ Hin Hf]; subst; [discriminate|].
      destruct Hin as [[= _ ->]|[]]. exact Hf.
    + inversion H as [d0 v' Hg _|d0 k d' v' _ Hin _]; subst; [discriminate|destruct Hin].
Qed.

Lemma children_inserted_or_deleted_equivalent pa pb xa xb r :
  keys_distinct (PDict pa) = true ->
  dict_get pa (KStr "Plans") = Some (PList xa) ->
  dict_get pb (KStr "Plans") = Some (PList xb) ->
  dict_get pa (KStr "Node Type") = Some (PStr r) ->
  dict_get pb (KStr "Node Type") = Some (PStr r) ->
  forallb children_or_scalar pb = true ->
  sublist xa xb \/ sublist xb xa ->
  similar (qep_of (PDict pa)) (qep_of (PDict pb)) = Ret true.
Proof.
  intros Hpa Hplans Hb Hra Hrb Hscalar Hsub. apply similar_true.
  split; [apply qep_diff_is_dict|].
  intros [v Hv]. apply found_in_plans in Hv.
  exact (children_inserted_or_deleted pa pb xa xb r v Hpa Hplans Hb Hra Hrb Hscalar Hsub Hv).
Qed.



(** Plans that differ in costs and row counts only are judged equivalent. *)
Lemma cost_drift_is_equivalent :
  similar (qep_of (seq_scan 90 5000)) (qep_of (seq_scan 40 100)) = Ret true.
Proof. vm_compute. reflexivity. Qed.

(** A child inserted beside one whose operator kind is replaced: the diff
    pairs the two first children, and the plans are not judged equivalent. *)
Lemma inserted_beside_a_replaced_child_is_noticed :
  _compareQEPs qep_append1 qep_append1_indexed
  = PDict [(KInt 0, PDict [(KSym update_, PDict [(KStr "Plan",
      PDict [(KSym update_, PDict [(KStr "Plans",
        PDict [(KInt 0, PDict [(KSym update_,
                 PDict [(KStr "Node Type", PStr "Index Scan")])]);
               (KSym insert_,
                PList [PTuple [num 1; scan_on "orders_2020" "Seq Scan" 8 10]])])])])])])]
  /\ similar qep_append1 qep_append1_indexed = Ret false.
Proof. split; vm_compute; reflexivity. Qed.


End Equivalence.

(** ** Runs: classification of the actual plan, statements sent *)

Module Classification.
Import PyStr QepProcessor EnumerationSpec Samples Enumeration Requests RunsSpec.

(** *** Classifying the actual plan *)

Lemma compareActualQEP_found actualQEP lstAllQEPs k :
  compareActualQEP actualQEP lstAllQEPs = Ret (RET_QEP_FOUND, Some k) <->
  exists i m, k = (i + 1)%nat /\ lstAllQEPs !! i = Some m
    /\ similar m actualQEP = Ret true
    /\ forall j m', (j < i)%nat -> lstAllQEPs !! j = Some m' -> similar m' actualQEP = Ret false.
Proof.
  unfold compareActualQEP. split.
  - destruct (first_similar 0 lstAllQEPs actualQEP) as [[k'|]|e] eqn:E; cbn [obind];
      try discriminate.
    intros [= ->]. apply first_similar_some in E as (j & m & -> & Hm & Hs & Hbefore).
    exists j, m. split; [reflexivity|]. auto.
  - intros (i & m & -> & Hm & Hs & Hbefore).
    rewrite (first_similar_found 0 _ _ i m Hm Hs Hbefore). reflexivity.
Qed.

Lemma compareActualQEP_not_found actualQEP lstAllQEPs :
  compareActualQEP actualQEP lstAllQEPs = Ret (RET_QEP_NOT_FOUND, None) <->
  forall m, In m lstAllQEPs -> similar m actualQEP = Ret false.
Proof.
  unfold compareActualQEP. split.
  - destruct (first_similar 0 lstAllQEPs actualQEP) as [[k'|]|e] eqn:E; cbn [obind];
      try discriminate.
    intros _. eapply first_similar_none, E.
  - intros H. rewrite (first_similar_fresh 0 _ _ H). reflexivity.
Qed.

Lemma compareActualQEP_raises actualQEP lstAllQEPs e :
  compareActualQEP actualQEP lstAllQEPs = Raise e ->
  exists m, In m lstAllQEPs /\ similar m actualQEP = Raise e.
Proof.
  unfold compareActualQEP.
  assert (forall i, first_similar i lstAllQEPs actualQEP = Raise e ->
                    exists m, In m lstAllQEPs /\ similar m actualQEP = Raise e) as H.
  { induction lstAllQEPs as [|m D IH]; intros i; cbn [first_similar]; [discriminate|].
    destruct (similar m actualQEP) as [[|]|e'] eqn:E; cbn [obind].
    - discriminate.
    - intros H. destruct (IH _ H) as (m' & Hin & Hm'). exists m'. split; [right; exact Hin|exact Hm'].
    - intros [= ->]. exists m. split; [left; reflexivity|exact E]. }
  destruct (first_similar 0 lstAllQEPs actualQEP) as [[k'|]|e'] eqn:E; cbn [obind];
    try discriminate.
  intros [= ->]. eapply H, E.
Qed.

Lemma assigned_prefix D q k D' : assigned D q k D' -> D `prefix_of` D'.
Proof. intros [i m _ _ _|_]; [reflexivity|]. apply prefix_app_r. reflexivity. Qed.

Lemma assigned_pairwise D q k D' :
  assigned D q k D' -> pairwise_different D -> pairwise_different D'.
Proof.
  intros [i m _ _ _|Hnew] HD; [exact HD|].
  intros j k' mj mk Hlt Hj Hk.
  destruct (decide (k' < length D)%nat) as [Hin|Hout].
  - rewrite lookup_app_l in Hj by lia. rewrite lookup_app_l in Hk by exact Hin.
    exact (HD _ _ _ _ Hlt Hj Hk).
  - pose proof (lookup_lt_Some _ _ _ Hk) as Hlen. rewrite length_app in Hlen. cbn in Hlen.
    assert (k' = length D) as -> by lia.
    rewrite lookup_app_l in Hj by lia.
    rewrite lookup_app_r, Nat.sub_diag in Hk by lia. injection Hk as <-.
    apply Hnew. apply list_elem_of_In. eapply list_elem_of_lookup_2, Hj.
Qed.

Lemma steps_pairwise qs st st' :
  steps qs st st' -> pairwise_different (snd st) -> pairwise_different (snd st').
Proof.
  induction 1 as [st|q qs planIndexes D k D' st Ha Hs IH]; [auto|].
  cbn [snd] in *. intros HD. apply IH. eapply assigned_pairwise; eauto.
Qed.

Lemma steps_prefix qs st st' : steps qs st st' -> snd st `prefix_of` snd st'.
Proof.
  induction 1 as [st|q qs planIndexes D k D' st Ha Hs IH]; [reflexivity|].
  cbn [snd] in *. etransitivity; [eapply assigned_prefix, Ha|exact IH].
Qed.

Lemma classified_prefix D D' q k : D `prefix_of` D' -> classified D q k -> classified D' q k.
Proof.
  intros Hp (i & m & -> & Hm & Hs & Hbefore). exists i, m.
  split; [reflexivity|]. split; [eapply prefix_lookup_Some; eauto|]. split; [exact Hs|].
  intros j m' Hlt Hj.
  destruct (lookup_lt_is_Some_2 D j) as [m'' Hm''].
  { apply lookup_lt_Some in Hm. lia. }
  pose proof (prefix_lookup_Some _ _ _ _ Hm'' Hp) as Hj'. rewrite Hj in Hj'.
  injection Hj' as ->. eapply Hbefore; eauto.
Qed.

Lemma assigned_classified D q k D' :
  assigned D q k D' -> similar q q = Ret true -> classified D' q k.
Proof.
  intros [i m Hm Hs Hbefore|Hnew] Hq.
  - exists i, m. split; [lia|]. auto.
  - exists (length D), q. split; [lia|].
    split; [rewrite lookup_app_r, Nat.sub_diag by lia; reflexivity|].
    split; [exact Hq|].
    intros j m' Hlt Hj. rewrite lookup_app_l in Hj by lia.
    apply Hnew. apply list_elem_of_In. eapply list_elem_of_lookup_2, Hj.
Qed.

Lemma steps_classified qs st st' :
  steps qs st st' ->
  exists ks, fst st' = fst st ++ ks /\ length ks = length qs
    /\ forall i q k, qs !! i = Some q -> ks !! i = Some k -> similar q q = Ret true ->
                     classified (snd st') q k.
Proof.
  induction 1 as [st|q qs planIndexes D k D' st Ha Hs IH].
  - exists []. rewrite app_nil_r. split; [reflexivity|]. split; [reflexivity|].
    intros i q k Hq. rewrite lookup_nil in Hq. discriminate.
  - destruct IH as (ks & E & Hlen & Hall). cbn [fst snd] in *.
    exists (k :: ks). split; [rewrite E, <- app_assoc; reflexivity|].
    split; [cbn; lia|].
    intros [|i] q0 k0; cbn [lookup list_lookup].
    + intros [= <-] [= <-] Hq. eapply classified_prefix; [eapply steps_prefix, Hs|].
      cbn [snd]. eapply assigned_classified; eauto.
    + apply Hall.
Qed.

Lemma enumerated_classified qs planIndexes D i q k :
  enumerated qs planIndexes D -> qs !! i = Some q -> planIndexes !! i = Some k ->
  similar q q = Ret true -> classified D q k.
Proof.
  destruct qs as [|q0 qs]; cbn [enumerated]; [intros _ H; rewrite lookup_nil in H; discriminate|].
  intros Hs. pose proof (steps_prefix _ _ _ Hs) as Hp.
  destruct (steps_classified _ _ _ Hs) as (ks & E & Hlen & Hall). cbn [fst snd] in *. subst planIndexes.
  destruct i as [|i]; cbn [lookup list_lookup app].
  - intros [= <-] [= <-] Hq. eapply classified_prefix; [exact Hp|].
    exists 0%nat, q0. split; [reflexivity|]. split; [reflexivity|]. split; [exact Hq|]. intros; lia.
  - apply Hall.
Qed.

Lemma enumerated_pairwise qs planIndexes D :
  enumerated qs planIndexes D -> pairwise_different D.
Proof.
  destruct qs as [|q0 qs]; cbn [enumerated].
  - intros [_ ->] j k mj mk _ H. rewrite lookup_nil in H. discriminate.
  - intros Hs. apply (steps_pairwise _ _ _ Hs). cbn [snd].
    intros j k mj mk Hlt Hj Hk. apply lookup_lt_Some in Hk. cbn in Hk. lia.
Qed.

(** *** The statements a run sends *)

Lemma fetch_plan_trace comm query :
  snd (fetch_plan comm query) = [EvGetQEP query]
  \/ (fetch_plan comm query = (Raise TypeError, [])).
Proof.
  unfold fetch_plan, getQEP. destruct (cur comm) as [c|].
  - left. rewrite snd_mbind. cbn [fst snd]. destruct (swallow _); cbn; reflexivity.
  - right. reflexivity.
Qed.

Lemma enumerate_trace_prefix comm first queries planIndexes D :
  snd (enumerate comm first queries planIndexes D) `prefix_of` round_trips queries.
Proof.
  revert first planIndexes D.
  induction queries as [|q rest IH]; intros first planIndexes D; cbn [enumerate round_trips map].
  - reflexivity.
  - rewrite snd_mbind.
    destruct (fetch_plan_trace comm q) as [Et|E].
    + rewrite Et. destruct (fst (fetch_plan comm q)).
      * rewrite snd_mbind. cbn [lift fst snd app].
        destruct (record_plan first planIndexes D a); cbn [app].
        -- apply (prefix_cons (EvGetQEP q)), IH.
        -- apply (prefix_cons (EvGetQEP q)), prefix_nil.
      * apply (prefix_cons (EvGetQEP q)), prefix_nil.
    + rewrite E. cbn [fst snd]. apply prefix_nil.
Qed.

Lemma all_getQEP_round_trips queries : all_getQEP (round_trips queries).
Proof. unfold all_getQEP, round_trips. apply Forall_map, Forall_true. reflexivity. Qed.

Lemma all_getQEP_prefix t t' : t `prefix_of` t' -> all_getQEP t' -> all_getQEP t.
Proof. intros [k ->] H. apply Forall_app in H as [H _]. exact H. Qed.

Section Traces.
Variable get_var_column : string -> list string * list string.
Variable float_str : pyfloat -> string.

Lemma snd_generatePredicateValues comm attributes :
  no_getQEP (snd (_generatePredicateValues comm attributes)).
Proof.
  unfold _generatePredicateValues. apply no_getQEP_mbind.
  - apply predicate_values_loop_no_getQEP.
  - intros [d1 d2]. reflexivity.
Qed.

Lemma processQuery_trace query comm :
  exists t1 t2,
    snd (processQuery get_var_column float_str query comm) = t1 ++ t2
    /\ no_getQEP t1 /\ all_getQEP t2.
Proof.
  unfold processQuery. rewrite snd_mbind. cbn [lift fst snd app].
  destruct (_convertToQueryTemplate get_var_column query) as [[|attributes templateQuery]|e].
  - exists [], []. repeat split. constructor.
  - rewrite snd_mbind.
    pose proof (snd_generatePredicateValues comm attributes) as H1.
    destruct (fst (_generatePredicateValues comm attributes)) as [[d1 d2]|e].
    + eexists _, _. split; [reflexivity|]. split; [exact H1|].
      rewrite snd_mbind.
      change (match d2 with
              | Some l => _retrieveQEPs_TwoDimensions float_str templateQuery d1 l comm
              | None => _retrieveQEPs_OneDimension float_str templateQuery d1 comm
              end) with (enumeration float_str templateQuery d1 d2 comm).
      rewrite enumeration_enumerate.
      pose proof (enumerate_trace_prefix comm true (queries float_str templateQuery d1 d2) [] [])
        as Hp.
      pose proof (all_getQEP_prefix _ _ Hp (all_getQEP_round_trips _)) as Ha.
      destruct (fst (enumerate _ _ _ _ _)) as [[sm qs]|e]; [|exact Ha].
      cbn [mret snd]. rewrite app_nil_r. exact Ha.
    + exists (snd (_generatePredicateValues comm attributes)), [].
      rewrite app_nil_r. split; [reflexivity|]. split; [exact H1|constructor].
  - exists [], []. repeat split. constructor.
Qed.

End Traces.

Lemma findRelation_returns comm attribute schema :
  fst (findRelation comm attribute) = Ret schema ->
  snd (findRelation comm attribute) = [EvFindRelation attribute].
Proof.
  unfold findRelation. destruct (cur comm) as [c|]; [|discriminate].
  rewrite fst_mbind, snd_mbind. cbn [fst snd lift].
  destruct (pg_attribute_relname c attribute); [|discriminate]. intros _. apply app_nil_r.
Qed.

Lemma getHistogram_returns comm schema attribute histogram :
  fst (getHistogram comm schema attribute) = Ret histogram ->
  snd (getHistogram comm schema attribute) = [EvGetHistogram schema attribute]
  \/ histogram = PNone.
Proof.
  unfold getHistogram. destruct (cur comm) as [c|]; cbn [fst snd mret].
  - left. reflexivity.
  - intros [= <-]. right. reflexivity.
Qed.

Lemma getCardinality_returns comm schema cardinality :
  fst (getCardinality comm schema) = Ret cardinality ->
  snd (getCardinality comm schema) = [EvGetCardinality schema].
Proof.
  unfold getCardinality. destruct (cur comm) as [c|]; [|discriminate].
  rewrite fst_mbind, snd_mbind. cbn [fst snd lift].
  destruct (pg_class_reltuples c schema); [|discriminate]. intros _. apply app_nil_r.
Qed.

Lemma readHistogram_None : _readHistogram PNone = Raise TypeError.
Proof. reflexivity. Qed.

Lemma predicate_values_loop_requests comm index attributes d1 d2 r :
  fst (predicate_values_loop comm index attributes d1 d2) = Ret r ->
  snd (predicate_values_loop comm index attributes d1 d2) = stats_requests comm attributes.
Proof.
  revert index d1 d2.
  induction attributes as [|a attributes IH]; intros index d1 d2; [reflexivity|].
  cbn [predicate_values_loop stats_requests flat_map].
  rewrite fst_mbind, snd_mbind.
  destruct (fst (findRelation comm a)) as [schema|e] eqn:Ef; [|discriminate].
  rewrite (findRelation_returns _ _ _ Ef).
  rewrite fst_mbind, snd_mbind.
  destruct (fst (getHistogram comm schema a)) as [histogram|e] eqn:Eh; [|discriminate].
  rewrite fst_mbind, snd_mbind.
  destruct (fst (getCardinality comm schema)) as [cardinality|e] eqn:Ec; [|discriminate].
  rewrite (getCardinality_returns _ _ _ Ec).
  rewrite fst_mbind, snd_mbind. cbn [lift fst snd].
  destruct (_readHistogram histogram) as [rh|e] eqn:Er; [|discriminate].
  destruct (getHistogram_returns _ _ _ _ Eh) as [-> | ->];
    [|rewrite readHistogram_None in Er; discriminate].
  destruct index as [|[|index]].
  - intros H. rewrite (IH _ _ _ H). reflexivity.
  - intros H. rewrite (IH _ _ _ H). reflexivity.
  - discriminate.
Qed.

Lemma enumerate_requests comm first queries planIndexes D st :
  fst (enumerate comm first queries planIndexes D) = Ret st ->
  snd (enumerate comm first queries planIndexes D) = round_trips queries.
Proof.
  revert first planIndexes D.
  induction queries as [|q rest IH]; intros first planIndexes D; [reflexivity|].
  cbn [enumerate round_trips map]. rewrite fst_mbind, snd_mbind.
  destruct (fetch_plan_trace comm q) as [Et|E]; [|rewrite E; discriminate].
  rewrite Et. destruct (fst (fetch_plan comm q)) as [qep|e]; [|discriminate].
  rewrite fst_mbind, snd_mbind. cbn [lift fst snd].
  destruct (record_plan first planIndexes D qep) as [r|e]; [|discriminate].
  intros H. rewrite (IH _ _ _ H). reflexivity.
Qed.

Section Statements.
Variable get_var_column : string -> list string * list string.
Variable float_str : pyfloat -> string.

Lemma processQuery_requests query comm lstAllQEPs attributes selectivityMap :
  fst (processQuery get_var_column float_str query comm)
  = Ret (ProcessAllQEPs lstAllQEPs attributes selectivityMap) ->
  exists qs,
    snd (processQuery get_var_column float_str query comm)
    = stats_requests comm attributes ++ round_trips qs
    /\ length qs = length selectivityMap.
Proof.
  unfold processQuery. rewrite fst_mbind, snd_mbind. cbn [lift fst snd app].
  destruct (_convertToQueryTemplate get_var_column query) as [[|attrs templateQuery]|e];
    try discriminate.
  rewrite fst_mbind, snd_mbind.
  destruct (fst (_generatePredicateValues comm attrs)) as [[d1 d2]|e] eqn:Eg; [|discriminate].
  assert (snd (_generatePredicateValues comm attrs) = stats_requests comm attrs) as ->.
  { revert Eg. unfold _generatePredicateValues. rewrite fst_mbind, snd_mbind.
    destruct (fst (predicate_values_loop comm 0 attrs [] [])) as [[l1 l2]|e] eqn:El; [|discriminate].
    intros _. rewrite (predicate_values_loop_requests _ _ _ _ _ _ El). apply app_nil_r. }
  change (match d2 with
          | Some l => _retrieveQEPs_TwoDimensions float_str templateQuery d1 l comm
          | None => _retrieveQEPs_OneDimension float_str templateQuery d1 comm
          end) with (enumeration float_str templateQuery d1 d2 comm).
  rewrite fst_mbind, snd_mbind.
  destruct (fst (enumeration float_str templateQuery d1 d2 comm)) as [[sm L]|e] eqn:Ee;
    [|discriminate].
  cbn [mret fst snd]. intros [= -> -> ->].
  exists (queries float_str templateQuery d1 d2). rewrite app_nil_r.
  split.
  - f_equal. rewrite enumeration_enumerate in *. eapply enumerate_requests, Ee.
  - apply enumeration_spec in Ee as (ps & HF & He).
    apply enumerated_grid_ok in He as ((Hlen & _) & _). cbn [fst] in Hlen.
    apply Forall2_length in HF. congruence.
Qed.

End Statements.

(** X1: [compareActualQEP] answers [RET_QEP_FOUND] with the number of the
    first plan of the list that is judged equivalent to the actual plan,
    [RET_QEP_NOT_FOUND] exactly when every plan of the list is judged
    different, and it fails only where the judgement of some plan fails. *)
Theorem X1_compareActualQEP_names_the_first_equivalent_plan
    (actualQEP : pyval) (lstAllQEPs : list pyval) :
  (forall k, compareActualQEP actualQEP lstAllQEPs = Ret (RET_QEP_FOUND, Some k) <->
             classified lstAllQEPs actualQEP k)
  /\ (compareActualQEP actualQEP lstAllQEPs = Ret (RET_QEP_NOT_FOUND, None) <->
      forall m, In m lstAllQEPs -> similar m actualQEP = Ret false)
  /\ (forall e, compareActualQEP actualQEP lstAllQEPs = Raise e ->
                exists m, In m lstAllQEPs /\ similar m actualQEP = Raise e).
Proof.
  split; [intros k; apply compareActualQEP_found|].
  split; [apply compareActualQEP_not_found|apply compareActualQEP_raises].
Qed.

(** X2: the plan of a sampled point, given to [compareActualQEP] with the
    distinct plans the enumeration returned, gets the number the grid has for
    that point, provided the plan is judged equivalent to itself. *)
Theorem X2_sampled_point_is_classified_as_in_the_grid
    (float_str : pyfloat -> string) (query : string) (vals1 : list pyfloat)
    (vals2 : option (list pyfloat)) (comm : Postgres_Connect)
    (planIndexes : list nat) (D : list pyval) (i : nat) (sent : string) (q : pyval) (k : nat) :
  fst (enumeration float_str query vals1 vals2 comm) = Ret (planIndexes, D) ->
  queries float_str query vals1 vals2 !! i = Some sent ->
  fetched comm sent = Ret q ->
  planIndexes !! i = Some k ->
  similar q q = Ret true ->
  compareActualQEP q D = Ret (RET_QEP_FOUND, Some k).
Proof.
  intros He Hs Hf Hk Hq. apply enumeration_spec in He as (qs & HF & He).
  destruct (Forall2_lookup_l _ _ _ _ _ HF Hs) as (q' & Hq' & Hf'). cbn in Hf'.
  rewrite Hf in Hf'. injection Hf' as <-.
  apply compareActualQEP_found. eapply enumerated_classified; eauto.
Qed.

Lemma X2_witness :
  compareActualQEP (qep_of (seq_scan 90 5000))
    [qep_of (index_scan 40 100); qep_of (seq_scan 90 5000)]
  = Ret (RET_QEP_FOUND, Some 2%nat).
Proof.
  apply (X2_sampled_point_is_classified_as_in_the_grid float_str_int template_quantity
           selvals_10 None db_switch [1; 1; 1; 1; 2; 2; 2; 2; 2; 2]%nat
           [qep_of (index_scan 40 100); qep_of (seq_scan 90 5000)] 5
           "SELECT * FROM lineitem WHERE l_quantity<= 55.0").
  - vm_compute. reflexivity.
  - vm_compute. reflexivity.
  - vm_compute. reflexivity.
  - reflexivity.
  - vm_compute. reflexivity.
Defined.

(** X3: in the distinct plans an enumeration returns, no plan is judged
    equivalent to a plan that was added after it. *)
Theorem X3_distinct_plans_are_pairwise_different
    (float_str : pyfloat -> string) (query : string) (vals1 : list pyfloat)
    (vals2 : option (list pyfloat)) (comm : Postgres_Connect)
    (planIndexes : list nat) (D : list pyval) :
  fst (enumeration float_str query vals1 vals2 comm) = Ret (planIndexes, D) ->
  pairwise_different D.
Proof.
  intros He. apply enumeration_spec in He as (qs & _ & He).
  eapply enumerated_pairwise, He.
Qed.

Lemma X3_witness :
  pairwise_different [qep_of (index_scan 40 100); qep_of (seq_scan 90 5000)].
Proof.
  apply (X3_distinct_plans_are_pairwise_different float_str_int template_quantity
           selvals_10 None db_switch [1; 1; 1; 1; 2; 2; 2; 2; 2; 2]%nat).
  vm_compute. reflexivity.
Defined.

(** X4: the statements an enumeration sends are plan requests for the
    queries of the sampled points, in sampling order and without a gap: a
    beginning of that list in every run, the whole list in a run that
    returns. *)
Theorem X4_enumeration_requests_one_plan_per_point
    (float_str : pyfloat -> string) (query : string) (vals1 : list pyfloat)
    (vals2 : option (list pyfloat)) (comm : Postgres_Connect) :
  snd (enumeration float_str query vals1 vals2 comm)
    `prefix_of` round_trips (queries float_str query vals1 vals2)
  /\ (forall st, fst (enumeration float_str query vals1 vals2 comm) = Ret st ->
                 snd (enumeration float_str query vals1 vals2 comm)
                 = round_trips (queries float_str query vals1 vals2)
                 /\ length (snd (enumeration float_str query vals1 vals2 comm))
                    = sampled_points vals1 vals2).
Proof.
  rewrite enumeration_enumerate. split; [apply enumerate_trace_prefix|].
  intros st H. rewrite (enumerate_requests _ _ _ _ _ _ H). split; [reflexivity|].
  unfold round_trips. rewrite length_map. apply length_queries.
Qed.

Lemma X4_witness :
  snd (enumeration float_str_int template_quantity selvals_10 None db_switch)
  = round_trips (queries float_str_int template_quantity selvals_10 None)
  /\ length (snd (enumeration float_str_int template_quantity selvals_10 None db_switch))
     = sampled_points selvals_10 None.
Proof.
  apply (proj2 (X4_enumeration_requests_one_plan_per_point float_str_int template_quantity
                  selvals_10 None db_switch)
           ([1; 1; 1; 1; 2; 2; 2; 2; 2; 2]%nat,
            [qep_of (index_scan 40 100); qep_of (seq_scan 90 5000)])).
  vm_compute. reflexivity.
Defined.

(** X5: in every run of [processQuery], failed ones included, the
    statements that read statistics all come before the plan requests. *)
Theorem X5_processQuery_reads_statistics_before_it_requests_plans
    (get_var_column : string -> list string * list string)
    (float_str : pyfloat -> string) (query : string) (comm : Postgres_Connect) :
  exists t1 t2,
    snd (processQuery get_var_column float_str query comm) = t1 ++ t2
    /\ no_getQEP t1 /\ all_getQEP t2.
Proof. apply processQuery_trace. Qed.

(** X6: a run of [processQuery] that returns has sent, for each predicate
    attribute in turn, the three statements that find its relation, read its
    histogram and read its cardinality, and after them one plan request for
    every entry of the selectivity map; nothing else. *)
Theorem X6_processQuery_statements_of_a_run_that_returns
    (get_var_column : string -> list string * list string)
    (float_str : pyfloat -> string) (query : string) (comm : Postgres_Connect)
    (lstAllQEPs : list pyval) (attributes : list string) (selectivityMap : list nat) :
  fst (processQuery get_var_column float_str query comm)
  = Ret (ProcessAllQEPs lstAllQEPs attributes selectivityMap) ->
  exists qs,
    snd (processQuery get_var_column float_str query comm)
    = stats_requests comm attributes ++ round_trips qs
    /\ length qs = length selectivityMap.
Proof. apply processQuery_requests. Qed.

Lemma X6_witness :
  exists qs,
    snd (processQuery get_var_column_sample float_str_int query_quantity db_switch)
    = stats_requests db_switch ["l_quantity"] ++ round_trips qs
    /\ length qs = length [1; 1; 1; 1; 2; 2; 2; 2; 2; 2]%nat.
Proof.
  apply (X6_processQuery_statements_of_a_run_that_returns get_var_column_sample float_str_int
           query_quantity db_switch
           [qep_of (index_scan 40 100); qep_of (seq_scan 90 5000)]).
  vm_compute. reflexivity.
Defined.

End Classification.

(** ** Statistics *)

Module Statistics.
Import PyStr QepProcessor EnumerationSpec Samples Enumeration Requests Sampler RunsSpec.

Lemma every_nth_go_length {A} (l : list A) (skip : nat) :
  (skip <= 10)%nat ->
  length (every_nth_go 11 l skip) = ((length l - skip + 10) / 11)%nat.
Proof.
  revert skip. induction l as [|x l IH]; intros skip Hs; cbn [every_nth_go length].
  - symmetry. apply Nat.div_small. lia.
  - destruct skip as [|k].
    + cbn [length]. change (11 - 1)%nat with 10%nat. rewrite IH by lia.
      replace (S (length l) - 0 + 10)%nat with (length l + 1 * 11)%nat by lia.
      rewrite Nat.div_add by lia.
      destruct (decide (length l < 10)%nat) as [Hlt|Hge].
      * rewrite !Nat.div_small by lia. reflexivity.
      * replace (length l - 10 + 10)%nat with (length l) by lia. lia.
    + rewrite IH by lia. f_equal.
Qed.

Lemma every_nth_length {A} (l : list A) :
  length (every_nth 11 l) = ((length l + 10) / 11)%nat.
Proof. unfold every_nth. rewrite every_nth_go_length by lia. f_equal. lia. Qed.

Lemma floats_length items xs : floats items = Ret xs -> length xs = length items.
Proof.
  revert xs. induction items as [|item items IH]; intros xs; cbn [floats].
  - intros [= <-]. reflexivity.
  - destruct (float_of_str item); [|discriminate].
    destruct (floats items) as [ys|]; [|discriminate]. cbn [obind].
    intros [= <-]. cbn [length]. f_equal. apply IH. reflexivity.
Qed.

Lemma split_go_nonempty sep s skip cur : split_go sep s skip cur <> [].
Proof.
  revert skip cur. induction s as [|c s IH]; intros skip cur; cbn [split_go]; [discriminate|].
  destruct skip; [|apply IH]. destruct (is_prefix sep (String c s)); [discriminate|apply IH].
Qed.

Lemma predicate_values_length n sel step : length (predicate_values n sel step) = n.
Proof. revert sel. induction n as [|n IH]; intros sel; cbn; [reflexivity|]. rewrite IH. reflexivity. Qed.

(** What [_readHistogram] returns for a row whose first column is the text
    [b]: one value for every 11th of the comma-separated items of [b[1:-1]]. *)
Lemma readHistogram_length b cols rows sel pv :
  _readHistogram (PList (PTuple (PStr b :: cols) :: rows)) = Ret (sel, pv) ->
  length sel = ((length (split (slice_1_m1 b) ",") + 10) / 11)%nat
  /\ length pv = RESOLUTION.
Proof.
  unfold _readHistogram. cbn [getitem lookup list_lookup obind slice_val split_val].
  destruct (cols !! 0%nat) as [mcv|]; cbn [obind]; [|discriminate].
  destruct (slice_val mcv) as [szm|]; cbn [obind]; [|discriminate].
  destruct (split_val szm) as [lm|]; cbn [obind]; [|discriminate].
  destruct (cols !! 1%nat) as [fr|]; cbn [obind]; [|discriminate].
  destruct (slice_val fr) as [lf|]; cbn [obind]; [|discriminate].
  change (100 / RESOLUTION + 1)%nat with 11%nat.
  destruct (floats (every_nth 11 (split (slice_1_m1 b) ","))) as [hs|] eqn:Eh; cbn [obind];
    [|discriminate].
  intros [= <- <-]. rewrite length_imap, (floats_length _ _ Eh), every_nth_length.
  split; reflexivity.
Qed.

Lemma every_nth_go_nonempty {A} (l : list A) (skip : nat) :
  (skip < length l)%nat -> every_nth_go 11 l skip <> [].
Proof.
  revert skip. induction l as [|x l IH]; intros skip; cbn [length every_nth_go]; [lia|].
  destruct skip; [discriminate|]. intros H. apply IH. lia.
Qed.

Lemma readHistogram_nonempty histogram sel pv :
  _readHistogram histogram = Ret (sel, pv) -> sel <> [].
Proof.
  unfold _readHistogram.
  destruct (getitem histogram 0) as [row|]; cbn [obind]; [|discriminate].
  destruct (getitem row 0) as [bounds|]; cbn [obind]; [|discriminate].
  destruct (slice_val bounds) as [sz|]; cbn [obind]; [|discriminate].
  destruct (split_val sz) as [items|] eqn:Es; cbn [obind]; [|discriminate].
  destruct (getitem row 1) as [mcv|]; cbn [obind]; [|discriminate].
  destruct (slice_val mcv) as [szm|]; cbn [obind]; [|discriminate].
  destruct (split_val szm) as [lm|]; cbn [obind]; [|discriminate].
  destruct (getitem row 2) as [fr|]; cbn [obind]; [|discriminate].
  destruct (slice_val fr) as [lf|]; cbn [obind]; [|discriminate].
  change (100 / RESOLUTION + 1)%nat with 11%nat.
  destruct (floats (every_nth 11 items)) as [hs|] eqn:Eh; cbn [obind]; [|discriminate].
  intros [= <- _] Hnil. apply (f_equal length) in Hnil.
  rewrite length_imap, (floats_length _ _ Eh) in Hnil.
  destruct sz; try discriminate. cbn [split_val] in Es. injection Es as <-.
  apply length_zero_iff_nil in Hnil. revert Hnil. apply every_nth_go_nonempty.
  pose proof (split_go_nonempty "," s 0 "") as Hne. unfold split.
  destruct (split_go "," s 0 ""); [contradiction|cbn; lia].
Qed.

Lemma predicate_values_loop_step comm index a attributes d1 d2 r :
  fst (predicate_values_loop comm index (a :: attributes) d1 d2) = Ret r ->
  exists sel, sel <> [] /\
    match index with
    | 0%nat => fst (predicate_values_loop comm 1 attributes (d1 ++ sel) d2) = Ret r
    | 1%nat => fst (predicate_values_loop comm 2 attributes d1 (d2 ++ sel)) = Ret r
    | _ => False
    end.
Proof.
  cbn [predicate_values_loop]. rewrite fst_mbind.
  destruct (fst (findRelation comm a)) as [schema|e]; [|discriminate].
  rewrite fst_mbind.
  destruct (fst (getHistogram comm schema a)) as [histogram|e]; [|discriminate].
  rewrite fst_mbind.
  destruct (fst (getCardinality comm schema)) as [cardinality|e]; [|discriminate].
  rewrite fst_mbind. cbn [lift fst].
  destruct (_readHistogram histogram) as [[sel pv]|e] eqn:Er; [|discriminate].
  cbn [fst]. intros H. exists sel. split; [eapply readHistogram_nonempty, Er|].
  destruct index as [|[|index]]; [exact H|exact H|discriminate].
Qed.

Lemma generatePredicateValues_dimensions comm attributes d1 d2 :
  fst (_generatePredicateValues comm attributes) = Ret (d1, d2) ->
  (attributes = [] /\ d1 = [] /\ d2 = None)
  \/ (length attributes = 1%nat /\ d1 <> [] /\ d2 = None)
  \/ (length attributes = 2%nat /\ d1 <> [] /\ exists l, d2 = Some l /\ l <> []).
Proof.
  unfold _generatePredicateValues. rewrite fst_mbind.
  destruct (fst (predicate_values_loop comm 0 attributes [] [])) as [[r1 r2]|e] eqn:E;
    [|discriminate].
  cbn [mret fst]. intros [= <- <-].
  destruct attributes as [|a [|b [|c rest]]].
  - left. cbn in E. injection E as <- <-. auto.
  - right; left. apply predicate_values_loop_step in E as (sel & Hsel & E).
    cbn in E. injection E as <- <-. auto.
  - right; right. apply predicate_values_loop_step in E as (sel & Hsel & E).
    apply predicate_values_loop_step in E as (sel2 & Hsel2 & E).
    cbn in E. injection E as <- <-. split; [reflexivity|]. split; [exact Hsel|].
    destruct sel2; [contradiction|]. eexists. split; [reflexivity|discriminate].
  - apply predicate_values_loop_step in E as (sel & Hsel & E).
    apply predicate_values_loop_step in E as (sel2 & Hsel2 & E).
    apply predicate_values_loop_step in E as (sel3 & Hsel3 & []).
Qed.

(** *** Requests without a connection *)

Section Unconnected.
Variable get_var_column : string -> list string * list string.
Variable float_str : pyfloat -> string.

Lemma convert_ok_nonempty query attributes templateQuery :
  _convertToQueryTemplate get_var_column query = Ret (ConvertOk attributes templateQuery) ->
  attributes <> [].
Proof.
  unfold _convertToQueryTemplate. destruct (get_var_column query) as [attrs clauses].
  destruct (drop_non_numeric clauses [] attrs) as [[rem attrs']|e]; cbn [obind]; [|discriminate].
  destruct (map bare_attribute attrs') as [|a l] eqn:Em; [discriminate|].
  destruct (replace_clauses _ _ _ _); cbn [obind]; [|discriminate].
  intros [= <- _]. discriminate.
Qed.

Lemma processQuery_unconnected query comm attributes templateQuery :
  cur comm = None ->
  _convertToQueryTemplate get_var_column query = Ret (ConvertOk attributes templateQuery) ->
  processQuery get_var_column float_str query comm = (Raise AttributeError, []).
Proof.
  intros Hc Hq. pose proof (convert_ok_nonempty _ _ _ Hq) as Hne.
  unfold processQuery. rewrite Hq. rewrite mbind_lift_ret.
  destruct attributes as [|a attributes]; [contradiction|].
  unfold _generatePredicateValues. cbn [predicate_values_loop].
  unfold findRelation at 1. rewrite Hc. reflexivity.
Qed.

Lemma getActualQEP_unconnected query comm :
  cur comm = None -> getActualQEP query comm = (Raise TypeError, []).
Proof.
  intros Hc. unfold getActualQEP, fetch_plan, getQEP. rewrite Hc. reflexivity.
Qed.

End Unconnected.

(** X7: what [_readHistogram] does with statistics it cannot use.  [None]
    (what [getHistogram] returns after an error) raises [TypeError]; no row at
    all raises [IndexError]; a row whose bounds, most common values or
    frequencies are NULL raises [TypeError], although the most common values
    and the frequencies are not used for the result; bounds whose first item
    is not a number raise [ValueError]. *)
Theorem X7_readHistogram_rejects_unusable_statistics :
  _readHistogram PNone = Raise TypeError
  /\ _readHistogram (PList []) = Raise IndexError
  /\ (forall mcv freqs rows,
        _readHistogram (PList (PTuple [PNone; mcv; freqs] :: rows)) = Raise TypeError)
  /\ (forall b freqs rows,
        _readHistogram (PList (PTuple [PStr b; PNone; freqs] :: rows)) = Raise TypeError)
  /\ (forall b mcv rows,
        _readHistogram (PList (PTuple [PStr b; PStr mcv; PNone] :: rows)) = Raise TypeError)
  /\ (forall b mcv freqs rows item items,
        split (slice_1_m1 b) "," = item :: items ->
        float_of_str item = None ->
        _readHistogram (PList (PTuple [PStr b; PStr mcv; PList freqs] :: rows))
        = Raise ValueError).
Proof.
  repeat split; try reflexivity.
  intros b mcv freqs rows item items Hs Hf. unfold _readHistogram.
  cbn [getitem lookup list_lookup obind slice_val split_val]. rewrite Hs.
  unfold every_nth. cbn [every_nth_go floats]. rewrite Hf. reflexivity.
Qed.

Lemma X7_witness :
  _readHistogram (PList [PTuple [PStr "{1995-01-01,1996-06-30}"; PStr "{}"; PList []]])
  = Raise ValueError.
Proof.
  apply (proj2 (proj2 (proj2 (proj2 (proj2 X7_readHistogram_rejects_unusable_statistics))))
           "{1995-01-01,1996-06-30}" "{}" [] [] "1995-01-01" ["1996-06-30"]).
  - vm_compute. reflexivity.
  - vm_compute. reflexivity.
Defined.

(** X8: [_readHistogram] returns one selectivity value for every 11th item
    of the bounds, beginning with the first: for [n] items that is
    [ceil(n / 11)] values, which is [RESOLUTION] only for [n] from 100 to 110;
    the predicate values are always [RESOLUTION] many. *)
Theorem X8_readHistogram_returns_one_value_per_eleven_bounds
    (b : string) (cols rows : list pyval) (selValues : list pyfloat) (predicateValues : list Q) :
  _readHistogram (PList (PTuple (PStr b :: cols) :: rows)) = Ret (selValues, predicateValues) ->
  let n := length (split (slice_1_m1 b) ",") in
  length selValues = ((n + 10) / 11)%nat
  /\ (length selValues = RESOLUTION <-> (100 <= n <= 110)%nat)
  /\ length predicateValues = RESOLUTION.
Proof.
  intros H n. destruct (readHistogram_length _ _ _ _ _ H) as [Hs Hp]. fold n in Hs.
  split; [exact Hs|]. split; [|exact Hp]. rewrite Hs. unfold RESOLUTION.
  pose proof (Nat.div_mod_eq (n + 10) 11) as Hd.
  pose proof (Nat.mod_upper_bound (n + 10) 11 ltac:(lia)) as Hm.
  split; intros; lia.
Qed.

Lemma X8_witness :
  exists selValues predicateValues,
    _readHistogram histogram_101 = Ret (selValues, predicateValues)
    /\ length selValues = ((length (split (slice_1_m1 bounds_text_101) ",") + 10) / 11)%nat
    /\ (length selValues = RESOLUTION
        <-> (100 <= length (split (slice_1_m1 bounds_text_101) ",") <= 110)%nat)
    /\ length predicateValues = RESOLUTION.
Proof.
  destruct (_readHistogram histogram_101) as [[sel pv]|e] eqn:E;
    [|exfalso; revert E; vm_compute; discriminate].
  exists sel, pv. split; [reflexivity|].
  apply (X8_readHistogram_returns_one_value_per_eleven_bounds bounds_text_101
           [PStr "{1,2}"; PList [PNum 0.3; PNum 0.2]] [] sel pv E).
Defined.

(** X9: when [_generatePredicateValues] returns, there were at most two
    attributes; the second list of values is [None] exactly when there were
    fewer than two, and every list it returns for an attribute holds at least
    one value. *)
Theorem X9_generatePredicateValues_dimensions
    (comm : Postgres_Connect) (attributes : list string)
    (lstSelValsDimension01 : list pyfloat) (lstSelValsDimension02 : option (list pyfloat)) :
  fst (_generatePredicateValues comm attributes)
  = Ret (lstSelValsDimension01, lstSelValsDimension02) ->
  (attributes = [] /\ lstSelValsDimension01 = [] /\ lstSelValsDimension02 = None)
  \/ (length attributes = 1%nat /\ lstSelValsDimension01 <> []
      /\ lstSelValsDimension02 = None)
  \/ (length attributes = 2%nat /\ lstSelValsDimension01 <> []
      /\ exists l, lstSelValsDimension02 = Some l /\ l <> []).
Proof. apply generatePredicateValues_dimensions. Qed.

Lemma X9_witness :
  exists d1 d2,
    fst (_generatePredicateValues db_switch ["l_quantity"; "l_tax"]) = Ret (d1, d2)
    /\ ((["l_quantity"; "l_tax"] = [] /\ d1 = [] /\ d2 = None)
        \/ (length ["l_quantity"; "l_tax"] = 1%nat /\ d1 <> [] /\ d2 = None)
        \/ (length ["l_quantity"; "l_tax"] = 2%nat /\ d1 <> []
            /\ exists l, d2 = Some l /\ l <> [])).
Proof.
  destruct (fst (_generatePredicateValues db_switch ["l_quantity"; "l_tax"]))
    as [[d1 d2]|e] eqn:E; [|exfalso; revert E; vm_compute; discriminate].
  exists d1, d2. split; [reflexivity|].
  apply (X9_generatePredicateValues_dimensions db_switch ["l_quantity"; "l_tax"] d1 d2 E).
Defined.

(** X10: with a communicator that is not connected, [processQuery] on a
    query that converts to a template raises [AttributeError] at the first
    statistics statement, and [getActualQEP] raises [TypeError]; neither sends
    anything to the engine. *)
Theorem X10_requests_without_a_connection
    (get_var_column : string -> list string * list string)
    (float_str : pyfloat -> string) (query : string) (comm : Postgres_Connect) :
  cur comm = None ->
  getActualQEP query comm = (Raise TypeError, [])
  /\ (forall attributes templateQuery,
        _convertToQueryTemplate get_var_column query
        = Ret (ConvertOk attributes templateQuery) ->
        processQuery get_var_column float_str query comm = (Raise AttributeError, [])).
Proof.
  intros Hc. split; [apply getActualQEP_unconnected, Hc|].
  intros attributes templateQuery Hq. eapply processQuery_unconnected; eauto.
Qed.

Lemma X10_witness :
  processQuery get_var_column_sample float_str_int query_quantity {| cur := None |}
  = (Raise AttributeError, []).
Proof.
  apply (proj2 (X10_requests_without_a_connection get_var_column_sample float_str_int
                  query_quantity {| cur := None |} eq_refl)
           ["l_quantity"] template_quantity).
  vm_compute. reflexivity.
Defined.

End Statistics.

(** ** Costs and annotation *)

Module Costs.
Import PyStr QueryPlanVisualizer PlanTreeSpec PlanTree TreeSpec.

Lemma erase_children cs :
  Forall (fun p => forall nc, erase (fst (_generate_ids_and_cost p nc)) = erase p) cs ->
  forall costs nc, map erase (fst (fst (children_loop cs costs nc))) = map erase cs.
Proof.
  induction 1 as [|c cs Hc Hcs IH]; intros costs nc; [reflexivity|].
  rewrite children_loop_cons. cbn [fst snd map]. rewrite Hc, IH. reflexivity.
Qed.

Lemma erase_generated p nc : erase (fst (_generate_ids_and_cost p nc)) = erase p.
Proof.
  revert nc. induction p as [nt tc i c ps IH] using plan_ind'. intros nc.
  rewrite generate_unfold. cbn [fst erase node_type total_cost plans].
  rewrite (erase_children ps IH). reflexivity.
Qed.

Lemma generated_has_id_and_cost p nc :
  is_Some (id (fst (_generate_ids_and_cost p nc)))
  /\ is_Some (cost (fst (_generate_ids_and_cost p nc))).
Proof. destruct p. rewrite generate_unfold. cbn. split; eexists; reflexivity. Qed.

(** Rounding is monotone. *)
Lemma round_half_even_cases x :
  (round_half_even x = Qfloor x /\ (x - inject_Z (Qfloor x) <= 1 # 2)%Q)
  \/ (round_half_even x = (Qfloor x + 1)%Z /\ (1 # 2 <= x - inject_Z (Qfloor x))%Q).
Proof.
  unfold round_half_even.
  destruct (Qcompare_spec (x - inject_Z (Qfloor x)) (1 # 2)) as [E|E|E].
  - destruct (Z.even (Qfloor x)); [left|right]; split; try reflexivity; rewrite E; lra.
  - left. split; [reflexivity|lra].
  - right. split; [reflexivity|lra].
Qed.

Lemma round_half_even_mono x y : (x <= y)%Q -> (round_half_even x <= round_half_even y)%Z.
Proof.
  intros Hxy. pose proof (Qfloor_resp_le _ _ Hxy) as Hf.
  destruct (Z.eq_dec (Qfloor x) (Qfloor y)) as [E|N].
  - unfold round_half_even. rewrite <- E.
    destruct (Qcompare_spec (x - inject_Z (Qfloor x)) (1 # 2)) as [Ex|Ex|Ex];
      destruct (Qcompare_spec (y - inject_Z (Qfloor x)) (1 # 2)) as [Ey|Ey|Ey];
      try destruct (Z.even (Qfloor x)); try lia; try lra.
  - destruct (round_half_even_cases x) as [[-> _]|[-> _]];
      destruct (round_half_even_cases y) as [[-> _]|[-> _]]; lia.
Qed.

Lemma inject_Z_le_iff a b : (a <= b)%Z -> (inject_Z a <= inject_Z b)%Q.
Proof. intros H. rewrite <- Zle_Qle. exact H. Qed.

Lemma round2_mono x y : (x <= y)%Q -> (round2 x <= round2 y)%Q.
Proof.
  intros Hxy. rewrite !round2_scaled.
  assert (round_half_even (x * 100) <= round_half_even (y * 100))%Z as H
    by (apply round_half_even_mono; lra).
  apply inject_Z_le_iff in H. lra.
Qed.

Lemma max0_mono x y : (x <= y)%Q -> (max0 x <= max0 y)%Q.
Proof.
  intros Hxy. destruct (max0_spec x) as [[Ex Hx]|[Ex Hx]], (max0_spec y) as [[Ey Hy]|[Ey Hy]];
    rewrite ?Ex, ?Ey; lra.
Qed.

Lemma Cost_mono x y : (x <= y)%Q -> (Cost x <= Cost y)%Q.
Proof. intros Hxy. unfold Cost. apply round2_mono, max0_mono, Hxy. Qed.

Lemma Cost_is_printed x : printed_cost (Cost x).
Proof.
  split; [apply Cost_nonneg|]. unfold Cost. eexists. unfold round2. reflexivity.
Qed.

Lemma Cost_idem x : (Cost (Cost x) == Cost x)%Q.
Proof. apply Cost_printed, Cost_is_printed. Qed.

Lemma Cost_nonpos x : (x <= 0)%Q -> (Cost x == 0)%Q.
Proof.
  intros Hx. unfold Cost.
  destruct (max0_spec x) as [[E H]|[E H]].
  - assert (x == 0)%Q as E0 by lra. rewrite E, E0. apply round2_zero.
  - rewrite E. apply round2_zero.
Qed.

(** X11: [Cost] gives a cost that is not negative and has at most two
    decimals; applying it again changes nothing; it keeps the order of
    costs; and it is 0 for every cost that is not positive. *)
Theorem X11_Cost_is_idempotent_and_monotone :
  (forall x, printed_cost (Cost x))
  /\ (forall x, (Cost (Cost x) == Cost x)%Q)
  /\ (forall x y, (x <= y)%Q -> (Cost x <= Cost y)%Q)
  /\ (forall x, (x <= 0)%Q -> (Cost x == 0)%Q).
Proof.
  split; [apply Cost_is_printed|]. split; [apply Cost_idem|].
  split; [apply Cost_mono|apply Cost_nonpos].
Qed.

Lemma X11_witness : (Cost (-3) <= Cost 12.344)%Q /\ (Cost (-3) == 0)%Q.
Proof.
  split.
  - apply (proj1 (proj2 (proj2 X11_Cost_is_idempotent_and_monotone)) (-3)%Q 12.344%Q).
    vm_compute. discriminate.
  - apply (proj2 (proj2 (proj2 X11_Cost_is_idempotent_and_monotone)) (-3)%Q).
    vm_compute. discriminate.
Defined.

(** X12: [_generate_ids_and_cost] writes the keys ['id'] and ['cost'] on
    every node and changes nothing else: the kinds, the total costs and the
    order of the children are as before, whatever the counter it starts
    from. *)
Theorem X12_generate_ids_and_cost_changes_only_id_and_cost
    (current_plan : plan) (name_counter : gmap string nat) :
  erase (fst (_generate_ids_and_cost current_plan name_counter)) = erase current_plan
  /\ Forall (fun node => is_Some (id node) /\ is_Some (cost node))
       (nodes (fst (_generate_ids_and_cost current_plan name_counter))).
Proof.
  split; [apply erase_generated|]. apply Forall_forall. intros node Hin.
  apply list_elem_of_In, nodes_generated in Hin as (p0 & nc0 & ->).
  apply generated_has_id_and_cost.
Qed.

End Costs.

(** ** Grid and selectivity ranges *)

Module Grid.
Import PyStr QepProcessor Samples GridSpec.

(** *** Reshaping the grid *)

Lemma chunks_lookup {A} (fuel n : nat) (l : list A) (r : nat) :
  (0 < n)%nat -> (length l <= fuel)%nat ->
  chunks fuel n l !! r
  = if decide (r * n < length l)%nat then Some (take n (drop (r * n) l)) else None.
Proof.
  intros Hn. revert l r. induction fuel as [|fuel IH]; intros l r Hl.
  - destruct l; [|cbn in Hl; lia]. cbn. rewrite decide_False by (cbn; lia). reflexivity.
  - destruct l as [|x l]; [cbn; rewrite decide_False by (cbn; lia); reflexivity|].
    cbn [chunks]. destruct r as [|r].
    + cbn [lookup list_lookup Nat.mul]. rewrite decide_True by (cbn; lia). reflexivity.
    + cbn [lookup list_lookup]. rewrite IH.
      2:{ rewrite length_drop. cbn [length] in *. lia. }
      rewrite length_drop, drop_drop.
      replace (n + r * n)%nat with (S r * n)%nat by lia.
      destruct (decide (r * n < length (x :: l) - n)%nat), (decide (S r * n < length (x :: l))%nat);
        try reflexivity; lia.
Qed.

Lemma chunks_concat {A} (fuel n : nat) (l : list A) :
  (0 < n)%nat -> (length l <= fuel)%nat -> concat (chunks fuel n l) = l.
Proof.
  intros Hn. revert l. induction fuel as [|fuel IH]; intros l Hl.
  - destruct l; [reflexivity|cbn in Hl; lia].
  - destruct l as [|x l]; [reflexivity|].
    cbn [chunks concat]. rewrite IH.
    + apply take_drop.
    + rewrite length_drop. cbn [length] in *. lia.
Qed.

Lemma convert2DArray_cell {A} (l : list A) (n r c : nat) :
  (0 < n)%nat -> (c < n)%nat ->
  _convert2DArray l n !! r ≫= (fun row => row !! c) = l !! (r * n + c)%nat.
Proof.
  intros Hn Hc. unfold _convert2DArray. rewrite chunks_lookup by lia.
  destruct (decide (r * n < length l)%nat) as [Hr|Hr]; cbn [base.mbind option_bind].
  - rewrite lookup_take, decide_True by lia. rewrite lookup_drop. reflexivity.
  - symmetry. apply lookup_ge_None. lia.
Qed.

Lemma convert2DArray_rows {A} (l : list A) (n : nat) :
  (0 < n)%nat -> Forall (fun row => (1 <= length row <= n)%nat) (_convert2DArray l n).
Proof.
  intros Hn. apply Forall_lookup. intros r row. unfold _convert2DArray.
  rewrite chunks_lookup by lia. destruct (decide _) as [Hr|]; [|discriminate].
  intros [= <-]. rewrite length_take, length_drop. lia.
Qed.

Lemma convert2DArray_length {A} (l : list A) (n : nat) :
  (0 < n)%nat ->
  (length l <= length (_convert2DArray l n) * n < length l + n)%nat.
Proof.
  intros Hn. unfold _convert2DArray.
  set (g := chunks (length l) n l).
  assert (forall r, is_Some (g !! r) <-> (r * n < length l)%nat) as H.
  { intros r. unfold g. rewrite chunks_lookup by lia.
    destruct (decide _); split; intros; try lia; try (eexists; reflexivity).
    destruct H as [? ?]; discriminate. }
  split.
  - destruct (decide (length l <= length g * n)%nat) as [|Hlt]; [assumption|].
    assert (is_Some (g !! length g)) as Hs by (apply H; lia).
    apply lookup_lt_is_Some in Hs. lia.
  - destruct (length g) as [|k] eqn:Ek; [lia|].
    assert (is_Some (g !! k)) as Hs by (apply lookup_lt_is_Some; lia).
    apply H in Hs. lia.
Qed.

Lemma cell3_ltb_lt a b : cell3_ltb a b = true <-> cell3_lt a b.
Proof.
  destruct a as [[a0 a1] a2], b as [[b0 b1] b2]. unfold cell3_ltb, cell3_lt. cbn [fst snd].
  rewrite !orb_true_iff, !andb_true_iff, !orb_true_iff, !andb_true_iff,
    !Nat.ltb_lt, !Nat.eqb_eq. reflexivity.
Qed.

Lemma cell3_ltb_ge a b : cell3_ltb a b = false <-> ~ cell3_lt a b.
Proof. rewrite <- cell3_ltb_lt. destruct (cell3_ltb a b); split; congruence. Qed.

Lemma cell3_lt_trans_ge a b c : cell3_lt a b -> ~ cell3_lt a c -> ~ cell3_lt b c.
Proof. unfold cell3_lt. lia. Qed.

Lemma cell3_ge_trans a b c : ~ cell3_lt a b -> ~ cell3_lt b c -> ~ cell3_lt a c.
Proof. unfold cell3_lt. lia. Qed.

Lemma cell3_lt_irrefl a : ~ cell3_lt a a.
Proof. unfold cell3_lt. lia. Qed.

Lemma fold_min_spec rest x :
  let m := fold_left (fun m y => if cell3_ltb y m then y else m) rest x in
  In m (x :: rest) /\ forall y, In y (x :: rest) -> ~ cell3_lt y m.
Proof.
  revert x. induction rest as [|z rest IH]; intros x; cbn [fold_left].
  - split; [left; reflexivity|]. intros y [<-|[]]. apply cell3_lt_irrefl.
  - specialize (IH (if cell3_ltb z x then z else x)). cbv zeta in IH.
    destruct IH as [Hin Hle]. destruct (cell3_ltb z x) eqn:E.
    + apply cell3_ltb_lt in E. split.
      * destruct Hin as [<-|Hin]; [right; left; reflexivity|right; right; exact Hin].
      * intros y [<-|Hy]; [|apply Hle, Hy].
        eapply cell3_lt_trans_ge; [exact E|]. apply Hle. left. reflexivity.
    + apply cell3_ltb_ge in E. split.
      * destruct Hin as [<-|Hin]; [left; reflexivity|right; right; exact Hin].
      * intros y [<-|[<-|Hy]].
        -- apply Hle. left. reflexivity.
        -- eapply cell3_ge_trans; [exact E|]. apply Hle. left. reflexivity.
        -- apply Hle. right. exact Hy.
Qed.

Lemma fold_max_spec rest x :
  let m := fold_left (fun m y => if cell3_ltb m y then y else m) rest x in
  In m (x :: rest) /\ forall y, In y (x :: rest) -> ~ cell3_lt m y.
Proof.
  revert x. induction rest as [|z rest IH]; intros x; cbn [fold_left].
  - split; [left; reflexivity|]. intros y [<-|[]]. apply cell3_lt_irrefl.
  - specialize (IH (if cell3_ltb x z then z else x)). cbv zeta in IH.
    destruct IH as [Hin Hle]. destruct (cell3_ltb x z) eqn:E.
    + apply cell3_ltb_lt in E. split.
      * destruct Hin as [<-|Hin]; [right; left; reflexivity|right; right; exact Hin].
      * intros y [<-|Hy]; [|apply Hle, Hy].
        specialize (Hle z (or_introl eq_refl)). revert E Hle. unfold cell3_lt. lia.
    + apply cell3_ltb_ge in E. split.
      * destruct Hin as [<-|Hin]; [left; reflexivity|right; right; exact Hin].
      * intros y [<-|[<-|Hy]].
        -- apply Hle. left. reflexivity.
        -- specialize (Hle x (or_introl eq_refl)). revert E Hle. unfold cell3_lt. lia.
        -- apply Hle. right. exact Hy.
Qed.

Lemma py_min_spec lst :
  lst <> [] -> In (py_min lst) lst /\ forall y, In y lst -> ~ cell3_lt y (py_min lst).
Proof. destruct lst as [|x rest]; [congruence|]. intros _. apply fold_min_spec. Qed.

Lemma py_max_spec lst :
  lst <> [] -> In (py_max lst) lst /\ forall y, In y lst -> ~ cell3_lt (py_max lst) y.
Proof. destruct lst as [|x rest]; [congruence|]. intros _. apply fold_max_spec. Qed.

(** Sorting by plan number puts the triples of plan 1 first, then those of
    plan 2, and so on, each plan's triples in the order they had. *)
Lemma insert_by_plan_head x l :
  Forall (fun y => (plan_of x <= plan_of y)%nat) l -> insert_by_plan x l = x :: l.
Proof.
  destruct l as [|y l]; [reflexivity|]. intros H. apply Forall_cons in H as [H _].
  cbn [insert_by_plan]. fold (plan_of x) (plan_of y).
  destruct (Nat.leb_spec (plan_of x) (plan_of y)); [reflexivity|lia].
Qed.

Lemma insert_by_plan_app x l1 l2 :
  Forall (fun y => (plan_of y < plan_of x)%nat) l1 ->
  insert_by_plan x (l1 ++ l2) = l1 ++ insert_by_plan x l2.
Proof.
  induction 1 as [|y l1 Hy _ IH]; [reflexivity|].
  cbn [app insert_by_plan]. fold (plan_of x) (plan_of y).
  destruct (Nat.leb_spec (plan_of x) (plan_of y)); [lia|]. rewrite IH. reflexivity.
Qed.

Lemma insert_by_plan_buckets x (B : nat -> list cell3) s n :
  (forall k, Forall (fun y => plan_of y = k) (B k)) ->
  (s <= plan_of x < s + n)%nat ->
  insert_by_plan x (concat (map B (seq s n)))
  = concat (map (fun k => if (k =? plan_of x)%nat then x :: B k else B k) (seq s n)).
Proof.
  intros HB. revert s. induction n as [|n IH]; intros s Hx; [lia|].
  cbn [seq map concat]. destruct (Nat.eqb_spec s (plan_of x)) as [E|N].
  - assert (map (fun k => if (k =? plan_of x)%nat then x :: B k else B k) (seq (S s) n)
            = map B (seq (S s) n)) as ->.
    { apply map_ext_in. intros k Hk. apply in_seq in Hk.
      destruct (Nat.eqb_spec k (plan_of x)); [lia|reflexivity]. }
    cbn [app]. apply insert_by_plan_head. apply Forall_app. split.
    + eapply Forall_impl; [apply HB|]. cbn. intros y ->. lia.
    + apply Forall_concat, Forall_map, Forall_forall. intros k Hk.
      apply list_elem_of_In, in_seq in Hk.
      eapply Forall_impl; [apply HB|]. cbn. intros y ->. lia.
  - rewrite insert_by_plan_app.
    + rewrite IH by lia. reflexivity.
    + eapply Forall_impl; [apply HB|]. cbn. intros y ->. lia.
Qed.

Lemma bucket_plan l k : Forall (fun y => plan_of y = k) (bucket l k).
Proof.
  apply Forall_forall. intros y Hy. apply list_elem_of_In, filter_In in Hy as [_ Hy].
  apply Nat.eqb_eq, Hy.
Qed.

Lemma concat_nils {A B} (l : list A) : concat (map (fun _ => @nil B) l) = [].
Proof. induction l; [reflexivity|exact IHl]. Qed.

Lemma sort_by_plan_buckets l m :
  Forall (fun x => (1 <= plan_of x <= m)%nat) l ->
  sort_by_plan l = concat (map (bucket l) (seq 1 m)).
Proof.
  induction 1 as [|x l Hx _ IH].
  - cbn. symmetry. apply (concat_nils (seq 1 m)).
  - cbn [sort_by_plan foldr]. fold (sort_by_plan l). rewrite IH.
    rewrite insert_by_plan_buckets by (try apply bucket_plan; lia).
    f_equal. apply map_ext. intros k. unfold bucket. cbn [List.filter].
    rewrite (Nat.eqb_sym k). reflexivity.
Qed.

(** Grouping a list made of runs, one per key. *)
Lemma group_append_new acc k x :
  ~ In k (map fst acc) -> group_append acc k x = acc ++ [(k, [x])].
Proof.
  induction acc as [|[k' its] acc IH]; [reflexivity|]. cbn [map fst In group_append app].
  intros H. destruct (Nat.eqb_spec k' k) as [->|N]; [tauto|]. rewrite IH by tauto. reflexivity.
Qed.

Lemma group_append_last acc k its x :
  ~ In k (map fst acc) -> group_append (acc ++ [(k, its)]) k x = acc ++ [(k, its ++ [x])].
Proof.
  induction acc as [|[k' its'] acc IH]; cbn [map fst In group_append app].
  - intros _. rewrite Nat.eqb_refl. reflexivity.
  - intros H. destruct (Nat.eqb_spec k' k) as [->|N]; [tauto|]. rewrite IH by tauto. reflexivity.
Qed.

Lemma group_run bs acc k its :
  Forall (fun y => plan_of y = k) bs -> ~ In k (map fst acc) ->
  fold_left (fun result item => group_append result (fst (fst item)) item) bs
    (acc ++ [(k, its)])
  = acc ++ [(k, its ++ bs)].
Proof.
  intros Hbs Hk. revert its. induction Hbs as [|b bs Hb _ IH]; intros its; cbn [fold_left].
  - rewrite app_nil_r. reflexivity.
  - fold (plan_of b). rewrite Hb, group_append_last by exact Hk.
    rewrite IH, <- app_assoc. reflexivity.
Qed.

Lemma group_runs (B : nat -> list cell3) ks acc :
  NoDup ks ->
  (forall k, In k ks -> B k <> [] /\ Forall (fun y => plan_of y = k) (B k)
                        /\ ~ In k (map fst acc)) ->
  fold_left (fun result item => group_append result (fst (fst item)) item)
    (concat (map B ks)) acc
  = acc ++ map (fun k => (k, B k)) ks.
Proof.
  intros Hnd. revert acc. induction Hnd as [|k ks Hk Hnd IH]; intros acc H.
  - cbn. rewrite app_nil_r. reflexivity.
  - cbn [map concat]. rewrite fold_left_app.
    destruct (H k (or_introl eq_refl)) as (Hne & Hall & Hfresh).
    destruct (B k) as [|b bs] eqn:EB; [congruence|].
    cbn [fold_left]. apply Forall_cons in Hall as [Hb Hbs].
    fold (plan_of b). rewrite Hb, group_append_new by exact Hfresh.
    rewrite group_run by assumption. cbn [app]. rewrite IH.
    + rewrite <- app_assoc. reflexivity.
    + intros k' Hk'. destruct (H k' (or_intror Hk')) as (Hne' & Hall' & Hfresh').
      split; [exact Hne'|]. split; [exact Hall'|].
      rewrite map_app, in_app_iff. cbn. intros [?|[->|[]]]; [tauto|].
      apply Hk, list_elem_of_In, Hk'.
Qed.

Lemma splitListOfTuplesByKey_runs (B : nat -> list cell3) s n :
  (forall k, (s <= k < s + n)%nat -> B k <> [] /\ Forall (fun y => plan_of y = k) (B k)) ->
  _splitListOfTuplesByKey (concat (map B (seq s n))) = map (fun k => (k, B k)) (seq s n).
Proof.
  intros H. unfold _splitListOfTuplesByKey. rewrite group_runs; [reflexivity|apply NoDup_seq|].
  intros k Hk. apply in_seq in Hk. destruct (H k Hk) as [H1 H2]. auto.
Qed.

Lemma imap_map_seq {A B} (h : nat -> A -> B) (F : nat -> A) s n :
  imap (fun i x => h (i + s)%nat x) (map F (seq s n)) = map (fun k => h k (F k)) (seq s n).
Proof.
  revert s. induction n as [|n IH]; intros s; [reflexivity|].
  cbn [seq map imap]. f_equal. rewrite <- IH. apply imap_ext. intros i x _. cbn.
  f_equal. lia.
Qed.

(** The triples of a grid. *)
Lemma in_cells grid p r c :
  In (p, r, c) (cells grid) <-> exists row, grid !! r = Some row /\ row !! c = Some p.
Proof.
  unfold cells. rewrite in_concat. split.
  - intros (l & Hl & Hx). apply list_elem_of_In, elem_of_lookup_imap in Hl as (i & row & -> & Hrow).
    apply list_elem_of_In, elem_of_lookup_imap in Hx as (j & col & [= -> -> ->] & Hcol).
    exists row. auto.
  - intros (row & Hrow & Hcol).
    exists (imap (fun colIndex col => (col, r, colIndex)) row). split.
    + apply list_elem_of_In, elem_of_lookup_imap. exists r, row. auto.
    + apply list_elem_of_In, elem_of_lookup_imap. exists c, p. auto.
Qed.

Lemma in_cells_holds planIndexes p r c :
  In (p, r, c) (cells (_convert2DArray planIndexes RESOLUTION)) <-> holds planIndexes r c p.
Proof.
  rewrite in_cells. unfold holds. split.
  - intros (row & Hrow & Hcol).
    assert (c < RESOLUTION)%nat as Hc.
    { pose proof (convert2DArray_rows planIndexes RESOLUTION ltac:(unfold RESOLUTION; lia)) as Hf.
      rewrite Forall_lookup in Hf. specialize (Hf _ _ Hrow).
      apply lookup_lt_Some in Hcol. lia. }
    split; [exact Hc|].
    rewrite <- (convert2DArray_cell planIndexes RESOLUTION r c) by (unfold RESOLUTION in *; lia).
    rewrite Hrow. exact Hcol.
  - intros [Hc Hk].
    rewrite <- (convert2DArray_cell planIndexes RESOLUTION r c) in Hk
      by (unfold RESOLUTION in *; lia).
    destruct (_convert2DArray planIndexes RESOLUTION !! r) as [row|]; [|discriminate].
    exists row. auto.
Qed.

Lemma holds_in planIndexes r c k : holds planIndexes r c k -> In k planIndexes.
Proof. intros [_ H]. apply list_elem_of_In. eapply list_elem_of_lookup_2, H. Qed.

Lemma in_holds planIndexes k : In k planIndexes -> exists r c, holds planIndexes r c k.
Proof.
  intros H. apply list_elem_of_In, list_elem_of_lookup in H as [i Hi].
  exists (i / RESOLUTION)%nat, (i mod RESOLUTION)%nat. split.
  - apply Nat.mod_upper_bound. discriminate.
  - rewrite <- Hi. f_equal. rewrite (Nat.div_mod_eq i RESOLUTION) at 3. lia.
Qed.

Lemma retrieveSelectivityRanges_buckets planIndexes m :
  Forall (fun k => (1 <= k <= m)%nat) planIndexes ->
  (forall k, (1 <= k <= m)%nat -> In k planIndexes) ->
  _retrieveSelectivityRanges planIndexes
  = map (fun k => (k, range_of (bucket (cells (_convert2DArray planIndexes RESOLUTION)) k)))
      (seq 1 m).
Proof.
  intros Hall Hcov. unfold _retrieveSelectivityRanges. cbv zeta.
  fold (cells (_convert2DArray planIndexes RESOLUTION)).
  set (cs := cells (_convert2DArray planIndexes RESOLUTION)).
  assert (Forall (fun x => (1 <= plan_of x <= m)%nat) cs) as Hcs.
  { apply Forall_forall. intros [[p r] c] Hx.
    apply list_elem_of_In, in_cells_holds, holds_in in Hx.
    rewrite Forall_forall in Hall. apply Hall, list_elem_of_In, Hx. }
  rewrite (sort_by_plan_buckets cs m Hcs).
  rewrite splitListOfTuplesByKey_runs.
  - rewrite map_map. cbn [snd].
    rewrite <- (imap_map_seq (fun k lst => (k, range_of lst)) (bucket cs) 1 m).
    apply imap_ext. intros i lst _. reflexivity.
  - intros k Hk. split; [|apply bucket_plan].
    destruct (in_holds planIndexes k) as (r & c & Hh); [apply Hcov; lia|].
    apply in_cells_holds in Hh. fold cs in Hh.
    intros E. assert (In (k, r, c) (bucket cs k)) as Hin.
    { apply filter_In. split; [exact Hh|]. apply Nat.eqb_refl. }
    rewrite E in Hin. exact Hin.
Qed.

Lemma in_bucket_holds planIndexes k p r c :
  In (p, r, c) (bucket (cells (_convert2DArray planIndexes RESOLUTION)) k)
  <-> p = k /\ holds planIndexes r c k.
Proof.
  unfold bucket. rewrite filter_In, in_cells_holds. unfold plan_of. cbn [fst].
  rewrite Nat.eqb_eq. split; intros [H1 H2]; subst; auto.
Qed.

Lemma range_of_bucket planIndexes k r1 r2 c1 c2 :
  In k planIndexes ->
  range_of (bucket (cells (_convert2DArray planIndexes RESOLUTION)) k) = ((r1, r2), (c1, c2)) ->
  holds planIndexes r1 c1 k /\ holds planIndexes r2 c2 k
  /\ forall r c, holds planIndexes r c k ->
                 row_major_le (r1, c1) (r, c) /\ row_major_le (r, c) (r2, c2).
Proof.
  intros Hk. set (B := bucket _ k). unfold range_of. intros E.
  assert (B <> []) as Hne.
  { destruct (in_holds planIndexes k Hk) as (r & c & Hh).
    assert (In (k, r, c) B) as Hin by (apply in_bucket_holds; auto).
    intros E0. rewrite E0 in Hin. exact Hin. }
  destruct (py_min_spec B Hne) as [Hmin Hlow], (py_max_spec B Hne) as [Hmax Hup].
  destruct (py_min B) as [[p1 a1] b1], (py_max B) as [[p2 a2] b2]. cbn [fst snd] in E.
  injection E as -> -> -> ->.
  apply in_bucket_holds in Hmin as [-> Hmin]. apply in_bucket_holds in Hmax as [-> Hmax].
  split; [exact Hmin|]. split; [exact Hmax|].
  intros r c Hh. assert (In (k, r, c) B) as Hin by (apply in_bucket_holds; auto).
  specialize (Hlow _ Hin). specialize (Hup _ Hin).
  revert Hlow Hup. unfold cell3_lt, row_major_le. cbn [fst snd]. lia.
Qed.

Lemma retrieveSelectivityRanges_spec planIndexes m :
  Forall (fun k => (1 <= k <= m)%nat) planIndexes ->
  (forall k, (1 <= k <= m)%nat -> In k planIndexes) ->
  map fst (_retrieveSelectivityRanges planIndexes) = seq 1 m
  /\ forall k r1 r2 c1 c2,
       In (k, ((r1, r2), (c1, c2))) (_retrieveSelectivityRanges planIndexes) ->
       holds planIndexes r1 c1 k /\ holds planIndexes r2 c2 k
       /\ forall r c, holds planIndexes r c k ->
                      row_major_le (r1, c1) (r, c) /\ row_major_le (r, c) (r2, c2).
Proof.
  intros Hall Hcov. rewrite (retrieveSelectivityRanges_buckets _ _ Hall Hcov). split.
  - rewrite map_map. cbn [fst]. apply map_id.
  - intros k r1 r2 c1 c2 Hin. apply in_map_iff in Hin as (k' & E & Hk').
    apply in_seq in Hk'. apply (f_equal fst) in E as Ek. cbn [fst] in Ek. subst k'.
    apply (f_equal snd) in E. cbn [snd] in E.
    eapply range_of_bucket; [apply Hcov; lia|exact E].
Qed.

Lemma in_keep_first k l : In k (keep_first l) <-> In k l.
Proof.
  induction l as [|k0 l IH]; [reflexivity|]. cbn [keep_first In].
  rewrite filter_In, IH, negb_true_iff, Nat.eqb_neq.
  destruct (Nat.eq_dec k0 k); intuition congruence.
Qed.

Lemma NoDup_List_filter {A} (f : A -> bool) l : NoDup l -> NoDup (List.filter f l).
Proof.
  induction 1 as [|x l Hx Hl IH]; cbn [List.filter]; [constructor|].
  destruct (f x); [|exact IH]. constructor; [|exact IH].
  rewrite list_elem_of_In, filter_In, <- list_elem_of_In. tauto.
Qed.

Lemma NoDup_keep_first l : NoDup (keep_first l).
Proof.
  induction l as [|k l IH]; cbn [keep_first]; constructor.
  - rewrite list_elem_of_In, filter_In, negb_true_iff, Nat.eqb_neq. tauto.
  - apply NoDup_List_filter, IH.
Qed.

Lemma List_filter_app_one {A} (f : A -> bool) l x :
  List.filter f (l ++ [x]) = List.filter f l ++ (if f x then [x] else []).
Proof. rewrite List.filter_app. reflexivity. Qed.

Lemma keep_first_snoc l k :
  keep_first (l ++ [k]) = if bool_decide (k ∈ l) then keep_first l else keep_first l ++ [k].
Proof.
  induction l as [|k0 l IH]; [reflexivity|]. cbn [app keep_first]. rewrite IH.
  destruct (decide (k ∈ l)) as [Hin|Hout].
  - rewrite bool_decide_eq_true_2 by exact Hin.
    rewrite bool_decide_eq_true_2 by (right; exact Hin). reflexivity.
  - rewrite (bool_decide_eq_false_2 (k ∈ l)) by exact Hout.
    rewrite List_filter_app_one. destruct (Nat.eqb_spec k k0) as [->|N]; cbn [negb].
    + rewrite bool_decide_eq_true_2 by left. rewrite app_nil_r. reflexivity.
    + rewrite bool_decide_eq_false_2 by (rewrite elem_of_cons; intuition congruence).
      reflexivity.
Qed.

Lemma group_append_groups (F : nat -> list cell3) ks k x :
  NoDup ks ->
  group_append (map (fun k' => (k', F k')) ks) k x
  = if bool_decide (k ∈ ks)
    then map (fun k' => (k', if (k' =? k)%nat then F k' ++ [x] else F k')) ks
    else map (fun k' => (k', F k')) ks ++ [(k, [x])].
Proof.
  induction 1 as [|k0 ks Hk0 Hnd IH]; [reflexivity|].
  cbn [map group_append]. destruct (Nat.eqb_spec k0 k) as [->|N].
  - rewrite bool_decide_eq_true_2 by left. f_equal.
    apply map_ext_in. intros k' Hk'. destruct (Nat.eqb_spec k' k) as [->|]; [|reflexivity].
    exfalso. apply Hk0, list_elem_of_In, Hk'.
  - rewrite IH. destruct (decide (k ∈ ks)) as [Hin|Hout].
    + rewrite bool_decide_eq_true_2 by exact Hin.
      rewrite bool_decide_eq_true_2 by (right; exact Hin). reflexivity.
    + rewrite bool_decide_eq_false_2 by exact Hout.
      rewrite bool_decide_eq_false_2 by (rewrite elem_of_cons; intuition congruence).
      reflexivity.
Qed.

Lemma bucket_snoc l x k :
  bucket (l ++ [x]) k = if (plan_of x =? k)%nat then bucket l k ++ [x] else bucket l k.
Proof.
  unfold bucket. rewrite List_filter_app_one.
  destruct (plan_of x =? k)%nat; [reflexivity|apply app_nil_r].
Qed.

Lemma bucket_nil_iff l k : bucket l k = [] <-> ~ In k (map plan_of l).
Proof.
  unfold bucket. induction l as [|x l IH]; cbn [List.filter map In]; [tauto|].
  destruct (Nat.eqb_spec (plan_of x) k); [|tauto]. split; [discriminate|tauto].
Qed.

Lemma splitListOfTuplesByKey_snoc items x :
  _splitListOfTuplesByKey (items ++ [x])
  = group_append (_splitListOfTuplesByKey items) (plan_of x) x.
Proof. unfold _splitListOfTuplesByKey. rewrite fold_left_app. reflexivity. Qed.

Lemma splitListOfTuplesByKey_groups items :
  _splitListOfTuplesByKey items
  = map (fun k => (k, bucket items k)) (keep_first (map plan_of items)).
Proof.
  induction items as [|x items IH] using rev_ind; [reflexivity|].
  rewrite splitListOfTuplesByKey_snoc, IH.
  rewrite group_append_groups by apply NoDup_keep_first.
  rewrite map_app. cbn [map]. rewrite keep_first_snoc.
  destruct (decide (plan_of x ∈ map plan_of items)) as [Hin|Hout].
  - rewrite bool_decide_eq_true_2
      by (apply list_elem_of_In, in_keep_first, list_elem_of_In; exact Hin).
    rewrite bool_decide_eq_true_2 by exact Hin.
    apply map_ext. intros k. rewrite bucket_snoc, (Nat.eqb_sym k). reflexivity.
  - rewrite bool_decide_eq_false_2
      by (rewrite list_elem_of_In, in_keep_first, <- list_elem_of_In; exact Hout).
    rewrite bool_decide_eq_false_2 by exact Hout.
    rewrite map_app. cbn [map]. f_equal.
    + apply map_ext_in. intros k Hk. rewrite bucket_snoc.
      destruct (Nat.eqb_spec (plan_of x) k) as [<-|]; [|reflexivity].
      exfalso. apply Hout, list_elem_of_In, in_keep_first, Hk.
    + rewrite bucket_snoc, Nat.eqb_refl.
      rewrite list_elem_of_In in Hout. apply bucket_nil_iff in Hout. rewrite Hout. reflexivity.
Qed.

(** X13: for a positive row length, [_convert2DArray] cuts the list into
    rows that, put together again, are the list; entry [c] of row [r] is
    entry [r * n + c] of the list; every row holds between 1 and [n] entries,
    and there are [ceil(len / n)] rows. *)
Theorem X13_convert2DArray_keeps_every_entry_at_its_row_and_column
    (A : Type) (lstOrigList : list A) (nElementsInList : nat) :
  (0 < nElementsInList)%nat ->
  let grid := _convert2DArray lstOrigList nElementsInList in
  concat grid = lstOrigList
  /\ (forall r c, (c < nElementsInList)%nat ->
                  grid !! r ≫= (fun row => row !! c)
                  = lstOrigList !! (r * nElementsInList + c)%nat)
  /\ Forall (fun row => (1 <= length row <= nElementsInList)%nat) grid
  /\ (length lstOrigList <= length grid * nElementsInList
      < length lstOrigList + nElementsInList)%nat.
Proof.
  intros Hn grid. split; [apply chunks_concat; [exact Hn|reflexivity]|].
  split; [intros r c Hc; apply convert2DArray_cell; assumption|].
  split; [apply convert2DArray_rows, Hn|apply convert2DArray_length, Hn].
Qed.

Lemma X13_witness :
  let grid := _convert2DArray grid_10x10 10 in
  concat grid = grid_10x10
  /\ (forall r c, (c < 10)%nat ->
                  grid !! r ≫= (fun row => row !! c) = grid_10x10 !! (r * 10 + c)%nat)
  /\ Forall (fun row => (1 <= length row <= 10)%nat) grid
  /\ (length grid_10x10 <= length grid * 10 < length grid_10x10 + 10)%nat.
Proof.
  apply (X13_convert2DArray_keeps_every_entry_at_its_row_and_column nat grid_10x10 10). lia.
Defined.

(** X14: [_splitListOfTuplesByKey] makes one group for every plan number of
    the list, the groups in the order in which the numbers first occur; a
    group holds exactly the triples of its number, in the order of the list,
    so no group is empty and no number has two groups. *)
Theorem X14_splitListOfTuplesByKey_groups_by_first_component (items : list cell3) :
  _splitListOfTuplesByKey items
  = map (fun k => (k, bucket items k)) (keep_first (map plan_of items))
  /\ NoDup (map fst (_splitListOfTuplesByKey items))
  /\ Forall (fun group => snd group <> []) (_splitListOfTuplesByKey items).
Proof.
  rewrite splitListOfTuplesByKey_groups. split; [reflexivity|]. split.
  - rewrite map_map. cbn [fst]. rewrite map_id. apply NoDup_keep_first.
  - apply Forall_map, Forall_forall. intros k Hk. cbn [snd].
    rewrite bucket_nil_iff. intros Hn. apply Hn, in_keep_first, list_elem_of_In, Hk.
Qed.

(** X15: for a grid whose entries are the plan numbers 1 to [m], each of
    them occurring, [_retrieveSelectivityRanges] returns one entry per plan
    number, in increasing order.  The entry of plan [k] is made from the first
    and the last cell of [k] when the grid is read row by row: their rows are
    the first pair (so the least and the greatest row of [k]), their columns
    the second pair. *)
Theorem X15_retrieveSelectivityRanges_takes_first_and_last_cell
    (planIndexes : list nat) (m : nat) :
  Forall (fun k => (1 <= k <= m)%nat) planIndexes ->
  (forall k, (1 <= k <= m)%nat -> In k planIndexes) ->
  map fst (_retrieveSelectivityRanges planIndexes) = seq 1 m
  /\ forall k r1 r2 c1 c2,
       In (k, ((r1, r2), (c1, c2))) (_retrieveSelectivityRanges planIndexes) ->
       holds planIndexes r1 c1 k /\ holds planIndexes r2 c2 k
       /\ forall r c, holds planIndexes r c k ->
                      row_major_le (r1, c1) (r, c) /\ row_major_le (r, c) (r2, c2).
Proof. apply retrieveSelectivityRanges_spec. Qed.

Lemma X15_witness :
  map fst (_retrieveSelectivityRanges grid_10x10) = seq 1 2
  /\ forall k r1 r2 c1 c2,
       In (k, ((r1, r2), (c1, c2))) (_retrieveSelectivityRanges grid_10x10) ->
       holds grid_10x10 r1 c1 k /\ holds grid_10x10 r2 c2 k
       /\ forall r c, holds grid_10x10 r c k ->
                      row_major_le (r1, c1) (r, c) /\ row_major_le (r, c) (r2, c2).
Proof.
  apply (X15_retrieveSelectivityRanges_takes_first_and_last_cell grid_10x10 2).
  - vm_compute. repeat constructor.
  - intros k Hk. destruct k as [|[|[|k]]]; try lia; vm_compute; tauto.
Defined.

End Grid.

(** ** Extractor and query template *)

Module Extractor.
Import PyStr QepProcessor Samples GetPredicatesConditions ExtractorSpec.
Import EnumerationSpec Enumeration Requests PlanTreeSpec PlanTree.

Lemma token_ind' (P : token -> Prop) :
  (forall c v, P (Token c v None)) ->
  (forall c v l, Forall P l -> P (Token c v (Some l))) ->
  forall t, P t.
Proof.
  intros Hleaf Hgroup. fix IH 1. intros [c v [l|]]; [|apply Hleaf].
  apply Hgroup. induction l as [|t l IHl]; constructor; [apply IH|exact IHl].
Qed.

Lemma append_assoc (a b c : string) : (a +:+ b) +:+ c = a +:+ (b +:+ c).
Proof.
  induction a as [|x a IH]; [rewrite !append_nil; reflexivity|].
  rewrite !append_cons, IH. reflexivity.
Qed.

Lemma append_empty_r (a : string) : a +:+ "" = a.
Proof. induction a as [|x a IH]; [apply append_nil|]. rewrite append_cons, IH. reflexivity. Qed.

Lemma keep_tokens_spec toks s cols :
  keep_tokens toks s cols = (s +:+ text_of toks, cols ++ identifiers_of toks).
Proof.
  revert s cols. induction toks as [|t toks IH]; intros s cols; cbn [keep_tokens].
  - cbn. rewrite append_empty_r, app_nil_r. reflexivity.
  - rewrite IH. cbn [text_of foldr]. fold (text_of toks). rewrite append_assoc.
    unfold identifiers_of. cbn [List.filter].
    destruct (String.eqb (get_token_type t) "identifier"); cbn [map].
    + rewrite <- app_assoc. reflexivity.
    + reflexivity.
Qed.

Lemma re_split_go_nonempty s skip cur : (1 <= length (re_split_comparison_go s skip cur))%nat.
Proof.
  revert skip cur. induction s as [|c s IH]; intros skip cur; cbn [re_split_comparison_go].
  - cbn. lia.
  - destruct skip; [|apply IH].
    destruct (is_prefix "<" (String c s) || is_prefix ">" (String c s)); [cbn; lia|].
    destruct (is_prefix "!=" (String c s)); [cbn; lia|apply IH].
Qed.

Lemma re_split_go_operator pre op post cur :
  In op comparisons_to_find ->
  (2 <= length (re_split_comparison_go (pre +:+ op +:+ post) 0 cur))%nat.
Proof.
  intros Hop. revert cur. induction pre as [|c pre IH]; intros cur.
  - rewrite append_nil.
    assert (forall s skip cur', (2 <= length (String.rev cur :: re_split_comparison_go s skip cur'))%nat)
      as H2.
    { intros s skip cur'. pose proof (re_split_go_nonempty s skip cur'). cbn [length]. lia. }
    cbn in Hop. destruct Hop as [<-|[<-|[<-|[<-|[<-|[]]]]]];
      rewrite !append_cons, ?append_nil; cbn [re_split_comparison_go is_prefix Ascii.eqb];
      cbn; apply H2.
  - rewrite append_cons. cbn [re_split_comparison_go].
    destruct (is_prefix "<" _ || is_prefix ">" _).
    + pose proof (re_split_go_nonempty (pre +:+ op +:+ post) 0 ""). cbn [length]. lia.
    + destruct (is_prefix "!=" _).
      * pose proof (re_split_go_nonempty (pre +:+ op +:+ post) 1 ""). cbn [length]. lia.
      * apply IH.
Qed.

Lemma text_of_operator toks :
  existsb (fun v => in_list v comparisons_to_find) (map value toks) = true ->
  exists pre op post, In op comparisons_to_find /\ text_of toks = pre +:+ op +:+ post.
Proof.
  induction toks as [|t toks IH]; cbn [map existsb]; [discriminate|].
  intros H. apply orb_true_iff in H as [H|H].
  - exists "", (value t), (text_of toks). split; [|rewrite append_nil; reflexivity].
    unfold in_list in H. apply existsb_exists in H as (op & Hop & E).
    apply String.eqb_eq in E. subst op. exact Hop.
  - destruct (IH H) as (pre & op & post & Hop & E).
    exists (value t +:+ pre), op, post. split; [exact Hop|].
    cbn [text_of foldr]. fold (text_of toks). rewrite E, append_assoc. reflexivity.
Qed.

Lemma comparisons_loop_splits comparisons cols clauses cols' clauses' :
  comparisons_loop comparisons cols clauses = Ret (cols', clauses') ->
  Forall splits clauses -> Forall splits clauses'.
Proof.
  revert cols clauses. induction comparisons as [|cmp rest IH]; intros cols clauses;
    cbn [comparisons_loop].
  - intros [= <- <-]. auto.
  - destruct (tokens_of cmp) as [toks|]; cbn [obind]; [|discriminate].
    destruct (existsb _ (map value toks)) eqn:E.
    + rewrite keep_tokens_spec. intros H Hc. eapply IH; [exact H|].
      apply Forall_app. split; [exact Hc|]. constructor; [|constructor].
      destruct (text_of_operator toks E) as (pre & op & post & Hop & ->).
      rewrite append_nil. apply re_split_go_operator, Hop.
    + apply IH.
Qed.

Lemma get_tokens_splits node cols clauses cols' clauses' :
  get_tokens node cols clauses = Ret (cols', clauses') ->
  Forall splits clauses -> Forall splits clauses'.
Proof.
  revert cols clauses cols' clauses'.
  induction node as [c v|c v l IH] using token_ind'; intros cols clauses cols' clauses';
    cbn [get_tokens].
  - destruct (if in_list (lower_str c) clauses_to_search then _ else _); discriminate.
  - destruct (if in_list (lower_str c) clauses_to_search then _ else _)
      as [[cols1 clauses1]|] eqn:E1; cbn [obind fst snd]; [|discriminate].
    intros H Hc.
    assert (Forall splits clauses1) as Hc1.
    { destruct (in_list (lower_str c) clauses_to_search).
      - eapply comparisons_loop_splits; eauto.
      - injection E1 as <- <-. exact Hc. }
    clear E1 Hc. revert cols1 clauses1 H Hc1.
    induction IH as [|t l Ht _ IHl]; intros cols1 clauses1.
    + intros [= <- <-]. auto.
    + destruct (in_list (lower_str (get_token_type t)) clauses_to_search).
      * destruct (get_tokens t cols1 clauses1) as [[cols2 clauses2]|] eqn:E2; cbn [obind fst snd];
          [|discriminate].
        intros H Hc1. eapply IHl; [exact H|]. eapply Ht; eauto.
      * apply IHl.
Qed.

Lemma drop_non_numeric_returns clauses rem attrs :
  Forall splits clauses -> exists r, drop_non_numeric clauses rem attrs = Ret r.
Proof.
  intros H. revert rem attrs. induction H as [|clause clauses Hc _ IH]; intros rem attrs;
    cbn [drop_non_numeric].
  - eexists. reflexivity.
  - unfold splits in Hc. destruct (re_split_comparison clause) as [|lhs [|rhs parts]];
      cbn [length] in Hc; try lia.
    cbn [lookup list_lookup]. destruct (float_of_str (re_sub_non_word rhs)); apply IH.
Qed.

Lemma get_tokens_no_clause c v l cols clauses :
  in_list (lower_str c) clauses_to_search = false ->
  no_clause l ->
  get_tokens (Token c v (Some l)) cols clauses = Ret (cols, clauses).
Proof.
  intros Hc Hl. cbn [get_tokens]. rewrite Hc. cbn [obind fst snd].
  induction Hl as [|t l Ht _ IH]; [reflexivity|]. rewrite Ht. exact IH.
Qed.

Lemma contains_dot s : contains "." s = has_char "." s.
Proof.
  induction s as [|c s IH]; [reflexivity|].
  cbn [contains is_prefix has_char]. rewrite IH, andb_true_r.
  rewrite (Ascii.eqb_sym c). reflexivity.
Qed.

Lemma has_char_rev_app c s1 s2 :
  has_char c (String.rev_app s1 s2) = has_char c s1 || has_char c s2.
Proof.
  revert s2. induction s1 as [|a s1 IH]; intros s2; cbn [String.rev_app has_char]; [reflexivity|].
  rewrite IH. cbn [has_char]. destruct (Ascii.eqb a c), (has_char c s1), (has_char c s2); reflexivity.
Qed.

Lemma has_char_rev c s : has_char c (String.rev s) = has_char c s.
Proof. unfold String.rev. rewrite has_char_rev_app. cbn. apply orb_false_r. Qed.

Lemma split_dot_pieces s cur :
  has_char "." cur = false ->
  Forall (fun piece => has_char "." piece = false) (split_go "." s 0 cur).
Proof.
  revert cur. induction s as [|c s IH]; intros cur Hcur; cbn [split_go].
  - constructor; [|constructor]. rewrite has_char_rev. exact Hcur.
  - cbn [is_prefix]. rewrite andb_true_r. destruct (Ascii.eqb "." c) eqn:E.
    + constructor; [rewrite has_char_rev; exact Hcur|]. apply IH. reflexivity.
    + apply IH. cbn [has_char]. rewrite (Ascii.eqb_sym c), E. exact Hcur.
Qed.

Lemma last_Forall {A} (P : A -> Prop) l d : Forall P l -> P d -> P (List.last l d).
Proof.
  induction 1 as [|x l Hx Hl IH]; intros Hd; [exact Hd|].
  destruct l; [exact Hx|]. apply IH, Hd.
Qed.

Lemma bare_attribute_no_dot attribute : contains "." (bare_attribute attribute) = false.
Proof.
  unfold bare_attribute. destruct (contains "." attribute) eqn:E; [|exact E].
  rewrite contains_dot. apply (last_Forall (fun piece => has_char "." piece = false)).
  - apply split_dot_pieces. reflexivity.
  - reflexivity.
Qed.

Lemma sublist_List_filter {A} (f : A -> bool) (l : list A) : List.filter f l `sublist_of` l.
Proof.
  induction l as [|x l IH]; [reflexivity|]. cbn [List.filter].
  destruct (f x); [apply sublist_skip|apply sublist_cons]; exact IH.
Qed.

Lemma drop_non_numeric_attributes clauses rem attrs rem' attrs' :
  drop_non_numeric clauses rem attrs = Ret (rem', attrs') ->
  attrs' `sublist_of` attrs.
Proof.
  revert rem attrs. induction clauses as [|clause clauses IH]; intros rem attrs;
    cbn [drop_non_numeric].
  - intros [= _ <-]. reflexivity.
  - destruct (re_split_comparison clause !! 1%nat) as [rhs|]; [|discriminate].
    destruct (float_of_str (re_sub_non_word rhs)).
    + apply IH.
    + intros H. etransitivity; [eapply IH, H|]. apply sublist_List_filter.
Qed.

Lemma replace_clauses_returns query index clauses attrs t :
  replace_clauses query index clauses attrs = Ret t ->
  (index + length clauses <= length attrs)%nat \/ clauses = [].
Proof.
  revert query index. induction clauses as [|clause clauses IH]; intros query index;
    cbn [replace_clauses]; [auto|].
  destruct (attrs !! index) as [a|] eqn:E; [|discriminate].
  intros H. left. apply lookup_lt_Some in E.
  destruct (IH _ _ H) as [Hl| ->]; cbn [length]; lia.
Qed.

Section Template.
Variable get_var_column : string -> list string * list string.

Lemma convertToQueryTemplate_ok query attributes templateQuery :
  _convertToQueryTemplate get_var_column query = Ret (ConvertOk attributes templateQuery) ->
  attributes <> []
  /\ Forall (fun attribute => contains "." attribute = false) attributes
  /\ (exists kept, kept `sublist_of` fst (get_var_column query)
                   /\ attributes = map bare_attribute kept)
  /\ (exists clauses, clauses `sublist_of` snd (get_var_column query)
                      /\ (length clauses <= length attributes)%nat
                      /\ replace_clauses query 0 clauses attributes = Ret templateQuery).
Proof.
  unfold _convertToQueryTemplate. destruct (get_var_column query) as [attrs clauses].
  destruct (drop_non_numeric clauses [] attrs) as [[rem attrs']|e] eqn:Ed; cbn [obind];
    [|discriminate].
  destruct (map bare_attribute attrs') as [|a l] eqn:Em; [discriminate|].
  intros H. cbn [fst snd].
  destruct (replace_clauses query 0 (List.filter _ clauses) (a :: l)) as [t|] eqn:Er;
    cbn [obind] in H; [|discriminate].
  injection H as <- <-. split; [discriminate|]. split.
  - rewrite <- Em. apply Forall_map, Forall_true. intros x. apply bare_attribute_no_dot.
  - split.
    + exists attrs'. split; [eapply drop_non_numeric_attributes, Ed|symmetry; exact Em].
    + eexists. split; [apply sublist_List_filter|]. split; [|exact Er].
      apply replace_clauses_returns in Er as [H| ->]; cbn [length] in *; lia.
Qed.

End Template.

(** X16: every clause [get_var_column] returns holds one of the comparison
    operators that are looked for, so [re.split] cuts it into at least two
    parts and the loop of [_convertToQueryTemplate] that tests the right-hand
    sides never fails on [lstCondAndPred[1]]. *)
Theorem X16_extracted_clauses_split_at_an_operator
    (parse : string -> list token) (query : string) (columns clauses : list string) :
  get_var_column parse query = Ret (columns, clauses) ->
  Forall splits clauses
  /\ forall lstClausesToBeRemoved lstPredicateAttributes,
       exists r, drop_non_numeric clauses lstClausesToBeRemoved lstPredicateAttributes = Ret r.
Proof.
  unfold get_var_column. destruct (parse query) as [|parsed_query rest]; [discriminate|].
  intros H. assert (Forall splits clauses) as Hs.
  { eapply get_tokens_splits; [exact H|constructor]. }
  split; [exact Hs|]. intros rem attrs. apply drop_non_numeric_returns, Hs.
Qed.

Lemma X16_witness :
  Forall splits ["l_quantity < 30"]
  /\ forall lstClausesToBeRemoved lstPredicateAttributes,
       exists r, drop_non_numeric ["l_quantity < 30"] lstClausesToBeRemoved
                   lstPredicateAttributes = Ret r.
Proof.
  apply (X16_extracted_clauses_split_at_an_operator parse_sample query_quantity
           ["l_quantity"]).
  vm_compute. reflexivity.
Defined.

(** The extractor, run on the sample trees, finds what the examples of the
    conversion take it to find. *)
Lemma get_var_column_on_samples :
  get_var_column parse_sample query_quantity = Ret (get_var_column_sample query_quantity)
  /\ get_var_column parse_sample query_two_columns
     = Ret (get_var_column_sample query_two_columns)
  /\ get_var_column parse_sample query_join = Ret ([], []).
Proof. repeat split; vm_compute; reflexivity. Qed.

(** X17: when neither the statement nor one of its direct sub-tokens is a
    WHERE clause (or has one of the other class names that are searched),
    [get_var_column] finds nothing, whatever comparisons the statement holds,
    and [processQuery] reports a conversion error without a statement to the
    engine. *)
Theorem X17_a_statement_without_where_is_a_conversion_error
    (parse : string -> list token) (float_str : pyfloat -> string) (query : string)
    (comm : Postgres_Connect) (cls text : string) (sub_tokens rest : list token) :
  parse query = Token cls text (Some sub_tokens) :: rest ->
  in_list (lower_str cls) clauses_to_search = false ->
  no_clause sub_tokens ->
  get_var_column parse query = Ret ([], [])
  /\ processQuery_parsed parse float_str query comm = (Ret ProcessConvertErr, []).
Proof.
  intros Hp Hc Hl.
  assert (get_var_column parse query = Ret ([], [])) as E.
  { unfold get_var_column. rewrite Hp. apply get_tokens_no_clause; assumption. }
  split; [exact E|]. unfold processQuery_parsed. rewrite E, mbind_lift_ret.
  apply processQuery_convert_err. reflexivity.
Qed.

Lemma X17_witness :
  get_var_column parse_sample query_join = Ret ([], [])
  /\ processQuery_parsed parse_sample float_str_int query_join db_switch
     = (Ret ProcessConvertErr, []).
Proof.
  eapply (X17_a_statement_without_where_is_a_conversion_error parse_sample float_str_int
            query_join db_switch).
  - vm_compute. reflexivity.
  - reflexivity.
  - repeat constructor.
Defined.

(** X18: when [_convertToQueryTemplate] succeeds, it returns at least one
    attribute; no attribute holds a dot; the attributes are some of those the
    extractor found, in their order, each cut down to what follows its last
    dot; and the template is the query in which the clauses that were kept,
    not more of them than there are attributes, are replaced one after the
    other. *)
Theorem X18_convertToQueryTemplate_result
    (get_var_column : string -> list string * list string) (query : string)
    (attributes : list string) (templateQuery : string) :
  _convertToQueryTemplate get_var_column query = Ret (ConvertOk attributes templateQuery) ->
  attributes <> []
  /\ Forall (fun attribute => contains "." attribute = false) attributes
  /\ (exists kept, kept `sublist_of` fst (get_var_column query)
                   /\ attributes = map bare_attribute kept)
  /\ (exists clauses, clauses `sublist_of` snd (get_var_column query)
                      /\ (length clauses <= length attributes)%nat
                      /\ replace_clauses query 0 clauses attributes = Ret templateQuery).
Proof. apply convertToQueryTemplate_ok. Qed.

Lemma X18_witness :
  ["l_quantity"] <> []
  /\ Forall (fun attribute => contains "." attribute = false) ["l_quantity"]
  /\ (exists kept, kept `sublist_of` fst (get_var_column_sample query_quantity)
                   /\ ["l_quantity"] = map bare_attribute kept)
  /\ (exists clauses, clauses `sublist_of` snd (get_var_column_sample query_quantity)
                      /\ (length clauses <= length ["l_quantity"])%nat
                      /\ replace_clauses query_quantity 0 clauses ["l_quantity"]
                         = Ret template_quantity).
Proof.
  apply (X18_convertToQueryTemplate_result get_var_column_sample query_quantity).
  vm_compute. reflexivity.
Defined.

End Extractor.

(** ** The whole request *)

Module Pipeline.
Import PyStr QepProcessor EnumerationSpec Samples Enumeration Requests RunsSpec GridSpec.
Import Classification Statistics Extractor.

Section Result.
Variable get_var_column : string -> list string * list string.
Variable float_str : pyfloat -> string.

Lemma processQuery_result query comm lstAllQEPs attributes selectivityMap :
  fst (processQuery get_var_column float_str query comm)
  = Ret (ProcessAllQEPs lstAllQEPs attributes selectivityMap) ->
  (1 <= length attributes <= 2)%nat
  /\ Forall (fun attribute => contains "." attribute = false) attributes
  /\ head selectivityMap = Some 1%nat
  /\ Forall (fun k => (1 <= k <= length lstAllQEPs)%nat) selectivityMap
  /\ (forall k, (1 <= k <= length lstAllQEPs)%nat -> In k selectivityMap)
  /\ pairwise_different lstAllQEPs.
Proof.
  unfold processQuery. rewrite fst_mbind. cbn [lift fst].
  destruct (_convertToQueryTemplate get_var_column query) as [[|attrs templateQuery]|e] eqn:Ec;
    try discriminate.
  destruct (convertToQueryTemplate_ok _ _ _ _ Ec) as (Hne & Hdot & _).
  rewrite fst_mbind.
  destruct (fst (_generatePredicateValues comm attrs)) as [[d1 d2]|e] eqn:Eg; [|discriminate].
  change (match d2 with
          | Some l => _retrieveQEPs_TwoDimensions float_str templateQuery d1 l comm
          | None => _retrieveQEPs_OneDimension float_str templateQuery d1 comm
          end) with (enumeration float_str templateQuery d1 d2 comm).
  rewrite fst_mbind.
  destruct (fst (enumeration float_str templateQuery d1 d2 comm)) as [[sm L]|e] eqn:Ee;
    [|discriminate].
  cbn [mret fst]. intros [= -> -> ->].
  assert ((1 <= length attributes <= 2)%nat /\ sampled_points d1 d2 <> 0%nat) as [Hlen Hpts].
  { destruct (generatePredicateValues_dimensions _ _ _ _ Eg)
      as [(-> & _)|[(Hl & Hd1 & ->)|(Hl & Hd1 & l & -> & Hd2)]]; [contradiction| |].
    - split; [lia|]. cbn [sampled_points]. destruct d1; [contradiction|discriminate].
    - split; [lia|]. cbn [sampled_points].
      destruct d1; [contradiction|]. destruct l; [contradiction|]. discriminate. }
  apply enumeration_spec in Ee as (qs & HF & He).
  pose proof (enumerated_pairwise _ _ _ He) as Hpw.
  apply Forall2_length in HF. rewrite length_queries in HF.
  apply enumerated_grid_ok in He as ((_ & Hall & Hcov) & Hhead). cbn [fst snd] in *.
  split; [exact Hlen|]. split; [exact Hdot|]. split.
  - apply Hhead. intros ->. cbn in HF. lia.
  - auto.
Qed.

End Result.

(** X19: what a run of [processQuery] that returns gives back.  There are
    one or two predicate attributes, none of them holding a dot; the
    selectivity map begins with 1, all its entries number a plan of the list
    of plans and every plan of the list is the entry of some point; and no
    plan of the list is judged equivalent to a plan that comes after it. *)
Theorem X19_processQuery_result_is_well_formed
    (get_var_column : string -> list string * list string)
    (float_str : pyfloat -> string) (query : string) (comm : Postgres_Connect)
    (lstAllQEPs : list pyval) (lstPredicateAttributes : list string)
    (selectivityMap : list nat) :
  fst (processQuery get_var_column float_str query comm)
  = Ret (ProcessAllQEPs lstAllQEPs lstPredicateAttributes selectivityMap) ->
  (1 <= length lstPredicateAttributes <= 2)%nat
  /\ Forall (fun attribute => contains "." attribute = false) lstPredicateAttributes
  /\ head selectivityMap = Some 1%nat
  /\ Forall (fun k => (1 <= k <= length lstAllQEPs)%nat) selectivityMap
  /\ (forall k, (1 <= k <= length lstAllQEPs)%nat -> In k selectivityMap)
  /\ pairwise_different lstAllQEPs.
Proof. apply processQuery_result. Qed.

Lemma X19_witness :
  (1 <= length ["l_quantity"] <= 2)%nat
  /\ Forall (fun attribute => contains "." attribute = false) ["l_quantity"]
  /\ head [1; 1; 1; 1; 2; 2; 2; 2; 2; 2]%nat = Some 1%nat
  /\ Forall (fun k => (1 <= k <= length [qep_of (index_scan 40 100); qep_of (seq_scan 90 5000)])%nat)
       [1; 1; 1; 1; 2; 2; 2; 2; 2; 2]%nat
  /\ (forall k, (1 <= k <= length [qep_of (index_scan 40 100); qep_of (seq_scan 90 5000)])%nat ->
                In k [1; 1; 1; 1; 2; 2; 2; 2; 2; 2]%nat)
  /\ pairwise_different [qep_of (index_scan 40 100); qep_of (seq_scan 90 5000)].
Proof.
  apply (X19_processQuery_result_is_well_formed get_var_column_sample float_str_int
           query_quantity db_switch).
  vm_compute. reflexivity.
Defined.

Lemma lookup_concat_rows {A B} (f : A -> B -> string) (xs : list A) (ys : list B) r c x y :
  xs !! r = Some x -> ys !! c = Some y ->
  concat (map (fun x => map (f x) ys) xs) !! (r * length ys + c)%nat = Some (f x y).
Proof.
  revert r. induction xs as [|x0 xs IH]; intros r Hx Hy; [rewrite lookup_nil in Hx; discriminate|].
  cbn [map concat]. destruct r as [|r]; cbn [lookup list_lookup] in Hx.
  - injection Hx as ->. cbn [Nat.mul Nat.add].
    rewrite lookup_app_l by (rewrite length_map; eapply lookup_lt_Some, Hy).
    rewrite list_lookup_fmap, Hy. reflexivity.
  - rewrite lookup_app_r by (rewrite length_map; lia).
    rewrite length_map. replace (S r * length ys + c - length ys)%nat with (r * length ys + c)%nat by lia.
    apply IH; assumption.
Qed.

Section Cells.
Variable float_str : pyfloat -> string.

Lemma queries_2d_lookup query vals1 vals2 r c v1 v2 :
  vals1 !! r = Some v1 -> vals2 !! c = Some v2 ->
  queries_2d float_str query vals1 vals2 !! (r * length vals2 + c)%nat
  = Some (query_2d float_str query v1 v2).
Proof. intros H1 H2. unfold queries_2d. apply lookup_concat_rows; assumption. Qed.

Lemma enumeration_point query vals1 vals2 comm planIndexes D i sent :
  fst (enumeration float_str query vals1 vals2 comm) = Ret (planIndexes, D) ->
  queries float_str query vals1 vals2 !! i = Some sent ->
  exists q k, fetched comm sent = Ret q /\ planIndexes !! i = Some k
    /\ (similar q q = Ret true -> compareActualQEP q D = Ret (RET_QEP_FOUND, Some k)).
Proof.
  intros He Hs. apply enumeration_spec in He as (qs & HF & He).
  destruct (Forall2_lookup_l _ _ _ _ _ HF Hs) as (q & Hq & Hf). cbn in Hf.
  pose proof (enumerated_grid_ok _ _ _ He) as ((Hlen & _) & _). cbn [fst] in Hlen.
  destruct (lookup_lt_is_Some_2 planIndexes i) as [k Hk].
  { rewrite Hlen. eapply lookup_lt_Some, Hq. }
  exists q, k. split; [exact Hf|]. split; [exact Hk|].
  intros Hqq. apply compareActualQEP_found. eapply enumerated_classified; eauto.
Qed.

Lemma grid_cell_2d query vals1 vals2 comm planIndexes D r c v1 v2 :
  fst (enumeration float_str query vals1 (Some vals2) comm) = Ret (planIndexes, D) ->
  length vals2 = RESOLUTION ->
  vals1 !! r = Some v1 -> vals2 !! c = Some v2 ->
  exists q k, fetched comm (query_2d float_str query v1 v2) = Ret q
    /\ holds planIndexes r c k
    /\ (similar q q = Ret true -> compareActualQEP q D = Ret (RET_QEP_FOUND, Some k)).
Proof.
  intros He Hn H1 H2.
  pose proof (queries_2d_lookup query _ _ _ _ _ _ H1 H2) as Hs.
  destruct (enumeration_point _ _ _ _ _ _ _ _ He Hs) as (q & k & Hf & Hk & Hc).
  exists q, k. split; [exact Hf|]. split; [|exact Hc].
  split; [rewrite <- Hn; eapply lookup_lt_Some, H2|]. rewrite <- Hn. exact Hk.
Qed.

Lemma grid_cell_1d query vals1 comm planIndexes D c v :
  fst (enumeration float_str query vals1 None comm) = Ret (planIndexes, D) ->
  (length vals1 <= RESOLUTION)%nat ->
  vals1 !! c = Some v ->
  exists q k, fetched comm (query_1d float_str query v) = Ret q
    /\ holds planIndexes 0 c k
    /\ (similar q q = Ret true -> compareActualQEP q D = Ret (RET_QEP_FOUND, Some k)).
Proof.
  intros He Hn H1.
  assert (queries float_str query vals1 None !! c = Some (query_1d float_str query v)) as Hs.
  { cbn [queries]. unfold queries_1d. rewrite list_lookup_fmap, H1. reflexivity. }
  destruct (enumeration_point _ _ _ _ _ _ _ _ He Hs) as (q & k & Hf & Hk & Hc).
  exists q, k. split; [exact Hf|]. split; [|exact Hc].
  split; [apply lookup_lt_Some in H1; lia|exact Hk].
Qed.

End Cells.

Lemma getActualQEP_connected query comm c :
  cur comm = Some c ->
  snd (getActualQEP query comm) = [EvGetQEP query]
  /\ (forall qep cols rows,
        explain c query = Ret (PList (PTuple (qep :: cols) :: rows)) ->
        fst (getActualQEP query comm) = Ret (RET_ONLY_ACTUAL_QEP, qep))
  /\ (forall e, explain c query = Raise e -> e <> SystemExit ->
                fst (getActualQEP query comm) = Raise TypeError).
Proof.
  intros Hc. unfold getActualQEP. rewrite (fetch_plan_connected _ _ _ Hc).
  split; [|split].
  - cbn [mbind]. destruct (obind _ _); reflexivity.
  - intros qep cols rows ->. reflexivity.
  - intros e -> He. destruct e; try reflexivity. contradiction.
Qed.

(** X20: with a connected communicator [getActualQEP] sends one plan
    request, for the query as it is; it returns [RET_ONLY_ACTUAL_QEP] with the
    first column of the first row the engine answers, and when the engine
    fails (the error is printed by [getQEP], which returns [None]) it raises
    [TypeError]. *)
Theorem X20_getActualQEP_returns_the_plan_of_the_query
    (query : string) (comm : Postgres_Connect) (c : Cursor) :
  cur comm = Some c ->
  snd (getActualQEP query comm) = [EvGetQEP query]
  /\ (forall qep cols rows,
        explain c query = Ret (PList (PTuple (qep :: cols) :: rows)) ->
        fst (getActualQEP query comm) = Ret (RET_ONLY_ACTUAL_QEP, qep))
  /\ (forall e, explain c query = Raise e -> e <> SystemExit ->
                fst (getActualQEP query comm) = Raise TypeError).
Proof. apply getActualQEP_connected. Qed.

Lemma X20_witness :
  snd (getActualQEP query_quantity db_switch) = [EvGetQEP query_quantity]
  /\ fst (getActualQEP query_quantity db_switch)
     = Ret (RET_ONLY_ACTUAL_QEP, qep_of (seq_scan 90 5000))
  /\ fst (getActualQEP query_quantity (db_failing_at "l_quantity")) = Raise TypeError.
Proof.
  split; [|split].
  - apply (X20_getActualQEP_returns_the_plan_of_the_query query_quantity db_switch
             (stats_cursor explain_switch) eq_refl).
  - apply (proj1 (proj2 (X20_getActualQEP_returns_the_plan_of_the_query query_quantity
                           db_switch (stats_cursor explain_switch) eq_refl))
             (qep_of (seq_scan 90 5000)) [] []).
    vm_compute. reflexivity.
  - apply (proj2 (proj2 (X20_getActualQEP_returns_the_plan_of_the_query query_quantity
                           (db_failing_at "l_quantity")
                           (stats_cursor (explain_failing_at "l_quantity")) eq_refl))
             ValueError).
    + vm_compute. reflexivity.
    + discriminate.
Defined.

(** X21: the cells of the selectivity map belong to the sampled values.
    After a two-dimensional enumeration with [RESOLUTION] values in the second
    dimension, row [r], column [c] of the map holds the plan number of the
    query made from value [r] of the first and value [c] of the second
    dimension; after a one-dimensional enumeration with at most [RESOLUTION]
    values, row 0, column [c] holds the plan number of the query made from
    value [c].  In both cases the plan of that query, when it is judged
    equivalent to itself, is classified by [compareActualQEP] under that
    number. *)
Theorem X21_map_cell_holds_the_plan_of_its_values
    (float_str : pyfloat -> string) (query : string) (vals1 : list pyfloat)
    (comm : Postgres_Connect) (planIndexes : list nat) (D : list pyval) :
  (forall vals2 r c v1 v2,
     fst (enumeration float_str query vals1 (Some vals2) comm) = Ret (planIndexes, D) ->
     length vals2 = RESOLUTION ->
     vals1 !! r = Some v1 -> vals2 !! c = Some v2 ->
     exists q k, fetched comm (query_2d float_str query v1 v2) = Ret q
       /\ holds planIndexes r c k
       /\ (similar q q = Ret true -> compareActualQEP q D = Ret (RET_QEP_FOUND, Some k)))
  /\ (forall c v,
        fst (enumeration float_str query vals1 None comm) = Ret (planIndexes, D) ->
        (length vals1 <= RESOLUTION)%nat ->
        vals1 !! c = Some v ->
        exists q k, fetched comm (query_1d float_str query v) = Ret q
          /\ holds planIndexes 0 c k
          /\ (similar q q = Ret true -> compareActualQEP q D = Ret (RET_QEP_FOUND, Some k))).
Proof.
  split.
  - intros vals2 r c v1 v2. apply grid_cell_2d.
  - intros c v. apply grid_cell_1d.
Qed.

Lemma X21_witness :
  exists q k,
    fetched db_switch (query_1d float_str_int template_quantity (Finite 55)) = Ret q
    /\ holds [1; 1; 1; 1; 2; 2; 2; 2; 2; 2]%nat 0 5 k
    /\ (similar q q = Ret true ->
        compareActualQEP q [qep_of (index_scan 40 100); qep_of (seq_scan 90 5000)]
        = Ret (RET_QEP_FOUND, Some k)).
Proof.
  apply (proj2 (X21_map_cell_holds_the_plan_of_its_values float_str_int template_quantity
                  selvals_10 db_switch [1; 1; 1; 1; 2; 2; 2; 2; 2; 2]%nat
                  [qep_of (index_scan 40 100); qep_of (seq_scan 90 5000)]) 5%nat (Finite 55)).
  - vm_compute. reflexivity.
  - unfold RESOLUTION. vm_compute. lia.
  - reflexivity.
Defined.

End Pipeline.
